(** * The text shaping core of opentype.js: tokenizer and bidi driver

    A shallow embedding of [tokenizer.js] (classes [Token], [ContextRange],
    [ContextChecker], [ContextParams], [Event], [Tokenizer]) and of
    [bidi.js] (class [Bidi]), followed by the properties of the design
    document that were checked against them. *)

From Stdlib Require Import ZArith Lia.
From stdpp Require Import base list strings gmap pretty.

Local Open Scope Z_scope.
Set Warnings "-register-all".

(** ** JavaScript values used by the two modules *)

(** Values stored in a token's state.  Numbers are the integers and [NaN];
    fractions and infinities do not occur at the call sites modelled
    here. *)
Inductive JsVal : Type :=
  | VUndefined
  | VNull
  | VBool (b : bool)
  | VNum (z : Z)
  | VNaN
  | VStr (s : string)
  | VArr (l : list JsVal).

(** ToBoolean. *)
Definition truthy (v : JsVal) : bool :=
  match v with
  | VUndefined | VNull | VNaN => false
  | VBool b => b
  | VNum z => negb (z =? 0)
  | VStr s => negb (String.eqb s "")
  | VArr _ => true
  end.

Definition falsy (v : JsVal) : bool := negb (truthy v).

(** A number-like argument (an index or an offset): what callers pass
    where the source expects a number, a boolean included ([composeRUD]
    can put its [true] there). *)
Inductive JsNum : Type :=
  | NUndefined
  | NNull
  | NBool (b : bool)
  | NInt (z : Z)
  | NNaN.

(** ToNumber; [None] stands for NaN. *)
Definition to_number (n : JsNum) : option Z :=
  match n with
  | NUndefined | NNaN => None
  | NNull => Some 0
  | NBool b => Some (if b then 1 else 0)
  | NInt z => Some z
  end.

(** The global [isNaN]. *)
Definition isNaN (n : JsNum) : bool :=
  match to_number n with None => true | Some _ => false end.

(** ToIntegerOrInfinity, as the array methods apply it to their arguments. *)
Definition to_integer (n : JsNum) : Z :=
  match to_number n with None => 0 | Some z => z end.

(** [n >= 0 && n < len], comparisons with NaN being false. *)
Definition num_in_range (n : JsNum) (len : Z) : bool :=
  match to_number n with
  | None => false
  | Some z => (0 <=? z) && (z <? len)
  end.

Section Arrays.
Context {A : Type}.

Definition len (l : list A) : Z := Z.of_nat (length l).

(** A relative index of [slice] and [splice], clamped into [0..len]. *)
Definition clamp_index (l : list A) (k : Z) : Z :=
  if k <? 0 then Z.max (len l + k) 0 else Z.min k (len l).

(** [l.slice(b, e)]; [e = None] is an omitted end. *)
Definition js_slice (l : list A) (b : Z) (e : option Z) : list A :=
  let k := clamp_index l b in
  let final := match e with None => len l | Some e => clamp_index l e end in
  take (Z.to_nat (final - k)) (drop (Z.to_nat k) l).

(** [l[i]]: [None] is [undefined]. *)
Definition js_index (l : list A) (i : Z) : option A :=
  if i <? 0 then None else l !! Z.to_nat i.

(** [l.splice(start, deleteCount, ...items)]: the removed elements and
    the array afterwards. *)
Definition js_splice (l : list A) (start deleteCount : JsNum)
    (items : list A) : list A * list A :=
  let k := clamp_index l (to_integer start) in
  let dc := Z.min (Z.max (to_integer deleteCount) 0) (len l - k) in
  (take (Z.to_nat dc) (drop (Z.to_nat k) l),
   take (Z.to_nat k) l ++ items ++ drop (Z.to_nat (k + dc)) l).
End Arrays.

(** A JavaScript string: its UTF-16 code units. *)
Definition jsstring : Type := list Z.

(** ** Objects used as maps *)

(** The string-keyed members an object inherits from [Object.prototype]:
    [{}] has them all, and [obj[name]] finds them when [obj] has no own
    property [name]. *)
Definition object_prototype : list string :=
  ["constructor"; "__defineGetter__"; "__defineSetter__"; "hasOwnProperty";
   "__lookupGetter__"; "__lookupSetter__"; "isPrototypeOf";
   "propertyIsEnumerable"; "toString"; "valueOf"; "__proto__";
   "toLocaleString"]%string.

(** The string-keyed members of [Array.prototype] (ECMAScript 2023). *)
Definition array_prototype : list string :=
  ["length"; "constructor"; "at"; "concat"; "copyWithin"; "fill"; "find";
   "findIndex"; "findLast"; "findLastIndex"; "lastIndexOf"; "pop"; "push";
   "reverse"; "shift"; "unshift"; "slice"; "sort"; "splice"; "includes";
   "indexOf"; "join"; "keys"; "entries"; "values"; "forEach"; "filter";
   "flat"; "flatMap"; "map"; "every"; "some"; "reduce"; "reduceRight";
   "toLocaleString"; "toString"; "toReversed"; "toSorted"; "toSpliced";
   "with"]%string.

(** What reading a property gives: a value some caller wrote, or an object
    of the runtime (a member of one of the two prototypes above, or
    [Object.prototype] itself), which the model names and does not look
    into.  Such an object is truthy and is not an array. *)
Inductive Read : Type :=
  | Value (v : JsVal)
  | Runtime (name : string).

Definition truthy_read (r : Read) : bool :=
  match r with Value v => truthy v | Runtime _ => true end.

(** The prototype of an object created as [{}]: [Object.prototype], until
    an assignment to [__proto__] replaces it by [null] or by an array (the
    objects among the values of the model). *)
Inductive Proto : Type :=
  | ProtoObject
  | ProtoNull
  | ProtoArray (l : list JsVal).

(** The element of [l] whose index is written [key], [i] being the index
    of the head. *)
Fixpoint array_element (l : list JsVal) (i : nat) (key : string) : option JsVal :=
  match l with
  | [] => None
  | v :: rest => if decide (pretty i = key) then Some v else array_element rest (S i) key
  end.

(** [obj[key]] for an object with no own property [key], through its
    prototype.  The getter [__proto__] of [Object.prototype] returns the
    prototype of the object read. *)
Definition inherited (p : Proto) (key : string) : Read :=
  match p with
  | ProtoNull => Value VUndefined
  | ProtoObject =>
      if decide (key = "__proto__"%string) then Runtime "Object.prototype"
      else if bool_decide (key ∈ object_prototype)
           then Runtime ("Object.prototype." +:+ key)
           else Value VUndefined
  | ProtoArray l =>
      if decide (key = "__proto__"%string) then Value (VArr l)
      else if decide (key = "length"%string) then Value (VNum (len l))
      else match array_element l 0 key with
           | Some v => Value v
           | None =>
               if bool_decide (key ∈ array_prototype)
               then Runtime ("Array.prototype." +:+ key)
               else if bool_decide (key ∈ object_prototype)
                    then Runtime ("Object.prototype." +:+ key)
                    else Value VUndefined
           end
  end.

(** [obj[name]] on an object that holds values of the type [A] as its own
    properties and has the prototype of [{}]: the own property, or a member
    of [Object.prototype], or [undefined]. *)
Inductive Property (A : Type) : Type :=
  | Own (a : A)
  | Inherited (name : string)
  | Missing.
Arguments Own {A}.
Arguments Inherited {A}.
Arguments Missing {A}.

Definition js_property {A} (m : gmap string A) (name : string) : Property A :=
  match m !! name with
  | Some a => Own a
  | None => if bool_decide (name ∈ object_prototype) then Inherited name else Missing
  end.

Definition own {A} (p : Property A) : option A :=
  match p with Own a => Some a | _ => None end.

(** ** class Token *)

(** [state] holds the own properties of [this.state] and [statePrototype]
    its prototype. *)
Record Token : Type := mkToken {
  char : jsstring;
  state : gmap string JsVal;
  statePrototype : Proto;
  activeState : option (string * Read)
}.

(** [new Token(char)] *)
Definition Token_new (c : jsstring) : Token :=
  {| char := c; state := ∅; statePrototype := ProtoObject; activeState := None |}.

(** [this.state[key]]: the own property, or else what the prototype
    gives. *)
Definition state_get (t : Token) (key : string) : Read :=
  match state t !! key with
  | Some v => Value v
  | None => inherited (statePrototype t) key
  end.

(** [this.state[key] = value].  It writes an own property, except for the
    key [__proto__] on an object that has no such own property and whose
    prototype chain ends in [Object.prototype]: there the setter of
    [Object.prototype] runs, which replaces the prototype when the value is
    an object or [null] and does nothing otherwise. *)
Definition state_set (key : string) (value : JsVal) (t : Token) : Token :=
  let own :=
    {| char := char t; state := <[key := value]> (state t);
       statePrototype := statePrototype t; activeState := activeState t |} in
  let with_prototype p :=
    {| char := char t; state := state t;
       statePrototype := p; activeState := activeState t |} in
  if decide (key = "__proto__"%string) then
    match state t !! key, statePrototype t with
    | Some _, _ => own
    | None, ProtoNull => own
    | None, _ =>
        match value with
        | VNull => with_prototype ProtoNull
        | VArr l => with_prototype (ProtoArray l)
        | _ => t
        end
    end
  else own.

(** [setState(key, value)]: the assignment, then
    [this.activeState = { key, value: this.state[key] }]. *)
Definition setState (key : string) (value : JsVal) (t : Token) : Token :=
  let t' := state_set key value t in
  {| char := char t';
     state := state t';
     statePrototype := statePrototype t';
     activeState := Some (key, state_get t' key) |}.

(** [this.state[stateId] || null] *)
Definition getState (stateId : string) (t : Token) : Read :=
  let v := state_get t stateId in
  if truthy_read v then v else Value VNull.

(** ** class ContextParams *)

Record ContextParams (A : Type) : Type := mkContextParams {
  context : list A;
  index : Z;
  length_ : Z;
  current : option A;
  backtrack : list A;
  lookahead : list A
}.
Arguments mkContextParams {A}.
Arguments context {A}.
Arguments index {A}.
Arguments length_ {A}.
Arguments current {A}.
Arguments backtrack {A}.
Arguments lookahead {A}.

(** What [get] returns: an item, [undefined] or [null]. *)
Inductive Slot (A : Type) : Type :=
  | SUndefined
  | SNull
  | SItem (a : A).
Arguments SUndefined {A}.
Arguments SNull {A}.
Arguments SItem {A}.

Definition slot_of {A} (o : option A) : Slot A :=
  match o with None => SUndefined | Some a => SItem a end.

Section ContextParamsOps.
Context {A : Type}.

(** [new ContextParams(context, currentIndex)] *)
Definition ContextParams_new (ctx : list A) (currentIndex : Z) : ContextParams A :=
  {| context := ctx;
     index := currentIndex;
     length_ := len ctx;
     current := js_index ctx currentIndex;
     backtrack := js_slice ctx 0 (Some currentIndex);
     lookahead := js_slice ctx (currentIndex + 1) None |}.

Definition setCurrentIndex (i : Z) (p : ContextParams A) : ContextParams A :=
  {| context := context p;
     index := i;
     length_ := length_ p;
     current := js_index (context p) i;
     backtrack := js_slice (context p) 0 (Some i);
     lookahead := js_slice (context p) (i + 1) None |}.

(** The [switch (true)] of [get], case by case. *)
Definition get (p : ContextParams A) (offset : Z) : Slot A :=
  if offset =? 0 then slot_of (current p)
  else if (offset <? 0) && (Z.abs offset <=? len (backtrack p))
    then slot_of (js_index (js_slice (backtrack p) offset None) 0)
  else if (0 <? offset) && (offset <=? len (lookahead p))
    then slot_of (js_index (lookahead p) (offset - 1))
  else SNull.
End ContextParamsOps.

(** ** class ContextRange *)

Record ContextRange : Type := mkContextRange {
  contextName : string;
  startIndex : Z;
  endOffset : option Z;      (* [None] is the [null] of a range still open *)
  rangeId : option string    (* assigned by [setEndOffset] *)
}.

(** [new ContextRange(startIndex, endOffset, contextName)] *)
Definition ContextRange_new (start : Z) (off : option Z) (name : string) : ContextRange :=
  {| contextName := name; startIndex := start; endOffset := off; rangeId := None |}.

(** ** class ContextChecker *)

Record ContextChecker : Type := mkContextChecker {
  checker_contextName : string;
  openRange : option ContextRange;
  ranges : list ContextRange;
  checkStart : ContextParams jsstring -> bool;
  checkEnd : ContextParams jsstring -> bool
}.

(** [new ContextChecker(contextName, checkStart, checkEnd)] *)
Definition ContextChecker_new (name : string)
    (cs ce : ContextParams jsstring -> bool) : ContextChecker :=
  {| checker_contextName := name; openRange := None; ranges := [];
     checkStart := cs; checkEnd := ce |}.

Definition with_openRange (o : option ContextRange) (c : ContextChecker) : ContextChecker :=
  {| checker_contextName := checker_contextName c; openRange := o;
     ranges := ranges c; checkStart := checkStart c; checkEnd := checkEnd c |}.

Definition with_ranges (rs : list ContextRange) (c : ContextChecker) : ContextChecker :=
  {| checker_contextName := checker_contextName c; openRange := openRange c;
     ranges := rs; checkStart := checkStart c; checkEnd := checkEnd c |}.

(** ** Values crossing the Tokenizer interface *)

(** An element of an array handed to an edit: a [Token] or something else. *)
Inductive Elem : Type :=
  | ETok (t : Token)
  | EOther (v : JsVal).

(** [e instanceof Token] *)
Definition instanceof_Token (e : Elem) : bool :=
  match e with ETok _ => true | EOther _ => false end.

Definition as_token (e : Elem) : option Token :=
  match e with ETok t => Some t | EOther _ => None end.

(** What the edit operations return, or the exception a call leaves with. *)
Inductive Result : Type :=
  | RFail (msg : string)                              (* [{ FAIL: msg }] *)
  | RFailReport (msg : string) (report : list Result) (* [{ FAIL: msg, report }] *)
  | RTokens (l : list Token)                          (* an array of tokens *)
  | RReplaced (old : option Token) (new : Token)      (* [[replaced[0], token]] *)
  | RReplacedRange (old new : list Token)             (* [[replaced, tokens]] *)
  | RUndefined
  | RThrown (msg : string).                           (* a TypeError, not a value *)

(** [typeof obj === 'object' && obj.hasOwnProperty('FAIL')] *)
Definition hasFAILObject (r : Result) : bool :=
  match r with
  | RFail _ | RFailReport _ _ => true
  | _ => false
  end.

(** The argument list of a dispatched event. *)
Inductive EventArgs : Type :=
  | ANone
  | ANext (p : ContextParams jsstring)
  | ANewToken (tok : Token) (p : ContextParams jsstring)
  | AEnd (toks : list Token)
  | AContextStart (name : string) (i : Z)
  | AContextEnd (name : string) (range : ContextRange)
  | AInsertToken (toks : list Token) (i : JsNum)
  | ARemoveToken (tok : list Token) (i : JsNum)
  | ARemoveRange (toks : list Token) (start offset : JsNum)
  | AReplaceToken (i : JsNum) (tok : Token)
  | AReplaceRange (start offset : JsNum) (toks : list Token)
  | AComposeRUD (results : list Result)
  | AUpdateContextsRanges (contexts : gmap string ContextChecker).

(** ** class Event *)

(** What can be subscribed to an event: the tokenizer's own
    [updateContextsRanges], the closure built by [registerModifier], or a
    caller's handler.  A caller's handler is opaque; it is known by a number
    and its invocations are recorded in the tokenizer's trace. *)
Inductive Subscriber : Type :=
  | SubUpdateContextsRanges
  | SubModifier (modifierId : string)
      (condition : option (Token -> ContextParams jsstring -> bool))
      (modifier : Token -> ContextParams jsstring -> JsVal)
  | SubHandler (h : nat).

Record Event : Type := mkEvent {
  eventId : string;
  subscribers : list Subscriber
}.

Definition Event_new (id : string) : Event := {| eventId := id; subscribers := [] |}.

(** [subscribe(eventHandler)] with a function: the new event and the
    subscription index [push(...) - 1]. *)
Definition subscribe (h : Subscriber) (e : Event) : Event * Z :=
  ({| eventId := eventId e; subscribers := subscribers e ++ [h] |},
   len (subscribers e)).

(** [unsubscribe(subsId)]: [splice(subsId, 1)]. *)
Definition unsubscribe (subsId : JsNum) (e : Event) : Event :=
  {| eventId := eventId e;
     subscribers := snd (js_splice (subscribers e) subsId (NInt 1) []) |}.

(** ** class Tokenizer *)

(** One record of the trace: a call of [dispatch], or the invocation of a
    caller's handler by it. *)
Inductive TraceEntry : Type :=
  | Dispatched (eventName : string) (args : EventArgs)
  | Invoked (eventName : string) (h : nat) (args : EventArgs).

(** The checkers are shared objects: [registeredContexts] maps each name to
    its checker and [contextCheckers] lists the same objects in registration
    order.  The map is the store and the list holds the names as references.
    [trace] is a ghost field: nothing reads it. *)
Record Tokenizer : Type := mkTokenizer {
  tokens : list Token;
  registeredContexts : gmap string ContextChecker;
  contextCheckers : list string;
  events : gmap string Event;
  registeredModifiers : list string;
  trace : list TraceEntry
}.

Definition set_tokens (l : list Token) (t : Tokenizer) : Tokenizer :=
  {| tokens := l; registeredContexts := registeredContexts t;
     contextCheckers := contextCheckers t; events := events t;
     registeredModifiers := registeredModifiers t; trace := trace t |}.

Definition set_registeredContexts (m : gmap string ContextChecker) (t : Tokenizer) : Tokenizer :=
  {| tokens := tokens t; registeredContexts := m;
     contextCheckers := contextCheckers t; events := events t;
     registeredModifiers := registeredModifiers t; trace := trace t |}.

Definition set_contextCheckers (l : list string) (t : Tokenizer) : Tokenizer :=
  {| tokens := tokens t; registeredContexts := registeredContexts t;
     contextCheckers := l; events := events t;
     registeredModifiers := registeredModifiers t; trace := trace t |}.

Definition set_events (m : gmap string Event) (t : Tokenizer) : Tokenizer :=
  {| tokens := tokens t; registeredContexts := registeredContexts t;
     contextCheckers := contextCheckers t; events := m;
     registeredModifiers := registeredModifiers t; trace := trace t |}.

Definition set_registeredModifiers (l : list string) (t : Tokenizer) : Tokenizer :=
  {| tokens := tokens t; registeredContexts := registeredContexts t;
     contextCheckers := contextCheckers t; events := events t;
     registeredModifiers := l; trace := trace t |}.

Definition log (e : TraceEntry) (t : Tokenizer) : Tokenizer :=
  {| tokens := tokens t; registeredContexts := registeredContexts t;
     contextCheckers := contextCheckers t; events := events t;
     registeredModifiers := registeredModifiers t; trace := trace t ++ [e] |}.

(** *** Construction and subscription *)

Definition coreEvents : list string :=
  ["start"; "end"; "next"; "newToken"; "contextStart";
   "contextEnd"; "insertToken"; "removeToken"; "removeRange";
   "replaceToken"; "replaceRange"; "composeRUD"; "updateContextsRanges"]%string.

Definition requiresContextUpdate : list string :=
  ["insertToken"; "removeToken"; "removeRange";
   "replaceToken"; "replaceRange"; "composeRUD"]%string.

(** [this.events[eventId].subscribe(h)] for an event known to exist. *)
Definition subscribe_to (eventId : string) (h : Subscriber)
    (evs : gmap string Event) : gmap string Event :=
  match evs !! eventId with
  | Some e => <[eventId := fst (subscribe h e)]> evs
  | None => evs
  end.

(** [initializeCoreEvents.call(this, events)]: [handlers] gives, for an
    event name, the handler the caller supplied to the constructor. *)
Definition initializeCoreEvents (handlers : gmap string nat)
    (evs : gmap string Event) : gmap string Event :=
  let evs := fold_left (fun m id => <[id := Event_new id]> m) coreEvents evs in
  let evs := fold_left (fun m id =>
                 match handlers !! id with
                 | Some h => subscribe_to id (SubHandler h) m
                 | None => m
                 end) coreEvents evs in
  fold_left (fun m id => subscribe_to id SubUpdateContextsRanges m)
    requiresContextUpdate evs.

(** [new Tokenizer(events)] *)
Definition Tokenizer_new (handlers : gmap string nat) : Tokenizer :=
  {| tokens := [];
     registeredContexts := ∅;
     contextCheckers := [];
     events := initializeCoreEvents handlers ∅;
     registeredModifiers := [];
     trace := [] |}.

(** What [on] returns, or the TypeError it ends with. *)
Inductive OnResult : Type :=
  | OnIndex (i : Z)
  | OnFail (msg : string)
  | OnNull
  | OnTypeError (msg : string).

(** [on(eventName, eventHandler)]; [None] is a handler that is not a
    function.  [this.events[eventName]] finds the members [this.events]
    inherits; they are truthy and have no [subscribe]. *)
Definition on (eventName : string) (eventHandler : option nat)
    (t : Tokenizer) : OnResult * Tokenizer :=
  match js_property (events t) eventName with
  | Own e =>
      match eventHandler with
      | Some h =>
          let '(e', i) := subscribe (SubHandler h) e in
          (OnIndex i, set_events (<[eventName := e']> (events t)) t)
      | None =>
          (OnFail ("invalid '" +:+ eventId e +:+ "' event handler"), t)
      end
  | Inherited _ => (OnTypeError "event.subscribe is not a function", t)
  | Missing => (OnNull, t)
  end.

Definition inboundIndex (i : JsNum) (t : Tokenizer) : bool :=
  num_in_range i (len (tokens t)).

(** [this.registeredContexts[contextName] || null]: [Missing] is [null]. *)
Definition getContext (name : string) (t : Tokenizer) : Property ContextChecker :=
  js_property (registeredContexts t) name.

(** What [registerContextChecker] returns. *)
Inductive RegisterResult : Type :=
  | RegFail (msg : string)
  | RegChecker (c : ContextChecker).

(** [registerContextChecker]; a check that is [None] is not a function. *)
Definition registerContextChecker (name : string)
    (contextStartCheck contextEndCheck : option (ContextParams jsstring -> bool))
    (t : Tokenizer) : RegisterResult * Tokenizer :=
  match getContext name t with
  | Own _ | Inherited _ =>
      (RegFail ("context name '" +:+ name +:+ "' is already registered."), t)
  | Missing =>
      match contextStartCheck, contextEndCheck with
      | None, _ => (RegFail "missing context start check.", t)
      | Some _, None => (RegFail "missing context end check.", t)
      | Some cs, Some ce =>
          let c := ContextChecker_new name cs ce in
          (RegChecker c,
           set_contextCheckers (contextCheckers t ++ [name])
             (set_registeredContexts (<[name := c]> (registeredContexts t)) t))
      end
  end.

(** [registerModifier(modifierId, condition, modifier)] *)
Definition registerModifier (modifierId : string)
    (condition : option (Token -> ContextParams jsstring -> bool))
    (modifier : Token -> ContextParams jsstring -> JsVal)
    (t : Tokenizer) : Tokenizer :=
  set_registeredModifiers (registeredModifiers t ++ [modifierId])
    (set_events
       (subscribe_to "newToken" (SubModifier modifierId condition modifier) (events t)) t).

(** *** Dispatch *)

(** The body of the closure [registerModifier] subscribes, run on the token
    it is handed. *)
Definition run_modifier (modifierId : string)
    (condition : option (Token -> ContextParams jsstring -> bool))
    (modifier : Token -> ContextParams jsstring -> JsVal)
    (p : ContextParams jsstring) (tok : Token) : Token :=
  let canApplyModifier :=
    match condition with None => true | Some c => c tok p end in
  if canApplyModifier then setState modifierId (modifier tok p) tok else tok.

(** Change the last element of an array in place. *)
Definition update_last {A} (f : A -> A) (l : list A) : list A :=
  match last l with
  | Some a => take (length l - 1)%nat l ++ [f a]
  | None => l
  end.

(** The token of a [newToken] event is the object [tokenize] has just
    pushed: a subscriber sees what the subscribers before it wrote. *)
Definition live_args (args : EventArgs) (t : Tokenizer) : EventArgs :=
  match args with
  | ANewToken tok p => ANewToken (default tok (last (tokens t))) p
  | _ => args
  end.

(** One subscriber applied to the arguments of an event.  [upd] is what the
    tokenizer's own [updateContextsRanges] does. *)
Definition invoke (upd : Tokenizer -> Tokenizer) (eventName : string)
    (args : EventArgs) (t : Tokenizer) (sub : Subscriber) : Tokenizer :=
  match sub with
  | SubHandler h => log (Invoked eventName h (live_args args t)) t
  | SubUpdateContextsRanges => upd t
  | SubModifier id condition modifier =>
      match args with
      | ANewToken _ p =>
          set_tokens (update_last (run_modifier id condition modifier p) (tokens t)) t
      | _ => t
      end
  end.

Definition dispatch_with (upd : Tokenizer -> Tokenizer) (eventName : string)
    (args : EventArgs) (t : Tokenizer) : Tokenizer :=
  let t := log (Dispatched eventName args) t in
  match events t !! eventName with
  | Some e => fold_left (invoke upd eventName args) (subscribers e) t
  | None => t
  end.

(** [dispatch] for the three events raised while the context ranges are
    being computed ([contextStart], [contextEnd], [updateContextsRanges]).
    Callers' handlers are invoked; [updateContextsRanges] subscribed to one
    of these would re-enter itself and is left out of the model. *)
Definition notify : string -> EventArgs -> Tokenizer -> Tokenizer :=
  dispatch_with (fun t => t).

(** *** Context ranges *)

Definition resetContextsRanges (t : Tokenizer) : Tokenizer :=
  set_registeredContexts (with_ranges [] <$> registeredContexts t) t.

(** [this.getContext(name).openRange = o] *)
Definition set_openRange (name : string) (o : option ContextRange) (t : Tokenizer) : Tokenizer :=
  set_registeredContexts (alter (with_openRange o) name (registeredContexts t)) t.

(** [setEndOffset(offset, contextName)]; [None] when the context is not a
    registered checker with an open range, where the source fails on
    [openRange.startIndex]. *)
Definition setEndOffset (offset : Z) (name : string)
    (t : Tokenizer) : option (ContextRange * Tokenizer) :=
  c ← own (getContext name t);
  o ← openRange c;
  let range :=
    {| contextName := name; startIndex := startIndex o; endOffset := Some offset;
       rangeId := Some (name +:+ "." +:+ pretty (length (ranges c))) |} in
  Some (range,
        set_registeredContexts
          (<[name := with_openRange None (with_ranges (ranges c ++ [range]) c)]>
             (registeredContexts t)) t).

(** The body of the [forEach] of [runContextCheck] for one checker.  The
    list holds the checkers of the registry, by name: [getContext] finds
    the checker as an own property, and a name that is not registered
    stands for no checker. *)
Definition runContextCheck_checker (p : ContextParams jsstring)
    (t : Tokenizer) (name : string) : Tokenizer :=
  match own (getContext name t) with
  | None => t
  | Some contextChecker =>
      let i := index p in
      let '(o, t) :=
        match openRange contextChecker with
        | None =>
            if checkStart contextChecker p then
              let r := ContextRange_new i None name in
              (Some r, notify "contextStart" (AContextStart name i)
                         (set_openRange name (Some r) t))
            else (None, t)
        | Some r => (Some r, t)
        end in
      match o with
      | Some r =>
          if checkEnd contextChecker p then
            let offset := (i - startIndex r) + 1 in
            match setEndOffset offset name t with
            | Some (range, t) => notify "contextEnd" (AContextEnd name range) t
            | None => t
            end
          else t
      | None => t
      end
  end.

Definition runContextCheck (p : ContextParams jsstring) (t : Tokenizer) : Tokenizer :=
  fold_left (runContextCheck_checker p) (contextCheckers t) t.

(** [for (let i = 0; i < n; i++) body(i)] *)
Definition for_loop {S} (n : nat) (body : Z -> S -> S) (s : S) : S :=
  fold_left (fun s i => body (Z.of_nat i) s) (seq 0 n) s.

Definition updateContextsRanges (t : Tokenizer) : Tokenizer :=
  let t := resetContextsRanges t in
  let chars := map char (tokens t) in
  let t := for_loop (length chars)
             (fun i t => runContextCheck (ContextParams_new chars i) t) t in
  notify "updateContextsRanges" (AUpdateContextsRanges (registeredContexts t)) t.

(** [this.dispatch(eventName, args)] *)
Definition dispatch : string -> EventArgs -> Tokenizer -> Tokenizer :=
  dispatch_with updateContextsRanges.

(** *** Destructive edits *)

(** The tokens of an array every element of which is a [Token]. *)
Definition tokens_of (l : list Elem) : list Token := omap as_token l.

Definition replaceRange (startIndex offset : JsNum) (toks : list Elem)
    (silent : bool) (t : Tokenizer) : Result * Tokenizer :=
  let offset := match offset with NNull => NInt (len (tokens t)) | _ => offset end in
  let isTokenType := forallb instanceof_Token toks in
  if negb (isNaN startIndex) && inboundIndex startIndex t && isTokenType then
    let '(replaced, rest) := js_splice (tokens t) startIndex offset (tokens_of toks) in
    let t := set_tokens rest t in
    let t := if negb silent
             then dispatch "replaceToken" (AReplaceRange startIndex offset (tokens_of toks)) t
             else t in
    (RReplacedRange replaced (tokens_of toks), t)
  else (RFail "replaceRange: invalid tokens or startIndex.", t).

Definition replaceToken (i : JsNum) (token : Elem) (silent : bool)
    (t : Tokenizer) : Result * Tokenizer :=
  match token with
  | ETok tok =>
      if negb (isNaN i) && inboundIndex i t then
        let '(replaced, rest) := js_splice (tokens t) i (NInt 1) [tok] in
        let t := set_tokens rest t in
        let t := if negb silent
                 then dispatch "replaceToken" (AReplaceToken i tok) t
                 else t in
        (RReplaced (js_index replaced 0) tok, t)
      else (RFail "replaceToken: invalid token or index.", t)
  | EOther _ => (RFail "replaceToken: invalid token or index.", t)
  end.

Definition removeRange (startIndex offset : JsNum) (silent : bool)
    (t : Tokenizer) : Result * Tokenizer :=
  let offset := if negb (isNaN offset) then offset else NInt (len (tokens t)) in
  let '(toks, rest) := js_splice (tokens t) startIndex offset [] in
  let t := set_tokens rest t in
  let t := if negb silent
           then dispatch "removeRange" (ARemoveRange toks startIndex offset) t
           else t in
  (RTokens toks, t).

Definition removeToken (i : JsNum) (silent : bool)
    (t : Tokenizer) : Result * Tokenizer :=
  if negb (isNaN i) && inboundIndex i t then
    let '(token, rest) := js_splice (tokens t) i (NInt 1) [] in
    let t := set_tokens rest t in
    let t := if negb silent
             then dispatch "removeToken" (ARemoveToken token i) t
             else t in
    (RTokens token, t)
  else (RFail "removeToken: invalid token index.", t).

Definition insertToken (toks : list Elem) (i : JsNum) (silent : bool)
    (t : Tokenizer) : Result * Tokenizer :=
  let tokenType := forallb instanceof_Token toks in
  if tokenType then
    let t := set_tokens (snd (js_splice (tokens t) i (NInt 0) (tokens_of toks))) t in
    let t := if negb silent
             then dispatch "insertToken" (AInsertToken (tokens_of toks) i) t
             else t in
    (RTokens (tokens_of toks), t)
  else (RFail "insertToken: invalid token(s).", t).

(** One entry [[op, ...args]] of the list handed to [composeRUD]: the name
    of one of the five edits and any number of arguments, each of the kind
    of the parameter it is given for.  The constructor without a digit is
    the entry with the arguments the signature has before [silent]; a
    digit is the number of arguments of a shorter or longer entry.
    Arguments after [silent] are ignored by the call and left out. *)
Inductive RUD : Type :=
  | RUD_replaceRange0
  | RUD_replaceRange1 (startIndex : JsNum)
  | RUD_replaceRange2 (startIndex offset : JsNum)
  | RUD_replaceRange (startIndex offset : JsNum) (toks : list Elem)
  | RUD_replaceRange4 (startIndex offset : JsNum) (toks : list Elem) (silent : JsVal)
  | RUD_replaceToken0
  | RUD_replaceToken1 (i : JsNum)
  | RUD_replaceToken (i : JsNum) (token : Elem)
  | RUD_replaceToken3 (i : JsNum) (token : Elem) (silent : JsVal)
  | RUD_removeRange0
  | RUD_removeRange1 (startIndex : JsNum)
  | RUD_removeRange (startIndex offset : JsNum)
  | RUD_removeRange3 (startIndex offset : JsNum) (silent : JsVal)
  | RUD_removeToken0
  | RUD_removeToken (i : JsNum)
  | RUD_removeToken2 (i : JsNum) (silent : JsVal)
  | RUD_insertToken0
  | RUD_insertToken1 (toks : list Elem)
  | RUD_insertToken (toks : list Elem) (i : JsNum)
  | RUD_insertToken3 (toks : list Elem) (i : JsNum) (silent : JsVal).

(** [this[RUD[0]].apply(this, RUD.slice(1).concat(silent))]: the value of
    [silent] comes after the arguments of the entry, in the parameter that
    follows them; the parameters after it are [undefined].  In the place
    of an index it is a boolean, in the place of a token it is not a
    [Token], and in the place of the token array it has no [every]: the
    call throws, as it does when that parameter is [undefined]. *)
Definition apply_RUD (silent : bool) (r : RUD) (t : Tokenizer) : Result * Tokenizer :=
  match r with
  | RUD_replaceRange0 =>
      (RThrown "TypeError: Cannot read properties of undefined (reading 'every')", t)
  | RUD_replaceRange1 _ =>
      (RThrown "TypeError: Cannot read properties of undefined (reading 'every')", t)
  | RUD_replaceRange2 _ _ => (RThrown "TypeError: tokens.every is not a function", t)
  | RUD_replaceRange s o toks => replaceRange s o toks silent t
  | RUD_replaceRange4 s o toks v => replaceRange s o toks (truthy v) t
  | RUD_replaceToken0 => replaceToken (NBool silent) (EOther VUndefined) false t
  | RUD_replaceToken1 i => replaceToken i (EOther (VBool silent)) false t
  | RUD_replaceToken i tok => replaceToken i tok silent t
  | RUD_replaceToken3 i tok v => replaceToken i tok (truthy v) t
  | RUD_removeRange0 => removeRange (NBool silent) NUndefined false t
  | RUD_removeRange1 s => removeRange s (NBool silent) false t
  | RUD_removeRange s o => removeRange s o silent t
  | RUD_removeRange3 s o v => removeRange s o (truthy v) t
  | RUD_removeToken0 => removeToken (NBool silent) false t
  | RUD_removeToken i => removeToken i silent t
  | RUD_removeToken2 i v => removeToken i (truthy v) t
  | RUD_insertToken0 => (RThrown "TypeError: tokens.every is not a function", t)
  | RUD_insertToken1 toks => insertToken toks (NBool silent) false t
  | RUD_insertToken toks i => insertToken toks i silent t
  | RUD_insertToken3 toks i v => insertToken toks i (truthy v) t
  end.

(** [RUDs.map(RUD => ...)]: the calls run in order on the tokenizer.  A
    call that throws ends the map: the results so far are lost, what the
    earlier calls did to the tokenizer is not. *)
Fixpoint map_RUDs (silent : bool) (RUDs : list RUD) (t : Tokenizer)
    : (list Result + string) * Tokenizer :=
  match RUDs with
  | [] => (inl [], t)
  | r :: rest =>
      match apply_RUD silent r t with
      | (RThrown msg, t) => (inr msg, t)
      | (res, t) =>
          match map_RUDs silent rest t with
          | (inl ress, t) => (inl (res :: ress), t)
          | (inr msg, t) => (inr msg, t)
          end
      end
  end.

Definition composeRUD (RUDs : list RUD) (t : Tokenizer) : Result * Tokenizer :=
  let silent := true in
  match map_RUDs silent RUDs t with
  | (inr msg, t) => (RThrown msg, t)
  | (inl state, t) =>
      if forallb hasFAILObject state then
        (RFailReport "composeRUD: one or more operations hasn't completed successfully"
           (List.filter hasFAILObject state), t)
      else
        (RUndefined,
         dispatch "composeRUD"
           (AComposeRUD (List.filter (fun op => negb (hasFAILObject op)) state)) t)
  end.

(** *** Read-only accessors *)

Definition getRangeTokens (range : ContextRange) (t : Tokenizer) : list Token :=
  let endIndex := startIndex range + default 0 (endOffset range) in
  js_slice (tokens t) (startIndex range) (Some endIndex).

(** What [getContextRanges] returns: the ranges of a checker, [undefined]
    (the [ranges] of an inherited member), or the FAIL record. *)
Inductive RangesResult : Type :=
  | RangesOf (rs : list ContextRange)
  | RangesUndefined
  | RangesFail (msg : string).

Definition getContextRanges (name : string) (t : Tokenizer) : RangesResult :=
  match getContext name t with
  | Own context => RangesOf (ranges context)
  | Inherited _ => RangesUndefined
  | Missing => RangesFail ("context checker '" +:+ name +:+ "' is not registered.")
  end.

Definition getText (t : Tokenizer) : jsstring :=
  concat (map char (tokens t)).

Definition rangeToText (range : ContextRange) (t : Tokenizer) : jsstring :=
  concat (map char (getRangeTokens range t)).

(** *** tokenize *)

Definition is_high_surrogate (u : Z) : bool := (55296 <=? u) && (u <=? 56319).
Definition is_low_surrogate (u : Z) : bool := (56320 <=? u) && (u <=? 57343).

(** [Array.from(text)]: the string iterator yields one string per code
    point, a high surrogate followed by a low one being one code point. *)
Fixpoint array_from (text : jsstring) : list jsstring :=
  match text with
  | [] => []
  | u :: rest =>
      match rest with
      | v :: rest' =>
          if is_high_surrogate u && is_low_surrogate v
          then [u; v] :: array_from rest'
          else [u] :: array_from rest
      | [] => [[u]]
      end
  end.

Definition tokenize_step (chars : list jsstring) (i : Z) (t : Tokenizer) : Tokenizer :=
  let c := default [] (js_index chars i) in
  let contextParams := ContextParams_new chars i in
  let t := dispatch "next" (ANext contextParams) t in
  let t := runContextCheck contextParams t in
  let token := Token_new c in
  let t := set_tokens (tokens t ++ [token]) t in
  dispatch "newToken" (ANewToken token contextParams) t.

Definition tokenize (text : jsstring) (t : Tokenizer) : list Token * Tokenizer :=
  let t := set_tokens [] t in
  let t := resetContextsRanges t in
  let chars := array_from text in
  let t := dispatch "start" ANone t in
  let t := for_loop (length chars) (tokenize_step chars) t in
  let t := dispatch "end" (AEnd (tokens t)) t in
  (tokens t, t).

(** *** The states the interface produces *)

Definition is_update (s : Subscriber) : bool :=
  match s with SubUpdateContextsRanges => true | _ => false end.

Definition is_handler (s : Subscriber) : bool :=
  match s with SubHandler _ => true | _ => false end.

(** The subscribers of a mutating event as the constructor and [on] leave
    them: callers' handlers around the one [updateContextsRanges]. *)
Definition auto_subscribed (e : Event) : bool :=
  forallb (fun s => is_update s || is_handler s) (subscribers e)
  && (length (List.filter is_update (subscribers e)) =? 1)%nat.

Definition observers_only (e : Event) : bool :=
  forallb is_handler (subscribers e).

Definition rangeEvents : list string :=
  ["contextStart"; "contextEnd"; "updateContextsRanges"]%string.

(** The events of a tokenizer built by [new Tokenizer] and extended through
    [on] and [registerModifier]: the six mutating events are auto-subscribed
    and the three events raised during a range computation have callers'
    handlers only. *)
Definition well_formed (t : Tokenizer) : bool :=
  forallb (fun ev => match events t !! ev with
                     | Some e => auto_subscribed e
                     | None => false
                     end) requiresContextUpdate
  && forallb (fun ev => match events t !! ev with
                        | Some e => observers_only e
                        | None => true
                        end) rangeEvents.

(** No checker is in the middle of a range. *)
Definition no_open_range (t : Tokenizer) : bool :=
  bool_decide (map_Forall (fun _ c => openRange c = None) (registeredContexts t)).

(** ** class Bidi *)

Module Bidi.

(** Modelled from the spec: the [FeatureQuery] class is not in the source
    tree; section 6 of the design gives it
    [supports({script, tag?}) -> bool]. *)
Record FeatureQuery : Type := mkFeatureQuery {
  supports : string -> option string -> bool
}.

(** Modelled from the spec: a context check module of
    [features/*/contextCheck/] is not in the source tree; section 4.3 has
    it export a start and an end predicate over [ContextParams]. *)
Record ContextCheck : Type := mkContextCheck {
  startCheck : ContextParams jsstring -> bool;
  endCheck : ContextParams jsstring -> bool
}.

(** [Bidi.prototype.contextChecks] *)
Record ContextChecks : Type := mkContextChecks {
  latinWordCheck : ContextCheck;
  arabicWordCheck : ContextCheck;
  arabicSentenceCheck : ContextCheck
}.

(** Modelled from the spec: the shapers [arabicPresentationForms],
    [arabicRequiredLigatures] and [latinLigature] are not in the source
    tree; sections 4.4, 4.5 and 9 have them write the state of the tokens
    of a range (form, glyph index, deleted flag) and keep every token in
    its place: each is a function of the requested tags, the range and the
    token vector to the token vector. *)
Record Shapers : Type := mkShapers {
  arabicPresentationForms :
    gmap string (list string) -> ContextRange -> list Token -> list Token;
  arabicRequiredLigatures :
    gmap string (list string) -> ContextRange -> list Token -> list Token;
  latinLigature :
    gmap string (list string) -> ContextRange -> list Token -> list Token
}.

Record Bidi : Type := mkBidi {
  baseDir : string;
  text : option jsstring;          (* [None] until [setText] *)
  tokenizer : Tokenizer;
  featuresTags : gmap string (list string);
  query : option FeatureQuery
}.

Definition set_tokenizer (t : Tokenizer) (b : Bidi) : Bidi :=
  {| baseDir := baseDir b; text := text b; tokenizer := t;
     featuresTags := featuresTags b; query := query b |}.

Definition set_featuresTags (m : gmap string (list string)) (b : Bidi) : Bidi :=
  {| baseDir := baseDir b; text := text b; tokenizer := tokenizer b;
     featuresTags := m; query := query b |}.

Definition set_query (q : option FeatureQuery) (b : Bidi) : Bidi :=
  {| baseDir := baseDir b; text := text b; tokenizer := tokenizer b;
     featuresTags := featuresTags b; query := q |}.

(** [new Bidi(baseDir)] *)
Definition Bidi_new (dir : string) : Bidi :=
  {| baseDir := dir; text := None; tokenizer := Tokenizer_new ∅;
     featuresTags := ∅; query := None |}.

Definition setText (txt : jsstring) (b : Bidi) : Bidi :=
  {| baseDir := baseDir b; text := Some txt; tokenizer := tokenizer b;
     featuresTags := featuresTags b; query := query b |}.

(** How a method ends: it returns, or an [Error] propagates out of it.
    The object keeps what was written before the error. *)
Inductive Outcome (A : Type) : Type :=
  | Returned (a : A)
  | Thrown (msg : string).
Arguments Returned {A}.
Arguments Thrown {A}.

Definition M (A : Type) : Type := Bidi -> Outcome A * Bidi.

Definition ret {A} (a : A) : M A := fun b => (Returned a, b).
Definition throw {A} (msg : string) : M A := fun b => (Thrown msg, b).
Definition bind {A B} (c : M A) (k : A -> M B) : M B :=
  fun b =>
    match c b with
    | (Returned a, b') => k a b'
    | (Thrown msg, b') => (Thrown msg, b')
    end.
Definition modify (f : Bidi -> Bidi) : M unit := fun b => (Returned tt, f b).

Notation "c1 >> c2" := (bind c1 (fun _ => c2))
  (at level 75, right associativity).

(** [registerFeatures(script, tags)]; [applyFeatures], its caller, has set
    [this.query]. *)
Definition registerFeatures (script : string) (tags : list string) (b : Bidi) : Bidi :=
  let supported tag :=
    match query b with
    | Some q => supports q script (Some tag)
    | None => false
    end in
  let supportedTags := filter (fun tag => supported tag = true) tags in
  match featuresTags b !! script with
  | None => set_featuresTags (<[script := supportedTags]> (featuresTags b)) b
  | Some old => set_featuresTags (<[script := old ++ supportedTags]> (featuresTags b)) b
  end.

(** [applyFeatures(font, features)]; a font is known by the query built
    from it, [None] being no font. *)
Definition applyFeatures (font : option FeatureQuery)
    (features : list (string * list string)) : M unit :=
  fun b =>
    match font with
    | None => (Thrown "No valid font was provided to apply features", b)
    | Some q =>
        let b := match query b with None => set_query (Some q) b | Some _ => b end in
        (Returned tt,
         fold_left (fun b feature =>
                      match query b with
                      | Some q' =>
                          if supports q' (fst feature) None
                          then registerFeatures (fst feature) (snd feature) b
                          else b
                      | None => b
                      end) features b)
    end.

Definition registerModifier (modifierId : string)
    (condition : option (Token -> ContextParams jsstring -> bool))
    (modifier : Token -> ContextParams jsstring -> JsVal) (b : Bidi) : Bidi :=
  set_tokenizer (registerModifier modifierId condition modifier (tokenizer b)) b.

(** [!!this.tokenizer.getContext(contextId)] *)
Definition checkContextReady (contextId : string) (b : Bidi) : bool :=
  match getContext contextId (tokenizer b) with
  | Missing => false
  | _ => true
  end.

(** [Array.isArray(index) ? index[0] : index] *)
Definition first_or_self (index : Read) : Read :=
  match index with
  | Value (VArr l) => Value (default VUndefined (head l))
  | _ => index
  end.

(** The loop of [getTextGlyphs] over the tokens left to visit, [indexes]
    being the array filled so far.  A token whose [activeState] is [null]
    and that is not deleted makes [token.activeState.value] a TypeError. *)
Fixpoint collect_glyphs (toks : list Token) (indexes : list Read)
    : Outcome (list Read) :=
  match toks with
  | [] => Returned indexes
  | token :: rest =>
      if truthy_read (state_get token "deleted") then collect_glyphs rest indexes
      else
        match activeState token with
        | None => Thrown "TypeError: Cannot read properties of null (reading 'value')"
        | Some (_, value) => collect_glyphs rest (indexes ++ [first_or_self value])
        end
  end.

Section Driver.
Variable contextChecks : ContextChecks.
Variable shapers : Shapers.

(** One step of [reverseArabicSentences]'s [forEach]. *)
Definition reverse_range (t : Tokenizer) (range : ContextRange) : Tokenizer :=
  let rangeTokens := getRangeTokens range t in
  snd (replaceRange (NInt (startIndex range))
         (match endOffset range with Some o => NInt o | None => NNull end)
         (ETok <$> rev rangeTokens) false t).

(** [getContextRanges(name).forEach(...)]: the array fetched before the
    loop is the one iterated; on the FAIL record of an unregistered
    context [forEach] is not a function, and [undefined] has no
    property. *)
Definition for_each_range (name : string)
    (body : Tokenizer -> ContextRange -> Tokenizer) : M unit :=
  fun b =>
    match getContextRanges name (tokenizer b) with
    | RangesOf rs => (Returned tt, set_tokenizer (fold_left body rs (tokenizer b)) b)
    | RangesUndefined =>
        (Thrown "TypeError: Cannot read properties of undefined (reading 'forEach')", b)
    | RangesFail _ => (Thrown "TypeError: ranges.forEach is not a function", b)
    end.

Definition reverseArabicSentences : M unit :=
  for_each_range "arabicSentence" reverse_range.

Definition checkGlyphIndexStatus : M unit :=
  fun b =>
    if bool_decide ("glyphIndex"%string ∈ registeredModifiers (tokenizer b))
    then (Returned tt, b)
    else (Thrown "glyphIndex modifier is required to apply arabic presentation features.", b).

(** A shaper applied to one range. *)
Definition shape
    (f : gmap string (list string) -> ContextRange -> list Token -> list Token)
    (tags : gmap string (list string))
    (t : Tokenizer) (range : ContextRange) : Tokenizer :=
  set_tokens (f tags range (tokens t)) t.

Definition applyArabicPresentationForms : M unit :=
  fun b =>
    match featuresTags b !! "arab"%string with
    | None => (Returned tt, b)
    | Some _ =>
        (checkGlyphIndexStatus >>
         for_each_range "arabicWord"
           (shape (arabicPresentationForms shapers) (featuresTags b))) b
    end.

Definition applyArabicRequireLigatures : M unit :=
  fun b =>
    match featuresTags b !! "arab"%string with
    | None => (Returned tt, b)
    | Some tags =>
        if bool_decide ("rlig"%string ∈ tags) then
          (checkGlyphIndexStatus >>
           for_each_range "arabicWord"
             (shape (arabicRequiredLigatures shapers) (featuresTags b))) b
        else (Returned tt, b)
    end.

Definition applyLatinLigatures : M unit :=
  fun b =>
    match featuresTags b !! "latn"%string with
    | None => (Returned tt, b)
    | Some tags =>
        if bool_decide ("liga"%string ∈ tags) then
          (checkGlyphIndexStatus >>
           for_each_range "latinWord"
             (shape (latinLigature shapers) (featuresTags b))) b
        else (Returned tt, b)
    end.

(** [if (cond) step] *)
Definition when (cond : Bidi -> bool) (step : M unit) : M unit :=
  fun b => if cond b then step b else (Returned tt, b).

Definition applyFeaturesToContexts : M unit :=
  when (checkContextReady "arabicWord")
    (applyArabicPresentationForms >> applyArabicRequireLigatures) >>
  when (checkContextReady "latinWord") applyLatinLigatures >>
  when (checkContextReady "arabicSentence") reverseArabicSentences.

(** The private [#registerContextChecker(checkId)], the check being
    [this.contextChecks[checkId + 'Check']]. *)
Definition registerContextChecker (checkId : string) (check : ContextCheck)
    (b : Bidi) : Bidi :=
  set_tokenizer
    (snd (registerContextChecker checkId
            (Some (startCheck check)) (Some (endCheck check)) (tokenizer b))) b.

(** The private [#tokenizeText()]. *)
Definition tokenizeText (b : Bidi) : Bidi :=
  let b := registerContextChecker "latinWord" (latinWordCheck contextChecks) b in
  let b := registerContextChecker "arabicWord" (arabicWordCheck contextChecks) b in
  let b := registerContextChecker "arabicSentence" (arabicSentenceCheck contextChecks) b in
  set_tokenizer (snd (tokenize (default [] (text b)) (tokenizer b))) b.

(** [!this.text || this.text !== text] *)
Definition text_changed (txt : jsstring) (b : Bidi) : bool :=
  match text b with
  | None => true
  | Some old => bool_decide (old = []) || negb (bool_decide (old = txt))
  end.

Definition processText (txt : jsstring) : M unit :=
  when (text_changed txt)
    (modify (setText txt) >> modify tokenizeText >> applyFeaturesToContexts).

Definition getBidiText (txt : jsstring) : M jsstring :=
  processText txt >> (fun b => (Returned (getText (tokenizer b)), b)).

Definition getTextGlyphs (txt : jsstring) : M (list Read) :=
  processText txt >> (fun b => (collect_glyphs (tokens (tokenizer b)) [], b)).
End Driver.

End Bidi.

(** ** Vocabulary of the properties *)

(** *** Reading the trace *)

(** The event an entry belongs to. *)
Definition entry_name (e : TraceEntry) : string :=
  match e with
  | Dispatched n _ => n
  | Invoked n _ _ => n
  end.

(** The entry is a call [dispatch(ev, ...)]. *)
Definition is_dispatch_of (ev : string) (e : TraceEntry) : bool :=
  match e with
  | Dispatched n _ => bool_decide (n = ev)
  | Invoked _ _ _ => false
  end.

(** How many times [ev] was dispatched in a stretch of the trace. *)
Definition dispatches (ev : string) (d : list TraceEntry) : nat :=
  length (List.filter (is_dispatch_of ev) d).

(** The entry belongs to one of the events [names]. *)
Definition named (names : list string) (e : TraceEntry) : Prop :=
  entry_name e ∈ names.

(** The entry is a handler of [ev] being invoked. *)
Definition invocation_of (ev : string) (e : TraceEntry) : Prop :=
  match e with
  | Invoked n _ _ => n = ev
  | Dispatched _ _ => False
  end.

(** *** The tokenizer before and after an operation *)

(** [framed P t t']: from [t] to [t'] the events, the list of checkers, the
    modifier ids and the characters of the tokens are kept, and the trace
    has grown by entries satisfying [P]. *)
Record framed (P : TraceEntry -> Prop) (t t' : Tokenizer) : Prop := {
  framed_events : events t' = events t;
  framed_checkers : contextCheckers t' = contextCheckers t;
  framed_modifiers : registeredModifiers t' = registeredModifiers t;
  framed_chars : map char (tokens t') = map char (tokens t);
  framed_trace : exists d, trace t' = trace t ++ d /\ Forall P d
}.

(** An operation that frames every tokenizer it is run on. *)
Definition frame (P : TraceEntry -> Prop) (f : Tokenizer -> Tokenizer) : Prop :=
  forall t, framed P t (f t).

(** An event whose arguments are not those of [newToken]. *)
Definition plain (args : EventArgs) : bool :=
  match args with ANewToken _ _ => false | _ => true end.

(** The entries a range computation adds to the trace, and among them
    those of one context check. *)
Definition range_entry : TraceEntry -> Prop := named rangeEvents.

Definition context_entry : TraceEntry -> Prop :=
  named ["contextStart"; "contextEnd"]%string.

(** A checker as [registerContextChecker] creates it: no range yet. *)
Definition fresh_checker (c : ContextChecker) : ContextChecker :=
  with_openRange None (with_ranges [] c).

(** [kept t t']: from [t] to [t'] the token vector is the same and every
    checker has kept its name and its two predicates. *)
Record kept (t t' : Tokenizer) : Prop := {
  kept_tokens : tokens t' = tokens t;
  kept_static :
    fresh_checker <$> registeredContexts t' = fresh_checker <$> registeredContexts t
}.

(** Two tokenizers with the same checkers in the same states. *)
Definition same_contexts (t t' : Tokenizer) : Prop :=
  registeredContexts t = registeredContexts t' /\
  contextCheckers t = contextCheckers t'.

(** The loop of [updateContextsRanges]: one context check per index. *)
Definition scan (chars : list jsstring) (t : Tokenizer) : Tokenizer :=
  for_loop (length chars)
    (fun i t => runContextCheck (ContextParams_new chars i) t) t.

(** What [dispatch] adds to the trace: entries of the event itself and of
    the range computation. *)
Definition dispatch_entry (ev : string) (e : TraceEntry) : Prop :=
  named [ev] e \/ range_entry e.

(** *** Edits *)

(** The position [splice] works at. *)
Definition splice_start {A} (l : list A) (start : JsNum) : nat :=
  Z.to_nat (clamp_index l (to_integer start)).

(** A tokenizer holding the tokens of a short text, no checker registered. *)
Definition tokenizer_of (text : jsstring) : Tokenizer :=
  snd (tokenize text (Tokenizer_new ∅)).

(** [log] for each entry of [d], in order. *)
Definition log_all (d : list TraceEntry) (t : Tokenizer) : Tokenizer :=
  fold_left (fun t e => log e t) d t.

(** The invocations of the handlers [hs] of [ev]. *)
Definition invocations (ev : string) (args : EventArgs) (hs : list nat) : list TraceEntry :=
  (fun h => Invoked ev h args) <$> hs.

(** The stretch of trace one auto-subscribed dispatch adds: it starts with
    the dispatch itself, holds that one dispatch of [ev] and exactly one
    [updateContextsRanges], and names no event but [ev] and those of the
    range computation. *)
Record one_update (ev : string) (args : EventArgs) (d : list TraceEntry) : Prop := {
  one_update_head : exists d', d = Dispatched ev args :: d';
  one_update_count : dispatches "updateContextsRanges" d = 1%nat;
  one_update_own : dispatches ev d = 1%nat;
  one_update_names : Forall (dispatch_entry ev) d
}.

(** A tokenizer on the tokens of "ab", with handler 7 subscribed to
    [replaceRange] and handler 8 to [replaceToken]: [replaceRange(0, 1, [X])]
    invokes 8 and never 7. *)
Definition listening_tokenizer : Tokenizer :=
  snd (on "replaceToken" (Some 8%nat)
         (snd (on "replaceRange" (Some 7%nat) (tokenizer_of [97; 98])))).

(** Name the two arrays a [splice] in the goal produces. *)
Ltac destruct_splice removed rest :=
  match goal with
  | |- context [js_splice ?l ?s ?dc ?items] =>
      destruct (js_splice l s dc items) as [removed rest]
  end.

(** *** Calls of the edits *)

(** A call of one of the five edits with the arguments of its signature;
    an argument left out is [undefined]. *)
Inductive EditCall : Type :=
  | Direct_replaceRange (startIndex offset : JsNum) (toks : list Elem)
  | Direct_replaceToken (i : JsNum) (token : Elem)
  | Direct_removeRange (startIndex offset : JsNum)
  | Direct_removeToken (i : JsNum)
  | Direct_insertToken (toks : list Elem) (i : JsNum).

Definition call_edit (silent : bool) (c : EditCall) (t : Tokenizer) : Result * Tokenizer :=
  match c with
  | Direct_replaceRange s o toks => replaceRange s o toks silent t
  | Direct_replaceToken i tok => replaceToken i tok silent t
  | Direct_removeRange s o => removeRange s o silent t
  | Direct_removeToken i => removeToken i silent t
  | Direct_insertToken toks i => insertToken toks i silent t
  end.

(** The entry of [composeRUD] that holds the arguments of a call, all of
    them and no more. *)
Definition entry_of (c : EditCall) : RUD :=
  match c with
  | Direct_replaceRange s o toks => RUD_replaceRange s o toks
  | Direct_replaceToken i tok => RUD_replaceToken i tok
  | Direct_removeRange s o => RUD_removeRange s o
  | Direct_removeToken i => RUD_removeToken i
  | Direct_insertToken toks i => RUD_insertToken toks i
  end.

(** The calls made one after the other with [silent = true]: their results
    and the tokenizer after the last. *)
Fixpoint silent_calls (calls : list EditCall) (t : Tokenizer) : list Result * Tokenizer :=
  match calls with
  | [] => ([], t)
  | c :: rest =>
      let '(res, t) := call_edit true c t in
      let '(ress, t) := silent_calls rest t in
      (res :: ress, t)
  end.

(** An edit as a caller of the interface makes it: one of the five
    edits called with [silent = false], or [composeRUD], which has no
    [silent] parameter, on entries that hold the arguments of calls. *)
Inductive Edit : Type :=
  | Edit_call (c : EditCall)
  | Edit_composeRUD (calls : list EditCall).

Definition run_edit (e : Edit) (t : Tokenizer) : Result * Tokenizer :=
  match e with
  | Edit_call c => call_edit false c t
  | Edit_composeRUD calls => composeRUD (entry_of <$> calls) t
  end.

(** *** Stored and recomputed ranges *)

(** The ranges stored in the registered checkers. *)
Definition stored_ranges (t : Tokenizer) : gmap string (list ContextRange) :=
  ranges <$> registeredContexts t.

(** The ranges recomputed from scratch: every checker as it was registered
    (no range, none open), then [runContextCheck] over
    [ContextParams(tokens.map(t => t.char), i)] for every index [i] of the
    token vector. *)
Definition recompute_from_scratch (t : Tokenizer) : gmap string (list ContextRange) :=
  let chars := map char (tokens t) in
  stored_ranges
    (for_loop (length chars)
       (fun i t => runContextCheck (ContextParams_new chars i) t)
       (set_registeredContexts (fresh_checker <$> registeredContexts t) t)).

(** A checker for the runs "a...b": it starts on the letter a and ends on
    the letter b. *)
Definition starts_on_a (p : ContextParams jsstring) : bool :=
  bool_decide (current p = Some [97]).

Definition ends_on_b (p : ContextParams jsstring) : bool :=
  bool_decide (current p = Some [98]).

(** A tokenizer with that checker registered, after [tokenize(text)]. *)
Definition ab_tokenizer (text : jsstring) : Tokenizer :=
  snd (tokenize text
         (snd (registerContextChecker "ab" (Some starts_on_a) (Some ends_on_b)
                 (Tokenizer_new ∅)))).

(** The start index and end offset of the ranges of the checker "ab". *)
Definition ab_ranges (m : gmap string (list ContextRange)) : list (Z * option Z) :=
  (fun r => (startIndex r, endOffset r)) <$> default [] (m !! "ab"%string).

(** *** Calls of tokenize *)

(** What [dispatch] adds to the trace, first entry apart. *)
Definition after_dispatch (ev : string) (e : TraceEntry) : Prop :=
  invocation_of ev e \/ range_entry e.

(** [quiet ev t t']: from [t] to [t'] the trace has grown, without a
    dispatch of [ev]. *)
Definition quiet (ev : string) (t t' : Tokenizer) : Prop :=
  exists d, trace t' = trace t ++ d /\ dispatches ev d = 0%nat.

(** *** Code points *)

(** A Unicode scalar value: a code point that is not a surrogate. *)
Definition is_scalar (cp : Z) : bool :=
  (0 <=? cp) && (cp <=? 1114111) && negb ((55296 <=? cp) && (cp <=? 57343)).

(** The UTF-16 code units of a scalar value, as a JavaScript string holds
    them: one unit below 0x10000, a surrogate pair from there on. *)
Definition utf16_unit (cp : Z) : jsstring :=
  if cp <? 65536 then [cp]
  else [55296 + Z.shiftr (cp - 65536) 10; 56320 + Z.land (cp - 65536) 1023].

(** The string of a sequence of scalar values. *)
Definition utf16 (cps : list Z) : jsstring := concat (utf16_unit <$> cps).

(** The string holds one code point, a scalar value. *)
Definition scalar_char (s : jsstring) : Prop :=
  exists cp, is_scalar cp = true /\ s = utf16_unit cp.

(** *** The Bidi object before and after a step *)

(** [retoken b b']: [b'] is [b] with another token vector; the text, the
    requested tags, the checkers and the trace are those of [b]. *)
Definition retoken (b b' : Bidi.Bidi) : Prop :=
  exists l, b' = Bidi.set_tokenizer (set_tokens l (Bidi.tokenizer b)) b.

(** How many times [tokenize] has run: it alone dispatches [start]. *)
Definition tokenize_calls (b : Bidi.Bidi) : nat :=
  dispatches "start" (trace (Bidi.tokenizer b)).

(** [settled b b']: from [b] to [b'] the text and the requested tags are
    kept and [tokenize] has not run. *)
Record settled (b b' : Bidi.Bidi) : Prop := {
  settled_text : Bidi.text b' = Bidi.text b;
  settled_tags : Bidi.featuresTags b' = Bidi.featuresTags b;
  settled_quiet : quiet "start" (Bidi.tokenizer b) (Bidi.tokenizer b')
}.

(** A step of the driver leaves the object in relation [R] with what it
    was, whether it returns or throws. *)
Definition step_keeps (R : Bidi.Bidi -> Bidi.Bidi -> Prop) (c : Bidi.M unit) : Prop :=
  forall b, R b (snd (c b)).

(** Steps a to c of [applyFeaturesToContexts]: the shapers. *)
Definition shaping_steps (shapers : Bidi.Shapers) : Bidi.M unit :=
  Bidi.bind
    (Bidi.when (Bidi.checkContextReady "arabicWord")
       (Bidi.bind (Bidi.applyArabicPresentationForms shapers)
          (fun _ => Bidi.applyArabicRequireLigatures shapers)))
    (fun _ => Bidi.when (Bidi.checkContextReady "latinWord")
                (Bidi.applyLatinLigatures shapers)).

(** Checks that never hold and shapers that change nothing, to run the
    driver on examples. *)
Definition never_check : Bidi.ContextCheck :=
  {| Bidi.startCheck := fun _ => false; Bidi.endCheck := fun _ => false |}.

Definition no_checks : Bidi.ContextChecks :=
  {| Bidi.latinWordCheck := never_check;
     Bidi.arabicWordCheck := never_check;
     Bidi.arabicSentenceCheck := never_check |}.

Definition no_shapers : Bidi.Shapers :=
  {| Bidi.arabicPresentationForms := fun _ _ l => l;
     Bidi.arabicRequiredLigatures := fun _ _ l => l;
     Bidi.latinLigature := fun _ _ l => l |}.

(** *** Ranges and their reversal *)

(** A completed range as [runContextCheck] stores it: an end offset is set
    and the end index [startIndex + endOffset] is not negative. *)
Definition range_ok (r : ContextRange) : Prop :=
  exists off, endOffset r = Some off /\ 0 <= startIndex r + off.

(** Every range stored in a checker is a completed range. *)
Definition ranges_ok (t : Tokenizer) : Prop :=
  map_Forall (fun _ c => Forall range_ok (ranges c)) (registeredContexts t).

(** The token vector with the [dc] tokens from position [s] on reversed. *)
Definition reverse_segment {A} (s dc : nat) (l : list A) : list A :=
  take s l ++ rev (take dc (drop s l)) ++ drop (s + dc) l.

(** The driver's checks with an [arabicSentence] check that takes the
    runs "a...b" for sentences. *)
Definition ab_sentence_checks : Bidi.ContextChecks :=
  {| Bidi.latinWordCheck := never_check;
     Bidi.arabicWordCheck := never_check;
     Bidi.arabicSentenceCheck :=
       {| Bidi.startCheck := starts_on_a; Bidi.endCheck := ends_on_b |} |}.

(** The tokens kept for a stored text are those of the text, in some
    order. *)
Definition cache_ok (b : Bidi.Bidi) : Prop :=
  forall old, Bidi.text b = Some old ->
    map char (tokens (Bidi.tokenizer b)) ≡ₚ array_from old.

(** *** The events of a new tokenizer *)

(** The subscribers [initializeCoreEvents] gives the event [n]: the handler
    handed to the constructor for it, then [updateContextsRanges] when the
    event is a mutating one. *)
Definition constructor_subscribers (handlers : gmap string nat) (n : string)
    : list Subscriber :=
  match handlers !! n with Some h => [SubHandler h] | None => [] end
  ++ (if bool_decide (n ∈ requiresContextUpdate) then [SubUpdateContextsRanges] else []).

(** *** The tokens [tokenize] makes *)

(** The subscribers of [newToken]. *)
Definition newToken_subscribers (t : Tokenizer) : list Subscriber :=
  match events t !! "newToken"%string with
  | Some e => subscribers e
  | None => []
  end.

(** What the subscribers of [newToken] do to the new token: the modifiers
    write to it, in the order of their registration; a caller's handler
    is an observer. *)
Definition modify_token (subs : list Subscriber) (p : ContextParams jsstring)
    (tok : Token) : Token :=
  fold_left (fun tok sub =>
               match sub with
               | SubModifier id condition modifier =>
                   run_modifier id condition modifier p tok
               | _ => tok
               end) subs tok.

(** The token [tokenize(text)] makes at position [i] of the code points. *)
Definition token_at (t : Tokenizer) (text : jsstring) (i : nat) (c : jsstring) : Token :=
  modify_token (newToken_subscribers t)
    (ContextParams_new (array_from text) (Z.of_nat i)) (Token_new c).

(** *** One checker followed through a range computation *)

(** The checker once the range [r] it had open is completed at index [i]. *)
Definition close_range (i : Z) (name : string) (r : ContextRange)
    (c : ContextChecker) : ContextChecker :=
  with_openRange None
    (with_ranges
       (ranges c ++
          [{| contextName := name; startIndex := startIndex r;
              endOffset := Some (i - startIndex r + 1);
              rangeId := Some (name +:+ "." +:+ pretty (length (ranges c))) |}]) c).

(** What one context check does to the checker [name]. *)
Definition step_checker (name : string) (p : ContextParams jsstring)
    (c : ContextChecker) : ContextChecker :=
  match openRange c with
  | Some r => if checkEnd c p then close_range (index p) name r c else c
  | None =>
      if checkStart c p then
        let r := ContextRange_new (index p) None name in
        if checkEnd c p
        then close_range (index p) name r (with_openRange (Some r) c)
        else with_openRange (Some r) c
      else c
  end.

(** The checker [name] after a context check at every index of [chars]. *)
Definition scan_checker (name : string) (chars : list jsstring)
    (c : ContextChecker) : ContextChecker :=
  for_loop (length chars) (fun i c => step_checker name (ContextParams_new chars i) c) c.

(** The ranges lie one after the other between [lo] and [hi]: each has an
    end offset, of one token at least, and starts at or after the end of
    the one before it. *)
Fixpoint ranges_chain (lo : Z) (rs : list ContextRange) (hi : Z) : Prop :=
  match rs with
  | [] => lo <= hi
  | r :: rs =>
      exists off, endOffset r = Some off /\ lo <= startIndex r /\ 1 <= off /\
                  ranges_chain (startIndex r + off) rs hi
  end.

(** The range at position [k] of the list has the id [name.k]. *)
Definition ranges_named (name : string) (rs : list ContextRange) : Prop :=
  forall k r, rs !! k = Some r ->
    rangeId r = Some (name +:+ "." +:+ pretty k) /\ contextName r = name.

(** The checker after the context checks of the indexes below [n], started
    with no range and none open. *)
Definition checker_scanned (n : Z) (name : string) (c : ContextChecker) : Prop :=
  exists hi, ranges_chain 0 (ranges c) hi /\ hi <= n /\
             (forall o, openRange c = Some o -> hi <= startIndex o < n) /\
             ranges_named name (ranges c).

(** *** The states the public methods reach *)

(** A call of a public method of the tokenizer.  [Call_edit] is an edit as
    a caller makes it with [silent = false], [Call_silent] one of the five
    edits with [silent = true], [Call_composeRUD] a call of [composeRUD] on
    any entries, short and long ones included. *)
Inductive Call : Type :=
  | Call_on (eventName : string) (eventHandler : option nat)
  | Call_registerModifier (modifierId : string)
      (condition : option (Token -> ContextParams jsstring -> bool))
      (modifier : Token -> ContextParams jsstring -> JsVal)
  | Call_registerContextChecker (name : string)
      (contextStartCheck contextEndCheck : option (ContextParams jsstring -> bool))
  | Call_edit (e : Edit)
  | Call_silent (c : EditCall)
  | Call_composeRUD (RUDs : list RUD)
  | Call_updateContextsRanges
  | Call_tokenize (text : jsstring).

Definition run_call (t : Tokenizer) (c : Call) : Tokenizer :=
  match c with
  | Call_on ev h => snd (on ev h t)
  | Call_registerModifier id condition modifier => registerModifier id condition modifier t
  | Call_registerContextChecker name cs ce => snd (registerContextChecker name cs ce t)
  | Call_edit e => snd (run_edit e t)
  | Call_silent c => snd (call_edit true c t)
  | Call_composeRUD RUDs => snd (composeRUD RUDs t)
  | Call_updateContextsRanges => updateContextsRanges t
  | Call_tokenize text => snd (tokenize text t)
  end.

(** The names of the checkers are those of the registry, each once, and
    none is the name of a member of [Object.prototype]. *)
Definition checkers_registered (t : Tokenizer) : Prop :=
  NoDup (contextCheckers t) /\
  dom (registeredContexts t) = (list_to_set (contextCheckers t) : gset string) /\
  Forall (fun name => name ∉ object_prototype) (contextCheckers t).

(** From [t] to [t'] the same checkers are registered, under the same
    names, in the same order. *)
Definition same_names (t t' : Tokenizer) : Prop :=
  contextCheckers t' = contextCheckers t /\
  dom (registeredContexts t') = (dom (registeredContexts t) : gset string).

(** *** Glyphs *)


(** Every tag requested for a script is one the query supports. *)
Definition tags_supported (q : Bidi.FeatureQuery) (m : gmap string (list string)) : Prop :=
  map_Forall (fun script tags =>
                Forall (fun tag => Bidi.supports q script (Some tag) = true) tags) m.

(** * Properties *)

(** ** Arrays *)

Section ArrayFacts.
Context {A : Type}.
Implicit Types l : list A.

Lemma len_nonneg l : 0 <= len l.
Proof. unfold len. lia. Qed.

Lemma clamp_index_bounds l k : 0 <= clamp_index l k <= len l.
Proof.
  unfold clamp_index. pose proof (len_nonneg l).
  destruct (Z.ltb_spec k 0); lia.
Qed.

Lemma clamp_index_inside l k : 0 <= k <= len l -> clamp_index l k = k.
Proof.
  intros Hk. unfold clamp_index.
  destruct (Z.ltb_spec k 0); lia.
Qed.

(** [l.slice(0, i)] for an index inside the array. *)
Lemma js_slice_prefix l i :
  0 <= i <= len l -> js_slice l 0 (Some i) = take (Z.to_nat i) l.
Proof.
  intros Hi. unfold js_slice.
  rewrite !clamp_index_inside by (pose proof (len_nonneg l); lia).
  rewrite Z.sub_0_r. reflexivity.
Qed.

(** [l.slice(i)] for an index inside the array. *)
Lemma js_slice_suffix l i :
  0 <= i <= len l -> js_slice l i None = drop (Z.to_nat i) l.
Proof.
  intros Hi. unfold js_slice.
  rewrite clamp_index_inside by lia.
  apply take_ge. rewrite length_drop. unfold len. lia.
Qed.

(** [l.slice(-k)] keeps the last [k] elements. *)
Lemma js_slice_tail l k :
  0 < k <= len l -> js_slice l (- k) None = drop (Z.to_nat (len l - k)) l.
Proof.
  intros Hk. unfold js_slice, clamp_index.
  destruct (Z.ltb_spec (- k) 0); [|lia].
  replace (Z.max (len l + - k) 0) with (len l - k) by lia.
  apply take_ge. rewrite length_drop. unfold len. lia.
Qed.

Lemma js_index_lookup l i :
  0 <= i -> js_index l i = l !! Z.to_nat i.
Proof.
  intros Hi. unfold js_index. destruct (Z.ltb_spec i 0); [lia|reflexivity].
Qed.
End ArrayFacts.

(** ** Token state *)

(** The falsy values of the model are the six below. *)
Lemma falsy_values (v : JsVal) :
  falsy v = true <->
  v = VUndefined \/ v = VNull \/ v = VBool false \/ v = VNum 0 \/ v = VNaN \/ v = VStr "".
Proof.
  unfold falsy. split.
  - destruct v as [| |b|z| |s|l]; simpl; intros H; auto 10.
    + destruct b; [discriminate|auto 10].
    + destruct (Z.eqb_spec z 0); [subst; auto 10|discriminate].
    + destruct s; [auto 10|discriminate].
    + discriminate.
  - intros [->|[->|[->|[->|[->| ->]]]]]; reflexivity.
Qed.

Lemma state_set_own (k : string) (v : JsVal) (tok : Token) :
  k <> "__proto__"%string ->
  state_set k v tok =
    {| char := char tok; state := <[k := v]> (state tok);
       statePrototype := statePrototype tok; activeState := activeState tok |}.
Proof. intros Hk. unfold state_set. rewrite decide_False by exact Hk. reflexivity. Qed.

Lemma char_setState (k : string) (v : JsVal) (tok : Token) :
  char (setState k v tok) = char tok.
Proof.
  unfold setState, state_set. cbn [char].
  destruct (decide (k = "__proto__"%string)); [|reflexivity].
  destruct (state tok !! k); [reflexivity|].
  destruct (statePrototype tok); try reflexivity; destruct v; reflexivity.
Qed.

Lemma state_get_setState (k : string) (v : JsVal) (tok : Token) :
  k <> "__proto__"%string -> state_get (setState k v tok) k = Value v.
Proof.
  intros Hk. unfold setState. rewrite state_set_own by exact Hk.
  unfold state_get. cbn [state]. rewrite lookup_insert_eq. reflexivity.
Qed.

Lemma state_get_setState_other (k k' : string) (v : JsVal) (tok : Token) :
  k <> "__proto__"%string -> k' <> k ->
  state_get (setState k v tok) k' = state_get tok k'.
Proof.
  intros Hk Hne. unfold setState. rewrite state_set_own by exact Hk.
  unfold state_get. cbn [state statePrototype].
  rewrite lookup_insert_ne by (intros Heq; apply Hne; symmetry; exact Heq).
  reflexivity.
Qed.

Lemma activeState_setState (k : string) (v : JsVal) (tok : Token) :
  k <> "__proto__"%string -> activeState (setState k v tok) = Some (k, Value v).
Proof.
  intros Hk. unfold setState. rewrite state_set_own by exact Hk.
  cbn [activeState]. unfold state_get. cbn [state]. rewrite lookup_insert_eq. reflexivity.
Qed.

Lemma getState_falsy (k : string) (v : JsVal) (tok : Token) :
  falsy v = true -> state_get tok k = Value v -> getState k tok = Value VNull.
Proof.
  intros Hv Ht. unfold getState. rewrite Ht. cbn [truthy_read].
  unfold falsy in Hv. destruct (truthy v); [discriminate|reflexivity].
Qed.

(** C10, read for every key.  On a new token [getState("constructor")] is
    the function [Object] that the state object inherits, though the key
    was never written; and after [setState("__proto__", 0)] the setter of
    [Object.prototype] has ignored the number and [getState("__proto__")]
    is [Object.prototype]: in neither case [null]. *)
Lemma getState_inherited_key :
  state (Token_new [97]) !! "constructor"%string = None /\
  getState "constructor" (Token_new [97]) = Runtime "Object.prototype.constructor" /\
  falsy (VNum 0) = true /\
  getState "__proto__" (setState "__proto__" (VNum 0) (Token_new [97]))
  = Runtime "Object.prototype".
Proof. vm_compute. repeat split. Qed.

(** C10, as the source has it.  [getState(k)] is [null] whenever the value
    read at [state[k]] is falsy.  A falsy value [v] stored by
    [setState(k, v)] under a key other than [__proto__] reads back as
    [null].  A key never written on a token whose state object has kept the
    prototype of [{}] reads as [null] too, and so is indistinguishable from
    the stored falsy value, when it is not the name of a member of
    [Object.prototype]; when it is, [getState] returns that member. *)
Theorem getState_falsy_is_null (tok tok' : Token) (k : string) (v : JsVal) :
  falsy v = true ->
  (state_get tok k = Value v -> getState k tok = Value VNull) /\
  (k <> "__proto__"%string -> getState k (setState k v tok) = Value VNull) /\
  (state tok' !! k = None -> statePrototype tok' = ProtoObject ->
   (k ∉ object_prototype ->
    getState k tok' = Value VNull /\
    getState k (setState k v tok) = getState k tok') /\
   (k ∈ object_prototype ->
    exists name, getState k tok' = Runtime name)).
Proof.
  intros Hv.
  assert (Hset : k <> "__proto__"%string -> getState k (setState k v tok) = Value VNull).
  { intros Hk. apply (getState_falsy k v); [exact Hv|].
    apply state_get_setState, Hk. }
  split; [apply getState_falsy, Hv|]. split; [exact Hset|].
  intros Hnone Hproto. split.
  - intros Hk.
    assert (H2 : getState k tok' = Value VNull).
    { unfold getState, state_get. rewrite Hnone, Hproto. unfold inherited.
      destruct (decide (k = "__proto__"%string)) as [->|_].
      - exfalso. apply Hk. unfold object_prototype. repeat constructor.
      - rewrite bool_decide_eq_false_2 by exact Hk. reflexivity. }
    split; [exact H2|]. rewrite H2. apply Hset.
    intros ->. apply Hk. unfold object_prototype. repeat constructor.
  - intros Hk. unfold getState, state_get. rewrite Hnone, Hproto. unfold inherited.
    destruct (decide (k = "__proto__"%string)) as [->|_]; [eexists; reflexivity|].
    rewrite bool_decide_eq_true_2 by exact Hk. eexists. reflexivity.
Qed.

(** A glyph index of [0] written on one token, and a fresh token. *)
Lemma getState_falsy_is_null_witness :
  getState "glyphIndex" (setState "glyphIndex" (VNum 0) (Token_new [97])) = Value VNull /\
  getState "glyphIndex" (Token_new [98]) = Value VNull.
Proof.
  destruct (getState_falsy_is_null (Token_new [97]) (Token_new [98])
              "glyphIndex" (VNum 0) eq_refl) as (_ & H1 & H).
  destruct (H eq_refl eq_refl) as [H2 _].
  split; [apply H1; discriminate|].
  apply H2.
  refine (bool_decide_unpack ("glyphIndex"%string ∉ object_prototype) _).
  vm_compute. exact I.
Defined.

(** ** ContextParams *)

Section ContextParamsFacts.
Context {A : Type}.
Implicit Types chars : list A.

Lemma backtrack_new chars i :
  0 <= i <= len chars ->
  backtrack (ContextParams_new chars i) = take (Z.to_nat i) chars.
Proof. intros Hi. simpl. apply js_slice_prefix. exact Hi. Qed.

Lemma lookahead_new chars i :
  0 <= i < len chars ->
  lookahead (ContextParams_new chars i) = drop (Z.to_nat (i + 1)) chars.
Proof. intros Hi. simpl. apply js_slice_suffix. lia. Qed.

Lemma len_take chars (n : nat) :
  (n <= length chars)%nat -> len (take n chars) = Z.of_nat n.
Proof. intros Hn. unfold len. rewrite length_take. lia. Qed.

Lemma len_drop chars (n : nat) :
  len (drop n chars) = Z.of_nat (length chars - n).
Proof. unfold len. rewrite length_drop. reflexivity. Qed.

(** Inside the array, [get(o)] is [context[index + o]]. *)
Lemma get_inside chars i o :
  0 <= i < len chars -> - i <= o <= len chars - 1 - i ->
  get (ContextParams_new chars i) o = slot_of (chars !! Z.to_nat (i + o)).
Proof.
  intros Hi Ho. unfold get.
  rewrite backtrack_new, lookahead_new by lia.
  assert (Hlen : (Z.to_nat i <= length chars)%nat) by (unfold len in Hi; lia).
  rewrite len_take, len_drop by exact Hlen.
  destruct (Z.eqb_spec o 0) as [->|Ho0].
  - simpl. rewrite js_index_lookup by lia. rewrite Z.add_0_r. reflexivity.
  - destruct (Z.ltb_spec o 0) as [Hneg|Hpos]; simpl.
    + destruct (Z.leb_spec (Z.abs o) (Z.of_nat (Z.to_nat i))) as [_|Habs]; [|lia].
      replace o with (- (- o)) at 1 by lia.
      rewrite js_slice_tail by (rewrite len_take by exact Hlen; lia).
      rewrite js_index_lookup by lia.
      rewrite lookup_drop, lookup_take_lt by (rewrite len_take by exact Hlen; lia).
      rewrite len_take by exact Hlen.
      f_equal. f_equal. lia.
    + destruct (Z.ltb_spec 0 o) as [_|]; [|lia].
      destruct (Z.leb_spec o (Z.of_nat (length chars - Z.to_nat (i + 1)))) as [_|Hbig];
        [|unfold len in *; lia].
      simpl. rewrite js_index_lookup by lia.
      rewrite lookup_drop. f_equal. f_equal. lia.
Qed.

(** Outside the array, [get(o)] is [null]. *)
Lemma get_outside chars i o :
  0 <= i < len chars -> ~ (- i <= o <= len chars - 1 - i) ->
  get (ContextParams_new chars i) o = SNull.
Proof.
  intros Hi Ho. unfold get.
  rewrite backtrack_new, lookahead_new by lia.
  assert (Hlen : (Z.to_nat i <= length chars)%nat) by (unfold len in Hi; lia).
  rewrite len_take, len_drop by exact Hlen.
  destruct (Z.eqb_spec o 0) as [->|Ho0]; [lia|].
  destruct (Z.ltb_spec o 0) as [Hneg|Hpos]; simpl.
  - destruct (Z.leb_spec (Z.abs o) (Z.of_nat (Z.to_nat i))) as [Habs|_]; [lia|].
    destruct (Z.ltb_spec 0 o); [lia|reflexivity].
  - destruct (Z.ltb_spec 0 o) as [_|]; [|lia].
    destruct (Z.leb_spec o (Z.of_nat (length chars - Z.to_nat (i + 1)))) as [Hsmall|_];
      [unfold len in *; lia|reflexivity].
Qed.

(** C8. For [0 <= i < len] and an offset [o]: if [-i <= o <= len-1-i]
    then [ContextParams(chars, i).get(o)] is the item [chars[i+o]] (the
    current item at [0], the backtrack below, the lookahead above); for
    every other offset it is the absent value [null]. *)
Theorem get_offset chars i o :
  0 <= i < len chars ->
  (- i <= o <= len chars - 1 - i ->
   exists c, chars !! Z.to_nat (i + o) = Some c /\
             get (ContextParams_new chars i) o = SItem c) /\
  (~ (- i <= o <= len chars - 1 - i) ->
   get (ContextParams_new chars i) o = SNull).
Proof.
  intros Hi. split.
  - intros Ho. rewrite get_inside by assumption.
    destruct (lookup_lt_is_Some_2 chars (Z.to_nat (i + o))) as [c Hc].
    + unfold len in *. lia.
    + exists c. rewrite Hc. auto.
  - apply get_outside. exact Hi.
Qed.
End ContextParamsFacts.

(** The doc comment's example: items 1 2 [3] 4 5, offsets -2 .. 2, and the
    offsets just outside. *)
Lemma get_offset_witness :
  get (ContextParams_new [1; 2; 3; 4; 5] 2) (-2) = SItem 1 /\
  get (ContextParams_new [1; 2; 3; 4; 5] 2) 2 = SItem 5 /\
  get (ContextParams_new [1; 2; 3; 4; 5] 2) 3 = SNull /\
  get (ContextParams_new [1; 2; 3; 4; 5] 2) (-3) = SNull.
Proof.
  assert (Hi : 0 <= 2 < len [1; 2; 3; 4; 5]) by (vm_compute; split; congruence).
  split; [|split; [|split]].
  - destruct (proj1 (get_offset [1; 2; 3; 4; 5] 2 (-2) Hi)) as (c & Hc & Hg).
    + vm_compute. split; congruence.
    + vm_compute in Hc. injection Hc as <-. exact Hg.
  - destruct (proj1 (get_offset [1; 2; 3; 4; 5] 2 2 Hi)) as (c & Hc & Hg).
    + vm_compute. split; congruence.
    + vm_compute in Hc. injection Hc as <-. exact Hg.
  - apply (proj2 (get_offset [1; 2; 3; 4; 5] 2 3 Hi)).
    vm_compute. intros [_ H]. apply H. reflexivity.
  - apply (proj2 (get_offset [1; 2; 3; 4; 5] 2 (-3) Hi)).
    vm_compute. intros [H _]. apply H. reflexivity.
Defined.

(** ** The trace *)

Lemma dispatches_app ev d1 d2 :
  dispatches ev (d1 ++ d2) = (dispatches ev d1 + dispatches ev d2)%nat.
Proof. unfold dispatches. rewrite List.filter_app, length_app. reflexivity. Qed.

Lemma dispatches_none ev d :
  Forall (fun e => is_dispatch_of ev e = false) d -> dispatches ev d = 0%nat.
Proof.
  unfold dispatches. induction 1 as [|e d He _ IH]; simpl; [reflexivity|].
  rewrite He. exact IH.
Qed.

Lemma named_not_dispatch names ev e :
  ev ∉ names -> named names e -> is_dispatch_of ev e = false.
Proof.
  intros Hev Hn. destruct e as [n a|n h a]; simpl; [|reflexivity].
  apply bool_decide_eq_false. intros ->. exact (Hev Hn).
Qed.

Lemma invocation_not_dispatch ev ev' e :
  invocation_of ev e -> is_dispatch_of ev' e = false.
Proof. destruct e; simpl; [intros []|reflexivity]. Qed.

(** ** What an operation leaves alone *)

Lemma framed_refl P t : framed P t t.
Proof.
  split; try reflexivity.
  exists []. rewrite app_nil_r. auto.
Qed.

Lemma framed_trans P t1 t2 t3 :
  framed P t1 t2 -> framed P t2 t3 -> framed P t1 t3.
Proof.
  intros [F1 F2 F3 F4 (d1 & Hd1 & HP1)] [G1 G2 G3 G4 (d2 & Hd2 & HP2)]. split.
  - rewrite G1. apply F1.
  - rewrite G2. apply F2.
  - rewrite G3. apply F3.
  - rewrite G4. apply F4.
  - exists (d1 ++ d2). rewrite Hd2, Hd1, app_assoc. split; [reflexivity|].
    apply Forall_app. auto.
Qed.

Lemma framed_weaken (P Q : TraceEntry -> Prop) t t' :
  (forall e, P e -> Q e) -> framed P t t' -> framed Q t t'.
Proof.
  intros HPQ [H1 H2 H3 H4 (d & Hd & HP)]. split; try assumption.
  exists d. split; [exact Hd|]. eapply Forall_impl; eauto.
Qed.

Lemma frame_id P : frame P (fun t => t).
Proof. intros t. apply framed_refl. Qed.

Lemma frame_weaken (P Q : TraceEntry -> Prop) f :
  (forall e, P e -> Q e) -> frame P f -> frame Q f.
Proof. intros HPQ Hf t. eapply framed_weaken; eauto. Qed.

Lemma frame_compose P f g :
  frame P f -> frame P g -> frame P (fun t => g (f t)).
Proof. intros Hf Hg t. eapply framed_trans; [apply Hf|apply Hg]. Qed.

Lemma frame_fold {X} P (f : Tokenizer -> X -> Tokenizer) (l : list X) :
  (forall x, frame P (fun t => f t x)) -> frame P (fun t => fold_left f l t).
Proof.
  intros Hf. induction l as [|x l IH]; simpl.
  - apply frame_id.
  - apply (frame_compose P (fun t => f t x) (fun t => fold_left f l t)); auto.
Qed.

Lemma frame_for_loop P n (body : Z -> Tokenizer -> Tokenizer) :
  (forall i, frame P (body i)) -> frame P (for_loop n body).
Proof.
  intros Hb. unfold for_loop.
  apply (frame_fold P (fun s i => body (Z.of_nat i) s)). intros i. apply Hb.
Qed.

Lemma framed_log (P : TraceEntry -> Prop) e t : P e -> framed P t (log e t).
Proof.
  intros He. split; try reflexivity.
  exists [e]. split; [reflexivity|]. constructor; [exact He|constructor].
Qed.

Lemma framed_set_registeredContexts P m t :
  framed P t (set_registeredContexts m t).
Proof.
  split; try reflexivity.
  exists []. rewrite app_nil_r. auto.
Qed.

(** Modifiers write the state of a token, never its character. *)
Lemma char_run_modifier id condition modifier p tok :
  char (run_modifier id condition modifier p tok) = char tok.
Proof.
  unfold run_modifier. destruct condition as [c|].
  - destruct (c tok p); [apply char_setState|reflexivity].
  - apply char_setState.
Qed.

Lemma update_last_chars (f : Token -> Token) (l : list Token) :
  (forall a, char (f a) = char a) ->
  map char (update_last f l) = map char l.
Proof.
  intros Hf. unfold update_last.
  destruct (last l) as [a|] eqn:Hl; [|reflexivity].
  apply last_Some in Hl as [l' ->].
  rewrite length_app. simpl.
  replace (length l' + 1 - 1)%nat with (length l') by lia.
  rewrite take_app_length, !map_app. simpl. rewrite Hf. reflexivity.
Qed.

Lemma frame_invoke (P : TraceEntry -> Prop) upd ev args sub :
  frame P upd -> (forall h a, P (Invoked ev h a)) ->
  frame P (fun t => invoke upd ev args t sub).
Proof.
  intros Hupd HP t. destruct sub as [|id condition modifier|h]; simpl.
  - apply Hupd.
  - destruct args; try apply framed_refl.
    split; try reflexivity.
    + simpl. apply update_last_chars. intros a. apply char_run_modifier.
    + exists []. rewrite app_nil_r. auto.
  - apply framed_log. apply HP.
Qed.

Lemma frame_dispatch_with (P : TraceEntry -> Prop) upd ev args :
  frame P upd -> (forall h a, P (Invoked ev h a)) -> P (Dispatched ev args) ->
  frame P (dispatch_with upd ev args).
Proof.
  intros Hupd HP HD t. unfold dispatch_with.
  eapply framed_trans; [apply framed_log, HD|].
  simpl. destruct (events t !! ev) as [e|]; [|apply framed_refl].
  apply (frame_fold P (invoke upd ev args) (subscribers e)).
  intros sub. apply frame_invoke; assumption.
Qed.

Lemma frame_notify ev args : frame (named [ev]) (notify ev args).
Proof.
  apply frame_dispatch_with.
  - apply frame_id.
  - intros h a. unfold named. simpl. apply list_elem_of_here.
  - unfold named. simpl. apply list_elem_of_here.
Qed.

(** ** Context ranges *)

Lemma live_args_plain args t : plain args = true -> live_args args t = args.
Proof. destruct args; simpl; congruence. Qed.

Lemma tokens_dispatch_with upd ev args t :
  plain args = true -> (forall t, tokens (upd t) = tokens t) ->
  tokens (dispatch_with upd ev args t) = tokens t.
Proof.
  intros Hplain Hupd. unfold dispatch_with. simpl.
  destruct (events t !! ev) as [e|]; [|reflexivity].
  change (tokens t) with (tokens (log (Dispatched ev args) t)).
  generalize (log (Dispatched ev args) t). clear t.
  induction (subscribers e) as [|sub subs IH]; intros t; simpl; [reflexivity|].
  rewrite IH. destruct sub as [|id condition modifier|h]; simpl.
  - apply Hupd.
  - destruct args; try reflexivity. discriminate.
  - reflexivity.
Qed.

Lemma tokens_notify ev args t :
  plain args = true -> tokens (notify ev args t) = tokens t.
Proof. intros H. apply tokens_dispatch_with; auto. Qed.

Lemma contexts_notify ev args t :
  registeredContexts (notify ev args t) = registeredContexts t.
Proof.
  unfold notify, dispatch_with. simpl.
  destruct (events t !! ev) as [e|]; [|reflexivity].
  change (registeredContexts t) with (registeredContexts (log (Dispatched ev args) t)).
  generalize (log (Dispatched ev args) t). clear t.
  induction (subscribers e) as [|sub subs IH]; intros t; simpl; [reflexivity|].
  rewrite IH. destruct sub as [|id condition modifier|h]; simpl; try reflexivity.
  destruct args; reflexivity.
Qed.

Lemma checkers_notify ev args t :
  contextCheckers (notify ev args t) = contextCheckers t.
Proof. apply (framed_checkers _ _ _ (frame_notify ev args t)). Qed.

Lemma context_entry_range e : context_entry e -> range_entry e.
Proof.
  unfold context_entry, range_entry, named, rangeEvents.
  intros H.
  change (entry_name e ∈ ["contextStart"; "contextEnd"]%string ++ ["updateContextsRanges"%string]).
  apply elem_of_app. left. exact H.
Qed.

Lemma frame_notify_in names ev args :
  ev ∈ names -> frame (named names) (notify ev args).
Proof.
  intros Hev. apply (frame_weaken (named [ev])); [|apply frame_notify].
  intros e He. unfold named in *.
  apply list_elem_of_singleton in He. rewrite He. exact Hev.
Qed.

(** [notify] records the dispatch, then the handlers it invokes. *)
Lemma notify_trace ev args t :
  exists hs, trace (notify ev args t) = trace t ++ Dispatched ev args :: hs /\
             Forall (invocation_of ev) hs.
Proof.
  unfold notify, dispatch_with. simpl.
  destruct (events t !! ev) as [e|].
  - destruct (framed_trace (invocation_of ev) _ _
                (frame_fold (invocation_of ev) (invoke (fun t => t) ev args) (subscribers e)
                   (fun sub => frame_invoke _ _ ev args sub (frame_id _)
                                 (fun h a => eq_refl))
                   (log (Dispatched ev args) t))) as (hs & Hhs & HP).
    exists hs. rewrite Hhs. simpl. rewrite <- app_assoc. auto.
  - exists []. auto.
Qed.

(** An own property is found whatever its name. *)
Lemma own_js_property {A} (m : gmap string A) (name : string) :
  own (js_property m name) = m !! name.
Proof.
  unfold js_property. destruct (m !! name); [reflexivity|].
  destruct (bool_decide (name ∈ object_prototype)); reflexivity.
Qed.

Lemma js_property_Own {A} (m : gmap string A) (name : string) (a : A) :
  js_property m name = Own a <-> m !! name = Some a.
Proof.
  unfold js_property. destruct (m !! name) as [a'|].
  - split; intros H; injection H as <-; reflexivity.
  - destruct (bool_decide (name ∈ object_prototype)); split; discriminate.
Qed.

Lemma own_getContext name t : own (getContext name t) = registeredContexts t !! name.
Proof. apply own_js_property. Qed.

Lemma getContext_Missing name t :
  getContext name t = Missing <->
  registeredContexts t !! name = None /\ name ∉ object_prototype.
Proof.
  unfold getContext, js_property. destruct (registeredContexts t !! name) as [c|].
  - split; [discriminate|]. intros [H _]. discriminate.
  - destruct (decide (name ∈ object_prototype)) as [Hin|Hnot].
    + rewrite bool_decide_eq_true_2 by exact Hin. split; [discriminate|].
      intros [_ H]. contradiction.
    + rewrite bool_decide_eq_false_2 by exact Hnot. split; auto.
Qed.

Lemma setEndOffset_Some offset name t range t' :
  setEndOffset offset name t = Some (range, t') ->
  exists c o,
    registeredContexts t !! name = Some c /\ openRange c = Some o /\
    range = {| contextName := name; startIndex := startIndex o;
               endOffset := Some offset;
               rangeId := Some (name +:+ "." +:+ pretty (length (ranges c))) |} /\
    t' = set_registeredContexts
           (<[name := with_openRange None (with_ranges (ranges c ++ [range]) c)]>
              (registeredContexts t)) t.
Proof.
  unfold setEndOffset. rewrite own_getContext. intros H.
  destruct (registeredContexts t !! name) as [c|]; [|discriminate]. simpl in H.
  destruct (openRange c) as [o|] eqn:Ho; [|discriminate]. simpl in H.
  injection H as <- <-. exists c, o. auto.
Qed.

Lemma frame_runContextCheck_checker p name :
  frame context_entry (fun t => runContextCheck_checker p t name).
Proof.
  assert (Hs : "contextStart"%string ∈ ["contextStart"; "contextEnd"]%string)
    by (repeat constructor).
  assert (He : "contextEnd"%string ∈ ["contextStart"; "contextEnd"]%string)
    by (repeat constructor).
  intros t. unfold runContextCheck_checker.
  destruct (own (getContext name t)) as [c|]; [|apply framed_refl].
  assert (Hclose : forall t1 r, framed context_entry t t1 ->
            framed context_entry t
              (if checkEnd c p
               then match setEndOffset (index p - startIndex r + 1) name t1 with
                    | Some (range, t2) => notify "contextEnd" (AContextEnd name range) t2
                    | None => t1
                    end
               else t1)).
  { intros t1 r H1. destruct (checkEnd c p); [|exact H1].
    destruct (setEndOffset _ name t1) as [[range t2]|] eqn:Hset; [|exact H1].
    apply setEndOffset_Some in Hset as (c' & o' & _ & _ & _ & ->).
    eapply framed_trans; [exact H1|].
    eapply framed_trans; [apply framed_set_registeredContexts|].
    apply frame_notify_in, He. }
  destruct (openRange c) as [r|].
  - apply Hclose, framed_refl.
  - destruct (checkStart c p); [|apply framed_refl].
    apply Hclose.
    eapply framed_trans; [apply framed_set_registeredContexts|].
    apply frame_notify_in, Hs.
Qed.

Lemma frame_runContextCheck p : frame context_entry (runContextCheck p).
Proof.
  intros t. unfold runContextCheck.
  apply (frame_fold context_entry (runContextCheck_checker p) (contextCheckers t)).
  apply frame_runContextCheck_checker.
Qed.

Lemma kept_refl t : kept t t.
Proof. split; reflexivity. Qed.

Lemma kept_trans t1 t2 t3 : kept t1 t2 -> kept t2 t3 -> kept t1 t3.
Proof.
  intros [F1 F2] [G1 G2]. split.
  - rewrite G1. exact F1.
  - rewrite G2. exact F2.
Qed.

Lemma kept_notify ev args t : plain args = true -> kept t (notify ev args t).
Proof.
  intros Hp. split.
  - apply tokens_notify, Hp.
  - rewrite contexts_notify. reflexivity.
Qed.

Lemma fresh_alter name (g : ContextChecker -> ContextChecker)
    (m : gmap string ContextChecker) :
  (forall c, fresh_checker (g c) = fresh_checker c) ->
  fresh_checker <$> alter g name m = fresh_checker <$> m.
Proof.
  intros Hg. rewrite (fmap_alter _ _ id) by (intros; simpl; apply Hg).
  apply alter_id. reflexivity.
Qed.

Lemma fresh_insert name c c' (m : gmap string ContextChecker) :
  m !! name = Some c -> fresh_checker c' = fresh_checker c ->
  fresh_checker <$> <[name := c']> m = fresh_checker <$> m.
Proof.
  intros Hm Hc. rewrite fmap_insert. apply insert_id.
  rewrite lookup_fmap, Hm. simpl. f_equal. symmetry. exact Hc.
Qed.

Lemma kept_set_openRange name o t : kept t (set_openRange name o t).
Proof.
  split; [reflexivity|]. simpl. apply fresh_alter. reflexivity.
Qed.

Lemma kept_runContextCheck_checker p name t :
  kept t (runContextCheck_checker p t name).
Proof.
  unfold runContextCheck_checker.
  destruct (own (getContext name t)) as [c|]; [|apply kept_refl].
  assert (Hclose : forall t1 r, kept t t1 ->
            kept t
              (if checkEnd c p
               then match setEndOffset (index p - startIndex r + 1) name t1 with
                    | Some (range, t2) => notify "contextEnd" (AContextEnd name range) t2
                    | None => t1
                    end
               else t1)).
  { intros t1 r H1. destruct (checkEnd c p); [|exact H1].
    destruct (setEndOffset _ name t1) as [[range t2]|] eqn:Hset; [|exact H1].
    apply setEndOffset_Some in Hset as (c' & o' & Hc' & _ & _ & ->).
    eapply kept_trans; [exact H1|].
    eapply kept_trans; [|apply kept_notify; reflexivity].
    split; [reflexivity|]. simpl.
    eapply fresh_insert; [exact Hc'|reflexivity]. }
  destruct (openRange c) as [r|].
  - apply Hclose, kept_refl.
  - destruct (checkStart c p); [|apply kept_refl].
    apply Hclose.
    eapply kept_trans; [apply kept_set_openRange|].
    apply kept_notify. reflexivity.
Qed.

Lemma kept_runContextCheck p t : kept t (runContextCheck p t).
Proof.
  unfold runContextCheck. generalize (contextCheckers t) at 1. intros names.
  revert t. induction names as [|name names IH]; intros t; simpl.
  - apply kept_refl.
  - eapply kept_trans; [apply kept_runContextCheck_checker|apply IH].
Qed.

Lemma same_contexts_notify ev args ev' args' t t' :
  same_contexts t t' -> same_contexts (notify ev args t) (notify ev' args' t').
Proof.
  intros [H1 H2]. split.
  - rewrite !contexts_notify. exact H1.
  - rewrite !checkers_notify. exact H2.
Qed.

Lemma same_contexts_set m t t' :
  same_contexts t t' ->
  same_contexts (set_registeredContexts m t) (set_registeredContexts m t').
Proof. intros [H1 H2]. split; [reflexivity|exact H2]. Qed.

(** The ranges a checker computes depend on the checkers alone: not on the
    handlers, not on the trace. *)
Lemma same_contexts_checker p name t t' :
  same_contexts t t' ->
  same_contexts (runContextCheck_checker p t name) (runContextCheck_checker p t' name).
Proof.
  intros Hs. pose proof Hs as [Hrc Hcc].
  unfold runContextCheck_checker. rewrite !own_getContext. rewrite <- Hrc.
  destruct (registeredContexts t !! name) as [c|]; [|exact Hs].
  assert (Hclose : forall t1 t1' r, same_contexts t1 t1' ->
            same_contexts
              (if checkEnd c p
               then match setEndOffset (index p - startIndex r + 1) name t1 with
                    | Some (range, t2) => notify "contextEnd" (AContextEnd name range) t2
                    | None => t1
                    end
               else t1)
              (if checkEnd c p
               then match setEndOffset (index p - startIndex r + 1) name t1' with
                    | Some (range, t2) => notify "contextEnd" (AContextEnd name range) t2
                    | None => t1'
                    end
               else t1')).
  { intros t1 t1' r H1. destruct (checkEnd c p); [|exact H1].
    pose proof H1 as [H1rc H1cc].
    unfold setEndOffset. rewrite !own_getContext. rewrite <- H1rc.
    destruct (registeredContexts t1 !! name) as [c1|]; simpl; [|exact H1].
    destruct (openRange c1) as [o1|]; simpl; [|exact H1].
    apply same_contexts_notify, same_contexts_set, H1. }
  destruct (openRange c) as [r|].
  - apply Hclose, Hs.
  - destruct (checkStart c p); [|exact Hs].
    apply Hclose. apply same_contexts_notify.
    unfold set_openRange. rewrite <- Hrc. apply same_contexts_set, Hs.
Qed.

Lemma same_contexts_runContextCheck p t t' :
  same_contexts t t' -> same_contexts (runContextCheck p t) (runContextCheck p t').
Proof.
  intros Hs. unfold runContextCheck. destruct Hs as [Hrc Hcc]. rewrite <- Hcc.
  assert (Hs : same_contexts t t') by (split; assumption). clear Hrc Hcc.
  generalize (contextCheckers t). intros names. revert t t' Hs.
  induction names as [|name names IH]; intros t t' Hs; simpl; [exact Hs|].
  apply IH, same_contexts_checker, Hs.
Qed.

(** Invariants of a counted loop. *)
Lemma for_loop_ind {S} (Q : S -> Prop) n (body : Z -> S -> S) s :
  (forall i s, Q s -> Q (body i s)) -> Q s -> Q (for_loop n body s).
Proof.
  intros Hb. unfold for_loop. generalize (seq 0 n). intros l. revert s.
  induction l as [|i l IH]; intros s Hs; simpl; [exact Hs|].
  apply IH, Hb, Hs.
Qed.

Lemma for_loop_rel {S S'} (R : S -> S' -> Prop) n
    (body : Z -> S -> S) (body' : Z -> S' -> S') s s' :
  (forall i s s', R s s' -> R (body i s) (body' i s')) ->
  R s s' -> R (for_loop n body s) (for_loop n body' s').
Proof.
  intros Hb. unfold for_loop. generalize (seq 0 n). intros l. revert s s'.
  induction l as [|i l IH]; intros s s' Hs; simpl; [exact Hs|].
  apply IH, Hb, Hs.
Qed.

Lemma same_contexts_scan chars t t' :
  same_contexts t t' -> same_contexts (scan chars t) (scan chars t').
Proof.
  intros Hs. unfold scan. apply for_loop_rel; [|exact Hs].
  intros i s s'. apply same_contexts_runContextCheck.
Qed.

Lemma kept_scan chars t : kept t (scan chars t).
Proof.
  unfold scan. apply (for_loop_ind (kept t)); [|apply kept_refl].
  intros i s Hs. eapply kept_trans; [exact Hs|apply kept_runContextCheck].
Qed.

Lemma frame_scan chars : frame context_entry (scan chars).
Proof.
  unfold scan. apply frame_for_loop. intros i. apply frame_runContextCheck.
Qed.

Lemma updateContextsRanges_scan t :
  updateContextsRanges t =
  let t1 := scan (map char (tokens t)) (resetContextsRanges t) in
  notify "updateContextsRanges" (AUpdateContextsRanges (registeredContexts t1)) t1.
Proof. reflexivity. Qed.

Lemma kept_resetContextsRanges t : kept t (resetContextsRanges t).
Proof.
  split; [reflexivity|]. simpl.
  rewrite <- map_fmap_compose. apply map_fmap_ext. reflexivity.
Qed.

Lemma kept_updateContextsRanges t : kept t (updateContextsRanges t).
Proof.
  rewrite updateContextsRanges_scan. simpl.
  eapply kept_trans; [apply kept_resetContextsRanges|].
  eapply kept_trans; [apply kept_scan|].
  apply kept_notify. reflexivity.
Qed.

Lemma frame_updateContextsRanges : frame range_entry updateContextsRanges.
Proof.
  intros t. rewrite updateContextsRanges_scan. simpl.
  eapply framed_trans; [apply framed_set_registeredContexts|].
  eapply framed_trans.
  - eapply framed_weaken; [apply context_entry_range|apply frame_scan].
  - apply frame_notify_in. repeat constructor.
Qed.

(** One run of [updateContextsRanges] in the trace: the context events of
    the scan, then the one dispatch of [updateContextsRanges] and its
    handlers. *)
Lemma updateContextsRanges_trace t :
  exists d args hs,
    trace (updateContextsRanges t) =
      trace t ++ d ++ Dispatched "updateContextsRanges" args :: hs /\
    Forall context_entry d /\
    Forall (invocation_of "updateContextsRanges") hs.
Proof.
  rewrite updateContextsRanges_scan. simpl.
  destruct (framed_trace _ _ _ (frame_scan (map char (tokens t)) (resetContextsRanges t)))
    as (d & Hd & HP).
  destruct (notify_trace "updateContextsRanges"
              (AUpdateContextsRanges
                 (registeredContexts (scan (map char (tokens t)) (resetContextsRanges t))))
              (scan (map char (tokens t)) (resetContextsRanges t))) as (hs & Hhs & HQ).
  eexists d, _, hs. rewrite Hhs, Hd. simpl. rewrite <- app_assoc. auto.
Qed.

Lemma tokens_updateContextsRanges t : tokens (updateContextsRanges t) = tokens t.
Proof. apply kept_updateContextsRanges. Qed.

Lemma frame_dispatch ev args : frame (dispatch_entry ev) (dispatch ev args).
Proof.
  apply frame_dispatch_with.
  - apply (frame_weaken range_entry); [|apply frame_updateContextsRanges].
    intros e He. right. exact He.
  - intros h a. left. apply list_elem_of_here.
  - left. apply list_elem_of_here.
Qed.

Lemma tokens_dispatch ev args t :
  plain args = true -> tokens (dispatch ev args t) = tokens t.
Proof.
  intros Hp. apply tokens_dispatch_with; [exact Hp|].
  apply tokens_updateContextsRanges.
Qed.

(** ** splice *)

Section SpliceFacts.
Context {A : Type}.
Implicit Types l items : list A.

(** A delete count that is [null], [undefined], [NaN], zero or negative
    deletes nothing. *)
Lemma js_splice_insert l start deleteCount items :
  to_integer deleteCount <= 0 ->
  js_splice l start deleteCount items =
    ([], take (splice_start l start) l ++ items ++ drop (splice_start l start) l).
Proof.
  intros Hdc. unfold js_splice, splice_start.
  pose proof (clamp_index_bounds l (to_integer start)) as Hk.
  set (k := clamp_index l (to_integer start)) in *.
  replace (Z.min (Z.max (to_integer deleteCount) 0) (len l - k)) with 0 by lia.
  rewrite Z.add_0_r. reflexivity.
Qed.

(** A delete count reaching the end deletes everything from the start
    position on. *)
Lemma js_splice_to_end l start deleteCount items :
  len l <= to_integer deleteCount ->
  js_splice l start deleteCount items =
    (drop (splice_start l start) l, take (splice_start l start) l ++ items).
Proof.
  intros Hdc. unfold js_splice, splice_start.
  pose proof (clamp_index_bounds l (to_integer start)) as Hk.
  set (k := clamp_index l (to_integer start)) in *.
  replace (Z.min (Z.max (to_integer deleteCount) 0) (len l - k)) with (len l - k) by lia.
  f_equal.
  - apply take_ge. rewrite length_drop. unfold len. lia.
  - rewrite drop_ge by (unfold len in *; lia). rewrite app_nil_r. reflexivity.
Qed.
End SpliceFacts.

(** ** removeRange with a null offset *)

(** C4. At a [null] offset the source does not remove to the end:
    [isNaN(null)] is false, the offset stays [null], and
    [splice(startIndex, null)] deletes nothing.  For every token vector and
    every start index, [removeRange(start, null)] returns an empty array and
    leaves the token vector as it was. *)
Theorem removeRange_null_offset (t : Tokenizer) (start : JsNum) (silent : bool) :
  fst (removeRange start NNull silent t) = RTokens [] /\
  tokens (snd (removeRange start NNull silent t)) = tokens t.
Proof.
  unfold removeRange. cbv beta iota zeta delta [isNaN to_number negb].
  rewrite js_splice_insert by (unfold to_integer, to_number; lia).
  rewrite app_nil_l, take_drop.
  destruct silent; cbn [negb fst snd].
  - auto.
  - rewrite tokens_dispatch by reflexivity. auto.
Qed.

(** An omitted offset ([undefined]) does remove to the end, and so does the
    [null] offset of the sibling [replaceRange]. *)
Lemma removeRange_undefined_offset (t : Tokenizer) (start : JsNum) (silent : bool) :
  fst (removeRange start NUndefined silent t) =
    RTokens (drop (splice_start (tokens t) start) (tokens t)) /\
  tokens (snd (removeRange start NUndefined silent t)) =
    take (splice_start (tokens t) start) (tokens t).
Proof.
  unfold removeRange. cbv beta iota zeta delta [isNaN to_number negb].
  rewrite js_splice_to_end by (unfold to_integer, to_number; lia).
  rewrite app_nil_r.
  destruct silent; cbn [negb fst snd].
  - auto.
  - rewrite tokens_dispatch by reflexivity. auto.
Qed.

Lemma replaceRange_null_offset (t : Tokenizer) (start : JsNum) (silent : bool) :
  negb (isNaN start) && inboundIndex start t = true ->
  fst (replaceRange start NNull [] silent t) =
    RReplacedRange (drop (splice_start (tokens t) start) (tokens t)) [] /\
  tokens (snd (replaceRange start NNull [] silent t)) =
    take (splice_start (tokens t) start) (tokens t).
Proof.
  intros Hok. unfold replaceRange. cbv beta iota zeta.
  cbn [forallb]. rewrite andb_true_r, Hok.
  rewrite js_splice_to_end by (unfold to_integer, to_number; lia).
  cbn [tokens_of omap]. rewrite app_nil_r.
  destruct silent; cbn [negb fst snd].
  - auto.
  - rewrite tokens_dispatch by reflexivity. auto.
Qed.

(** On the tokens of "abc", [removeRange(1, null)] returns [[]] and the
    three tokens stay; [removeRange(1)] returns the tokens of "bc". *)
Example removeRange_null_abc :
  fst (removeRange (NInt 1) NNull false (tokenizer_of [97; 98; 99])) = RTokens [] /\
  map char (tokens (snd (removeRange (NInt 1) NNull false (tokenizer_of [97; 98; 99]))))
    = [[97]; [98]; [99]] /\
  fst (removeRange (NInt 1) NUndefined false (tokenizer_of [97; 98; 99]))
    = RTokens [Token_new [98]; Token_new [99]] /\
  map char (tokens (snd (removeRange (NInt 1) NUndefined false (tokenizer_of [97; 98; 99]))))
    = [[97]].
Proof. vm_compute. repeat split. Qed.

(** ** insertToken *)

Lemma tokens_of_ETok (l : list Token) : tokens_of (ETok <$> l) = l.
Proof.
  unfold tokens_of. induction l as [|a l IH]; simpl; [reflexivity|].
  f_equal. exact IH.
Qed.

(** C5, with an index out of bounds for the token vector: the call is
    [insertToken([X], 5)] on the one token of "a", and [insertToken([X], -7)]
    on the same.  Neither returns a FAIL record: the token is inserted, at
    the end and at the start. *)
Lemma insertToken_out_of_bounds_succeeds :
  inboundIndex (NInt 5) (tokenizer_of [97]) = false /\
  len (tokens (tokenizer_of [97])) < 5 /\
  hasFAILObject
    (fst (insertToken [ETok (Token_new [88])] (NInt 5) false (tokenizer_of [97]))) = false /\
  fst (insertToken [ETok (Token_new [88])] (NInt 5) false (tokenizer_of [97]))
    = RTokens [Token_new [88]] /\
  map char
    (tokens (snd (insertToken [ETok (Token_new [88])] (NInt 5) false (tokenizer_of [97]))))
    = [[97]; [88]] /\
  hasFAILObject
    (fst (insertToken [ETok (Token_new [88])] (NInt (-7)) false (tokenizer_of [97]))) = false /\
  map char
    (tokens (snd (insertToken [ETok (Token_new [88])] (NInt (-7)) false (tokenizer_of [97]))))
    = [[88]; [97]].
Proof. vm_compute. repeat split. Qed.

(** C5, as the source has it.  [insertToken] checks the tokens and nothing
    else: whatever the index, in bounds or not, a list of Tokens is inserted
    and returned, and the result is not a FAIL record.  The index goes
    through [splice]: beyond the end it inserts at the end, below zero it
    counts from the end and stops at the start. *)
Theorem insertToken_any_index (t : Tokenizer) (toks : list Elem) (i : JsNum)
    (silent : bool) :
  forallb instanceof_Token toks = true ->
  let r := insertToken toks i silent t in
  fst r = RTokens (tokens_of toks) /\
  hasFAILObject (fst r) = false /\
  tokens (snd r) =
    take (splice_start (tokens t) i) (tokens t) ++ tokens_of toks
      ++ drop (splice_start (tokens t) i) (tokens t) /\
  (len (tokens t) <= to_integer i -> tokens (snd r) = tokens t ++ tokens_of toks) /\
  (to_integer i <= - len (tokens t) -> tokens (snd r) = tokens_of toks ++ tokens t).
Proof.
  intros Htok r.
  assert (Hr : fst r = RTokens (tokens_of toks) /\
               tokens (snd r) =
                 take (splice_start (tokens t) i) (tokens t) ++ tokens_of toks
                   ++ drop (splice_start (tokens t) i) (tokens t)).
  { subst r. unfold insertToken. cbv beta zeta. rewrite Htok.
    rewrite js_splice_insert by (unfold to_integer, to_number; lia).
    destruct silent; cbn [negb fst snd].
    - auto.
    - rewrite tokens_dispatch by reflexivity. auto. }
  destruct Hr as [Hr1 Hr2].
  split; [exact Hr1|]. split; [rewrite Hr1; reflexivity|]. split; [exact Hr2|].
  pose proof (len_nonneg (tokens t)) as Hlen.
  split; intros Hi; rewrite Hr2; unfold splice_start, clamp_index.
  - destruct (Z.ltb_spec (to_integer i) 0); [lia|].
    replace (Z.min (to_integer i) (len (tokens t))) with (len (tokens t)) by lia.
    unfold len. rewrite Nat2Z.id, firstn_all, drop_all, app_nil_r. reflexivity.
  - destruct (Z.ltb_spec (to_integer i) 0).
    + replace (Z.max (len (tokens t) + to_integer i) 0) with 0 by lia.
      reflexivity.
    + assert (len (tokens t) = 0) as Hz by lia.
      replace (Z.min (to_integer i) (len (tokens t))) with 0 by lia.
      reflexivity.
Qed.

(** The same two calls, from the theorem. *)
Lemma insertToken_any_index_witness :
  tokens (snd (insertToken [ETok (Token_new [88])] (NInt 5) false (tokenizer_of [97])))
    = tokens (tokenizer_of [97]) ++ [Token_new [88]] /\
  tokens (snd (insertToken [ETok (Token_new [88])] (NInt (-7)) false (tokenizer_of [97])))
    = [Token_new [88]] ++ tokens (tokenizer_of [97]).
Proof.
  split.
  - apply (insertToken_any_index (tokenizer_of [97]) [ETok (Token_new [88])]
             (NInt 5) false eq_refl).
    vm_compute. congruence.
  - apply (insertToken_any_index (tokenizer_of [97]) [ETok (Token_new [88])]
             (NInt (-7)) false eq_refl).
    vm_compute. congruence.
Defined.

(** ** Dispatch of an auto-subscribed event *)

Lemma trace_log_all d t : trace (log_all d t) = trace t ++ d.
Proof.
  unfold log_all. revert t. induction d as [|e d IH]; intros t; simpl.
  - rewrite app_nil_r. reflexivity.
  - rewrite IH. simpl. rewrite <- app_assoc. reflexivity.
Qed.

Lemma kept_log_all d t : kept t (log_all d t).
Proof.
  unfold log_all. revert t. induction d as [|e d IH]; intros t; simpl.
  - apply kept_refl.
  - eapply kept_trans; [|apply IH]. split; reflexivity.
Qed.

Lemma same_contexts_log_all d t : same_contexts (log_all d t) t.
Proof.
  unfold log_all. revert t. induction d as [|e d IH]; intros t; simpl.
  - split; reflexivity.
  - destruct (IH (log e t)) as [H1 H2]. split; [rewrite H1|rewrite H2]; reflexivity.
Qed.

Lemma invocations_are ev args hs : Forall (invocation_of ev) (invocations ev args hs).
Proof.
  unfold invocations. induction hs as [|h hs IH]; simpl; constructor; auto.
  reflexivity.
Qed.

Lemma fold_invoke_handlers upd ev args hs t :
  plain args = true ->
  fold_left (invoke upd ev args) (SubHandler <$> hs) t
  = log_all (invocations ev args hs) t.
Proof.
  intros Hp. revert t. induction hs as [|h hs IH]; intros t; simpl; [reflexivity|].
  rewrite IH, live_args_plain by exact Hp. reflexivity.
Qed.

Lemma only_handlers (l : list Subscriber) :
  forallb (fun s => is_update s || is_handler s) l = true ->
  length (List.filter is_update l) = 0%nat ->
  exists hs, l = SubHandler <$> hs.
Proof.
  induction l as [|s l IH]; simpl; intros Hall Hcount.
  - exists []. reflexivity.
  - apply andb_prop in Hall as [Hs Hall].
    destruct s as [|id condition modifier|h]; simpl in *; try discriminate.
    destruct (IH Hall Hcount) as [hs ->]. exists (h :: hs). reflexivity.
Qed.

(** Callers' handlers before and after the one [updateContextsRanges]. *)
Lemma auto_subscribed_split e :
  auto_subscribed e = true ->
  exists pre post,
    subscribers e = (SubHandler <$> pre) ++ SubUpdateContextsRanges :: (SubHandler <$> post).
Proof.
  unfold auto_subscribed. intros H. apply andb_prop in H as [Hall Hcount].
  apply Nat.eqb_eq in Hcount.
  induction (subscribers e) as [|s l IH]; simpl in *; [discriminate|].
  apply andb_prop in Hall as [Hs Hall].
  destruct s as [|id condition modifier|h]; simpl in *; try discriminate.
  - injection Hcount as Hcount.
    destruct (only_handlers l Hall Hcount) as [post ->].
    exists [], post. reflexivity.
  - destruct (IH Hall Hcount) as (pre & post & ->).
    exists (h :: pre), post. reflexivity.
Qed.

(** [dispatch] of an auto-subscribed event: the handlers subscribed before
    the tokenizer's own, one [updateContextsRanges], the handlers
    subscribed after. *)
Lemma dispatch_auto_subscribed ev args t e :
  events t !! ev = Some e -> auto_subscribed e = true -> plain args = true ->
  exists pre post,
    dispatch ev args t =
      log_all (invocations ev args post)
        (updateContextsRanges
           (log_all (Dispatched ev args :: invocations ev args pre) t)).
Proof.
  intros He Hauto Hp.
  destruct (auto_subscribed_split e Hauto) as (pre & post & Hsubs).
  exists pre, post. unfold dispatch, dispatch_with. simpl. rewrite He, Hsubs.
  rewrite fold_left_app. simpl.
  rewrite !fold_invoke_handlers by exact Hp. reflexivity.
Qed.

Lemma well_formed_event t ev :
  well_formed t = true -> ev ∈ requiresContextUpdate ->
  exists e, events t !! ev = Some e /\ auto_subscribed e = true.
Proof.
  unfold well_formed. intros H Hev. apply andb_prop in H as [H _].
  rewrite forallb_forall in H. apply list_elem_of_In in Hev.
  specialize (H ev Hev).
  destruct (events t !! ev) as [e|]; [|discriminate]. eauto.
Qed.

Lemma dispatches_cons ev e d :
  dispatches ev (e :: d) =
  ((if is_dispatch_of ev e then 1 else 0) + dispatches ev d)%nat.
Proof. unfold dispatches. simpl. destruct (is_dispatch_of ev e); reflexivity. Qed.

Lemma dispatches_invocations ev ev' d :
  Forall (invocation_of ev') d -> dispatches ev d = 0%nat.
Proof.
  intros Hd. apply dispatches_none.
  eapply Forall_impl; [exact Hd|]. intros x Hx.
  eapply invocation_not_dispatch, Hx.
Qed.

Lemma dispatches_named ev names d :
  ev ∉ names -> Forall (named names) d -> dispatches ev d = 0%nat.
Proof.
  intros Hev Hd. apply dispatches_none.
  eapply Forall_impl; [exact Hd|]. intros x Hx.
  eapply named_not_dispatch; eauto.
Qed.

Lemma invocation_named ev e : invocation_of ev e -> named [ev] e.
Proof.
  destruct e as [n a|n h a]; simpl; [intros []|].
  intros ->. apply list_elem_of_here.
Qed.

Lemma dispatch_trace_auto ev args t e :
  events t !! ev = Some e -> auto_subscribed e = true -> plain args = true ->
  ev ∉ rangeEvents ->
  exists d, trace (dispatch ev args t) = trace t ++ d /\ one_update ev args d.
Proof.
  intros He Hauto Hp Hev.
  destruct (dispatch_auto_subscribed ev args t e He Hauto Hp) as (pre & post & Hd).
  rewrite Hd. rewrite trace_log_all.
  destruct (updateContextsRanges_trace
              (log_all (Dispatched ev args :: invocations ev args pre) t))
    as (d & a & hs & Htr & Hctx & Hhs).
  rewrite Htr, trace_log_all.
  exists (Dispatched ev args ::
          invocations ev args pre
          ++ (d ++ Dispatched "updateContextsRanges" a :: hs)
          ++ invocations ev args post).
  split; [simpl; rewrite <- !app_assoc; reflexivity|].
  assert (Hu : "updateContextsRanges"%string ∉ ["contextStart"; "contextEnd"]%string).
  { intros Hin. repeat (apply elem_of_cons in Hin as [Hin|Hin]; [discriminate|]).
    inversion Hin. }
  assert (Hc : ev ∉ ["contextStart"; "contextEnd"]%string).
  { intros Hin. apply Hev.
    change (ev ∈ ["contextStart"; "contextEnd"]%string ++ ["updateContextsRanges"%string]).
    apply elem_of_app. left. exact Hin. }
  assert (Hne : ev <> "updateContextsRanges"%string).
  { intros ->. apply Hev. repeat constructor. }
  split.
  - eexists. reflexivity.
  - rewrite dispatches_cons, !dispatches_app, dispatches_cons.
    rewrite (dispatches_invocations _ ev (invocations ev args pre)) by apply invocations_are.
    rewrite (dispatches_invocations _ ev (invocations ev args post)) by apply invocations_are.
    rewrite (dispatches_invocations _ _ hs Hhs).
    rewrite (dispatches_named _ _ d Hu Hctx).
    simpl. rewrite bool_decide_eq_false_2 by exact Hne. reflexivity.
  - rewrite dispatches_cons, !dispatches_app, dispatches_cons.
    rewrite (dispatches_invocations _ ev (invocations ev args pre)) by apply invocations_are.
    rewrite (dispatches_invocations _ ev (invocations ev args post)) by apply invocations_are.
    rewrite (dispatches_invocations _ _ hs Hhs).
    rewrite (dispatches_named _ _ d Hc Hctx).
    simpl. rewrite bool_decide_eq_true_2 by reflexivity.
    rewrite bool_decide_eq_false_2 by (intros Heq; apply Hne; symmetry; exact Heq).
    reflexivity.
  - constructor; [left; apply list_elem_of_here|].
    rewrite !Forall_app. repeat split.
    + eapply Forall_impl; [apply invocations_are|].
      intros x Hx. left. apply invocation_named, Hx.
    + eapply Forall_impl; [exact Hctx|].
      intros x Hx. right. apply context_entry_range, Hx.
    + constructor.
      * right. unfold range_entry, named. simpl. repeat constructor.
      * eapply Forall_impl; [exact Hhs|].
        intros x Hx. right. apply invocation_named in Hx.
        unfold range_entry, named in *. apply list_elem_of_singleton in Hx.
        rewrite Hx. repeat constructor.
    + eapply Forall_impl; [apply invocations_are|].
      intros x Hx. left. apply invocation_named, Hx.
Qed.

(** After an auto-subscribed dispatch the checkers are those
    [updateContextsRanges] computes, whatever the handlers. *)
Lemma dispatch_contexts_auto ev args t e :
  events t !! ev = Some e -> auto_subscribed e = true -> plain args = true ->
  same_contexts (dispatch ev args t)
    (scan (map char (tokens t)) (resetContextsRanges t)).
Proof.
  intros He Hauto Hp.
  destruct (dispatch_auto_subscribed ev args t e He Hauto Hp) as (pre & post & Hd).
  rewrite Hd.
  set (t1 := log_all (Dispatched ev args :: invocations ev args pre) t).
  assert (Hs1 : same_contexts t1 t) by apply same_contexts_log_all.
  assert (Htok : tokens t1 = tokens t) by apply kept_log_all.
  destruct (same_contexts_log_all (invocations ev args post) (updateContextsRanges t1))
    as [H1 H2].
  split; [rewrite H1|rewrite H2]; rewrite updateContextsRanges_scan; simpl.
  - rewrite contexts_notify, Htok.
    apply same_contexts_scan. destruct Hs1 as [Hrc Hcc].
    split; simpl; [rewrite Hrc; reflexivity|exact Hcc].
  - rewrite checkers_notify, Htok.
    apply same_contexts_scan. destruct Hs1 as [Hrc Hcc].
    split; simpl; [rewrite Hrc; reflexivity|exact Hcc].
Qed.

(** ** replaceRange dispatches replaceToken *)

Lemma contexts_updateContextsRanges t :
  registeredContexts (updateContextsRanges t)
  = registeredContexts (scan (map char (tokens t)) (resetContextsRanges t)).
Proof. rewrite updateContextsRanges_scan. simpl. apply contexts_notify. Qed.

Lemma dispatch_entry_not ev ev' e :
  ev' <> ev -> ev' ∉ rangeEvents -> dispatch_entry ev e -> entry_name e <> ev'.
Proof.
  intros Hne Hev' [He|He] Heq; unfold range_entry, named in He; rewrite Heq in He.
  - apply list_elem_of_singleton in He. contradiction.
  - contradiction.
Qed.

Lemma mutating_not_range ev : ev ∈ requiresContextUpdate -> ev ∉ rangeEvents.
Proof.
  unfold requiresContextUpdate, rangeEvents. intros H Hr.
  repeat (apply elem_of_cons in H as [->|H];
          [repeat (apply elem_of_cons in Hr as [Hr|Hr]; [discriminate|]);
           inversion Hr|]).
  inversion H.
Qed.

(** C9. A non-silent [replaceRange(startIndex, offset, tokens)] with valid
    arguments dispatches the event [replaceToken], with the arguments
    [startIndex, offset, tokens] (the offset after its default), once; no
    entry of the trace it adds belongs to the event [replaceRange], neither
    a dispatch nor the invocation of a handler subscribed to it; and the
    checkers afterwards are those of one [updateContextsRanges] run on the
    edited token vector. *)
Theorem replaceRange_dispatches_replaceToken (t : Tokenizer)
    (start offset : JsNum) (toks : list Elem) :
  well_formed t = true ->
  negb (isNaN start) && inboundIndex start t && forallb instanceof_Token toks = true ->
  let offset' := match offset with NNull => NInt (len (tokens t)) | _ => offset end in
  let edited := set_tokens (snd (js_splice (tokens t) start offset' (tokens_of toks))) t in
  let t' := snd (replaceRange start offset toks false t) in
  exists d,
    trace t' = trace t ++ d /\
    one_update "replaceToken" (AReplaceRange start offset' (tokens_of toks)) d /\
    Forall (fun e => entry_name e <> "replaceRange"%string) d /\
    dispatches "replaceRange" d = 0%nat /\
    registeredContexts t' = registeredContexts (updateContextsRanges edited).
Proof.
  intros Hwf Hok offset' edited t'.
  assert (Hin : "replaceToken"%string ∈ requiresContextUpdate) by (repeat constructor).
  destruct (well_formed_event edited "replaceToken" Hwf Hin) as (e & He & Hauto).
  assert (Ht' : t' = dispatch "replaceToken"
                       (AReplaceRange start offset' (tokens_of toks)) edited).
  { subst t' edited offset'. unfold replaceRange. cbv beta zeta. rewrite Hok.
    destruct (js_splice (tokens t) start _ (tokens_of toks)) as [replaced rest].
    reflexivity. }
  destruct (dispatch_trace_auto "replaceToken"
              (AReplaceRange start offset' (tokens_of toks)) edited e He Hauto eq_refl
              (mutating_not_range _ Hin)) as (d & Hd & Hone).
  exists d. rewrite Ht'. split; [exact Hd|]. split; [exact Hone|].
  assert (Hnames : Forall (fun e => entry_name e <> "replaceRange"%string) d).
  { eapply Forall_impl; [apply Hone|]. intros x.
    apply dispatch_entry_not; [discriminate|].
    apply mutating_not_range. repeat constructor. }
  split; [exact Hnames|]. split.
  - apply dispatches_none. eapply Forall_impl; [exact Hnames|].
    intros [n a|n h a] Hx; simpl in *; [|reflexivity].
    apply bool_decide_eq_false. exact Hx.
  - rewrite contexts_updateContextsRanges.
    apply (dispatch_contexts_auto "replaceToken"
             (AReplaceRange start offset' (tokens_of toks)) edited e He Hauto eq_refl).
Qed.

Lemma replaceRange_dispatches_replaceToken_witness :
  exists d,
    trace (snd (replaceRange (NInt 0) (NInt 1) [ETok (Token_new [88])] false
                  listening_tokenizer))
    = trace listening_tokenizer ++ d /\
    one_update "replaceToken" (AReplaceRange (NInt 0) (NInt 1) [Token_new [88]]) d /\
    Forall (fun e => entry_name e <> "replaceRange"%string) d.
Proof.
  destruct (replaceRange_dispatches_replaceToken listening_tokenizer
              (NInt 0) (NInt 1) [ETok (Token_new [88])] eq_refl eq_refl)
    as (d & Hd & Hone & Hnames & _).
  exists d. auto.
Defined.

Example replaceRange_listening_trace :
  drop (length (trace listening_tokenizer))
    (trace (snd (replaceRange (NInt 0) (NInt 1) [ETok (Token_new [88])] false
                   listening_tokenizer)))
  = [Dispatched "replaceToken" (AReplaceRange (NInt 0) (NInt 1) [Token_new [88]]);
     Dispatched "updateContextsRanges" (AUpdateContextsRanges ∅);
     Invoked "replaceToken" 8 (AReplaceRange (NInt 0) (NInt 1) [Token_new [88]])].
Proof. vm_compute. reflexivity. Qed.

(** ** composeRUD *)

Lemma set_tokens_same t : set_tokens (tokens t) t = t.
Proof. destruct t. reflexivity. Qed.

(** An edit called in silent mode changes the token vector and nothing
    else: no dispatch, no range computation. *)
Lemma call_edit_silent c t :
  exists l, snd (call_edit true c t) = set_tokens l t.
Proof.
  destruct c as [s o toks|i tok|s o|i|toks i]; cbn [call_edit].
  - unfold replaceRange. cbv beta zeta.
    destruct (negb (isNaN s) && inboundIndex s t && forallb instanceof_Token toks).
    + destruct_splice replaced rest.
      exists rest. reflexivity.
    + exists (tokens t). symmetry. apply set_tokens_same.
  - unfold replaceToken. destruct tok as [tok|v].
    + destruct (negb (isNaN i) && inboundIndex i t).
      * destruct_splice replaced rest.
        exists rest. reflexivity.
      * exists (tokens t). symmetry. apply set_tokens_same.
    + exists (tokens t). symmetry. apply set_tokens_same.
  - unfold removeRange. cbv beta zeta.
    destruct_splice removed rest.
    exists rest. reflexivity.
  - unfold removeToken.
    destruct (negb (isNaN i) && inboundIndex i t).
    + destruct_splice removed rest.
      exists rest. reflexivity.
    + exists (tokens t). symmetry. apply set_tokens_same.
  - unfold insertToken. cbv beta zeta.
    destruct (forallb instanceof_Token toks).
    + eexists. reflexivity.
    + exists (tokens t). symmetry. apply set_tokens_same.
Qed.

(** An edit that returns a FAIL record has changed nothing. *)
Lemma call_edit_fail silent c t :
  hasFAILObject (fst (call_edit silent c t)) = true -> snd (call_edit silent c t) = t.
Proof.
  destruct c as [s o toks|i tok|s o|i|toks i]; cbn [call_edit].
  - unfold replaceRange. cbv beta zeta.
    destruct (negb (isNaN s) && inboundIndex s t && forallb instanceof_Token toks).
    + destruct_splice replaced rest.
      simpl. discriminate.
    + reflexivity.
  - unfold replaceToken. destruct tok as [tok|v]; [|reflexivity].
    destruct (negb (isNaN i) && inboundIndex i t); [|reflexivity].
    destruct_splice replaced rest.
    simpl. discriminate.
  - unfold removeRange. cbv beta zeta.
    destruct_splice removed rest. simpl. discriminate.
  - unfold removeToken.
    destruct (negb (isNaN i) && inboundIndex i t); [|reflexivity].
    destruct_splice removed rest.
    simpl. discriminate.
  - unfold insertToken. cbv beta zeta.
    destruct (forallb instanceof_Token toks); [simpl; discriminate|reflexivity].
Qed.

(** The edits return; they do not throw when their arguments are of the
    kinds of their parameters. *)
Lemma call_edit_returns silent c t msg : fst (call_edit silent c t) <> RThrown msg.
Proof.
  destruct c as [s o toks|i tok|s o|i|toks i]; cbn [call_edit].
  - unfold replaceRange. cbv beta zeta.
    destruct (negb (isNaN s) && inboundIndex s t && forallb instanceof_Token toks);
      [destruct_splice replaced rest|]; discriminate.
  - unfold replaceToken. destruct tok as [tok|v]; [|discriminate].
    destruct (negb (isNaN i) && inboundIndex i t);
      [destruct_splice replaced rest|]; discriminate.
  - unfold removeRange. cbv beta zeta.
    destruct_splice removed rest. discriminate.
  - unfold removeToken.
    destruct (negb (isNaN i) && inboundIndex i t);
      [destruct_splice removed rest|]; discriminate.
  - unfold insertToken. cbv beta zeta.
    destruct (forallb instanceof_Token toks); discriminate.
Qed.

(** An entry of [composeRUD] either throws before anything is done or is
    a call of an edit, silent or not. *)
Lemma apply_RUD_cases silent r t :
  (exists msg, apply_RUD silent r t = (RThrown msg, t)) \/
  (exists silent' c, apply_RUD silent r t = call_edit silent' c t).
Proof.
  destruct r as [ |s|s o|s o toks|s o toks v| |i|i tok|i tok v| |s|s o|s o v
                 | |i|i v| |toks|toks i|toks i v];
    cbn [apply_RUD]; try (left; eexists; reflexivity); right.
  - exists silent, (Direct_replaceRange s o toks). reflexivity.
  - exists (truthy v), (Direct_replaceRange s o toks). reflexivity.
  - exists false, (Direct_replaceToken (NBool silent) (EOther VUndefined)). reflexivity.
  - exists false, (Direct_replaceToken i (EOther (VBool silent))). reflexivity.
  - exists silent, (Direct_replaceToken i tok). reflexivity.
  - exists (truthy v), (Direct_replaceToken i tok). reflexivity.
  - exists false, (Direct_removeRange (NBool silent) NUndefined). reflexivity.
  - exists false, (Direct_removeRange s (NBool silent)). reflexivity.
  - exists silent, (Direct_removeRange s o). reflexivity.
  - exists (truthy v), (Direct_removeRange s o). reflexivity.
  - exists false, (Direct_removeToken (NBool silent)). reflexivity.
  - exists silent, (Direct_removeToken i). reflexivity.
  - exists (truthy v), (Direct_removeToken i). reflexivity.
  - exists false, (Direct_insertToken toks (NBool silent)). reflexivity.
  - exists silent, (Direct_insertToken toks i). reflexivity.
  - exists (truthy v), (Direct_insertToken toks i). reflexivity.
Qed.

Lemma map_RUDs_cons silent r RUDs t :
  map_RUDs silent (r :: RUDs) t =
  match fst (apply_RUD silent r t) with
  | RThrown msg => (inr msg, snd (apply_RUD silent r t))
  | res =>
      match fst (map_RUDs silent RUDs (snd (apply_RUD silent r t))) with
      | inl ress => (inl (res :: ress), snd (map_RUDs silent RUDs (snd (apply_RUD silent r t))))
      | inr msg => (inr msg, snd (map_RUDs silent RUDs (snd (apply_RUD silent r t))))
      end
  end.
Proof.
  cbn [map_RUDs]. destruct (apply_RUD silent r t) as [res t1]. cbn [fst snd].
  destruct res; try reflexivity;
    destruct (map_RUDs silent RUDs t1) as [[ress|msg'] t2]; reflexivity.
Qed.

(** An edit stores a token vector and, unless it is silent or fails,
    dispatches one event. *)
Lemma call_edit_shape silent c t :
  exists l, snd (call_edit silent c t) = set_tokens l t \/
            exists ev args, snd (call_edit silent c t) = dispatch ev args (set_tokens l t).
Proof.
  assert (Hd : forall ev args l,
            exists l', (if negb silent then dispatch ev args (set_tokens l t)
                        else set_tokens l t) = set_tokens l' t \/
                       exists ev' args',
                         (if negb silent then dispatch ev args (set_tokens l t)
                          else set_tokens l t) = dispatch ev' args' (set_tokens l' t)).
  { intros ev args l. exists l. destruct silent; cbn [negb]; [left; reflexivity|].
    right. exists ev, args. reflexivity. }
  assert (Hsame : exists l, t = set_tokens l t \/
                            exists ev args, t = dispatch ev args (set_tokens l t)).
  { exists (tokens t). left. symmetry. apply set_tokens_same. }
  destruct c as [s o toks|i tok|s o|i|toks i]; cbn [call_edit].
  - unfold replaceRange. cbv beta zeta.
    destruct (negb (isNaN s) && inboundIndex s t && forallb instanceof_Token toks);
      [|exact Hsame].
    destruct_splice replaced rest. apply Hd.
  - unfold replaceToken. destruct tok as [tok|v]; [|exact Hsame].
    destruct (negb (isNaN i) && inboundIndex i t); [|exact Hsame].
    destruct_splice replaced rest. apply Hd.
  - unfold removeRange. cbv beta zeta. destruct_splice removed rest. apply Hd.
  - unfold removeToken.
    destruct (negb (isNaN i) && inboundIndex i t); [|exact Hsame].
    destruct_splice removed rest. apply Hd.
  - unfold insertToken. cbv beta zeta.
    destruct (forallb instanceof_Token toks); [|exact Hsame]. apply Hd.
Qed.

(** What storing a token vector and dispatching an event keep, the edits
    and [composeRUD] keep, whatever the entries. *)
Section EditsKeep.
Variable R : Tokenizer -> Tokenizer -> Prop.
Hypothesis R_refl : forall t, R t t.
Hypothesis R_trans : forall t1 t2 t3, R t1 t2 -> R t2 t3 -> R t1 t3.
Hypothesis R_set_tokens : forall l t, R t (set_tokens l t).
Hypothesis R_dispatch : forall ev args t, R t (dispatch ev args t).

Lemma call_edit_keeps silent c t : R t (snd (call_edit silent c t)).
Proof.
  destruct (call_edit_shape silent c t) as [l [->|(ev & args & ->)]];
    [apply R_set_tokens|].
  eapply R_trans; [apply (R_set_tokens l)|apply R_dispatch].
Qed.

Lemma apply_RUD_keeps silent r t : R t (snd (apply_RUD silent r t)).
Proof.
  destruct (apply_RUD_cases silent r t) as [[msg ->]|(silent' & c & ->)];
    [apply R_refl|apply call_edit_keeps].
Qed.

Lemma map_RUDs_keeps silent RUDs t : R t (snd (map_RUDs silent RUDs t)).
Proof.
  revert t. induction RUDs as [|r RUDs IH]; intros t; [apply R_refl|].
  rewrite map_RUDs_cons.
  assert (H1 : R t (snd (apply_RUD silent r t))) by apply apply_RUD_keeps.
  assert (H2 : R t (snd (map_RUDs silent RUDs (snd (apply_RUD silent r t))))).
  { eapply R_trans; [exact H1|apply IH]. }
  destruct (fst (apply_RUD silent r t)); try exact H1;
    destruct (fst (map_RUDs silent RUDs (snd (apply_RUD silent r t)))); exact H2.
Qed.

Lemma composeRUD_keeps RUDs t : R t (snd (composeRUD RUDs t)).
Proof.
  unfold composeRUD. cbv zeta.
  pose proof (map_RUDs_keeps true RUDs t) as H.
  destruct (map_RUDs true RUDs t) as [[state|msg] batch]; cbn [snd] in *; [|exact H].
  destruct (forallb hasFAILObject state); cbn [snd]; [exact H|].
  eapply R_trans; [exact H|apply R_dispatch].
Qed.

Lemma run_edit_keeps e t : R t (snd (run_edit e t)).
Proof. destruct e as [c|calls]; [apply call_edit_keeps|apply composeRUD_keeps]. Qed.
End EditsKeep.

(** The entry that holds the arguments of a call is that call, with the
    [silent] of [composeRUD]. *)
Lemma apply_RUD_entry_of silent c t :
  apply_RUD silent (entry_of c) t = call_edit silent c t.
Proof. destruct c; reflexivity. Qed.

(** On entries that hold the arguments of calls, the map is the sequence
    of those calls made in silent mode. *)
Lemma map_RUDs_entries calls t :
  map_RUDs true (entry_of <$> calls) t
  = (inl (fst (silent_calls calls t)), snd (silent_calls calls t)).
Proof.
  revert t. induction calls as [|c calls IH]; intros t; [reflexivity|].
  rewrite fmap_cons, map_RUDs_cons, apply_RUD_entry_of. cbn [silent_calls].
  pose proof (call_edit_returns true c t) as Hret.
  destruct (call_edit true c t) as [res t1]. cbn [fst snd] in *.
  rewrite IH. cbn [fst snd].
  destruct (silent_calls calls t1) as [ress t2]. cbn [fst snd].
  destruct res; try reflexivity. exfalso. apply (Hret msg). reflexivity.
Qed.

Lemma silent_calls_silent calls t :
  exists l, snd (silent_calls calls t) = set_tokens l t.
Proof.
  revert t. induction calls as [|c calls IH]; intros t; simpl.
  - exists (tokens t). symmetry. apply set_tokens_same.
  - destruct (call_edit_silent c t) as [l1 Hl1].
    destruct (call_edit true c t) as [res t1]. simpl in Hl1. subst t1.
    destruct (IH (set_tokens l1 t)) as [l2 Hl2].
    destruct (silent_calls calls (set_tokens l1 t)) as [ress t2]. simpl in *.
    exists l2. exact Hl2.
Qed.

(** When every call failed the tokenizer is untouched. *)
Lemma silent_calls_all_fail calls t :
  forallb hasFAILObject (fst (silent_calls calls t)) = true ->
  snd (silent_calls calls t) = t.
Proof.
  revert t. induction calls as [|c calls IH]; intros t; simpl; [reflexivity|].
  pose proof (call_edit_fail true c t) as Hf.
  destruct (call_edit true c t) as [res t1].
  specialize (IH t1). destruct (silent_calls calls t1) as [ress t2].
  simpl in *. intros H. apply andb_prop in H as [H1 H2].
  rewrite (IH H2). apply Hf, H1.
Qed.

Lemma filter_all {A} (f : A -> bool) (l : list A) :
  forallb f l = true -> List.filter f l = l.
Proof.
  induction l as [|a l IH]; simpl; [reflexivity|].
  intros H. apply andb_prop in H as [Ha Hl]. rewrite Ha, (IH Hl). reflexivity.
Qed.

Lemma composeRUD_entries calls t :
  composeRUD (entry_of <$> calls) t
  = if forallb hasFAILObject (fst (silent_calls calls t))
    then (RFailReport "composeRUD: one or more operations hasn't completed successfully"
            (List.filter hasFAILObject (fst (silent_calls calls t))),
          snd (silent_calls calls t))
    else (RUndefined,
          dispatch "composeRUD"
            (AComposeRUD (List.filter (fun op => negb (hasFAILObject op))
                            (fst (silent_calls calls t))))
            (snd (silent_calls calls t))).
Proof. unfold composeRUD. rewrite map_RUDs_entries. reflexivity. Qed.

(** C3, as the source has it.  Let every entry handed to [composeRUD] hold
    the arguments its edit has before [silent], all of them and no more.
    Then each sub-operation runs in silent mode: the batch is the sequence
    of the edits called with [silent = true], it adds nothing to the trace
    and leaves the checkers alone.  [composeRUD] returns a FAIL record if
    and only if every sub-operation returned one; the record carries the
    report of the operations, and nothing is dispatched nor changed.
    Otherwise the token vector is the one the calls left, and the trace
    grows by exactly one dispatch of [composeRUD], carrying the results
    that are not FAIL records, and exactly one [updateContextsRanges]. *)
Theorem composeRUD_aggregates (t : Tokenizer) (calls : list EditCall) :
  well_formed t = true ->
  let state := fst (silent_calls calls t) in
  let batch := snd (silent_calls calls t) in
  let r := composeRUD (entry_of <$> calls) t in
  (trace batch = trace t /\ registeredContexts batch = registeredContexts t) /\
  (hasFAILObject (fst r) = true <-> forallb hasFAILObject state = true) /\
  (forallb hasFAILObject state = true ->
   fst r = RFailReport "composeRUD: one or more operations hasn't completed successfully"
             state /\
   snd r = t) /\
  (forallb hasFAILObject state = false ->
   fst r = RUndefined /\
   tokens (snd r) = tokens batch /\
   exists d,
     trace (snd r) = trace t ++ d /\
     one_update "composeRUD"
       (AComposeRUD (List.filter (fun op => negb (hasFAILObject op)) state)) d /\
     Forall (fun op => hasFAILObject op = false)
       (List.filter (fun op => negb (hasFAILObject op)) state)).
Proof.
  intros Hwf state batch r.
  destruct (silent_calls_silent calls t) as [l Hl]. fold batch in Hl.
  assert (Hr : r = if forallb hasFAILObject state
                   then (RFailReport
                           "composeRUD: one or more operations hasn't completed successfully"
                           (List.filter hasFAILObject state), batch)
                   else (RUndefined,
                         dispatch "composeRUD"
                           (AComposeRUD
                              (List.filter (fun op => negb (hasFAILObject op)) state))
                           batch)).
  { subst r state batch. apply composeRUD_entries. }
  split; [rewrite Hl; split; reflexivity|].
  split.
  { rewrite Hr. destruct (forallb hasFAILObject state); simpl; split; congruence. }
  split.
  - intros Hall. rewrite Hr, Hall. simpl. split.
    + rewrite filter_all by exact Hall. reflexivity.
    + apply silent_calls_all_fail. exact Hall.
  - intros Hsome. rewrite Hr, Hsome. simpl.
    split; [reflexivity|]. split; [apply tokens_dispatch; reflexivity|].
    assert (Hin : "composeRUD"%string ∈ requiresContextUpdate) by (repeat constructor).
    assert (Hwfb : well_formed batch = true) by (rewrite Hl; exact Hwf).
    destruct (well_formed_event batch "composeRUD" Hwfb Hin) as (e & He & Hauto).
    destruct (dispatch_trace_auto "composeRUD"
                (AComposeRUD (List.filter (fun op => negb (hasFAILObject op)) state))
                batch e He Hauto eq_refl (mutating_not_range _ Hin)) as (d & Hd & Hone).
    exists d. split; [rewrite Hd, Hl; reflexivity|]. split; [exact Hone|].
    apply Forall_forall. intros op Hop.
    apply list_elem_of_In, filter_In in Hop as [_ Hop].
    apply negb_true_iff in Hop. exact Hop.
Qed.

(** The scenario of the design: on three tokens,
    [composeRUD([["removeToken", 0], ["insertToken", [X], 0]])], with a
    third call that fails. *)
Lemma composeRUD_aggregates_witness :
  fst (composeRUD [RUD_removeToken (NInt 0);
                   RUD_insertToken [ETok (Token_new [88])] (NInt 0);
                   RUD_removeToken (NInt 9)] (tokenizer_of [97; 98; 99]))
  = RUndefined /\
  map char (tokens (snd (composeRUD [RUD_removeToken (NInt 0);
                                     RUD_insertToken [ETok (Token_new [88])] (NInt 0);
                                     RUD_removeToken (NInt 9)]
                           (tokenizer_of [97; 98; 99]))))
  = [[88]; [98]; [99]] /\
  exists d,
    trace (snd (composeRUD [RUD_removeToken (NInt 0);
                            RUD_insertToken [ETok (Token_new [88])] (NInt 0);
                            RUD_removeToken (NInt 9)] (tokenizer_of [97; 98; 99])))
    = trace (tokenizer_of [97; 98; 99]) ++ d /\
    one_update "composeRUD"
      (AComposeRUD [RTokens [Token_new [97]]; RTokens [Token_new [88]]]) d.
Proof.
  destruct (composeRUD_aggregates (tokenizer_of [97; 98; 99])
              [Direct_removeToken (NInt 0);
               Direct_insertToken [ETok (Token_new [88])] (NInt 0);
               Direct_removeToken (NInt 9)] eq_refl) as (_ & _ & _ & H).
  destruct (H eq_refl) as (Hr & Htok & d & Hd & Hone & _).
  split; [exact Hr|].
  split; [exact (eq_trans (f_equal (map char) Htok) eq_refl)|].
  exists d. split; [exact Hd|exact Hone].
Defined.

(** C3, two batches the sentence does not hold of.

    On the tokens of "abc", [composeRUD([["removeRange", 1]])] calls
    [removeRange(1, true)]: the [true] of [composeRUD] is the offset and
    [silent] is [undefined].  The sub-operation is not silent: the event
    [removeRange] is dispatched for the one token removed, and the batch
    has two [updateContextsRanges], not one.

    [composeRUD([["removeToken", 0], ["replaceRange", 0, 1]])] removes the
    first token and then throws, [replaceRange] having no token array: a
    sub-operation has taken effect and no [composeRUD] event is
    dispatched, nor any [updateContextsRanges]. *)
Lemma composeRUD_short_entry :
  (fst (composeRUD [RUD_removeRange1 (NInt 1)] (tokenizer_of [97; 98; 99])) = RUndefined /\
   map char (tokens (snd (composeRUD [RUD_removeRange1 (NInt 1)]
                            (tokenizer_of [97; 98; 99])))) = [[97]; [99]] /\
   dispatches "removeRange"
     (trace (snd (composeRUD [RUD_removeRange1 (NInt 1)] (tokenizer_of [97; 98; 99]))))
   = 1%nat /\
   dispatches "composeRUD"
     (trace (snd (composeRUD [RUD_removeRange1 (NInt 1)] (tokenizer_of [97; 98; 99]))))
   = 1%nat /\
   dispatches "updateContextsRanges"
     (trace (snd (composeRUD [RUD_removeRange1 (NInt 1)] (tokenizer_of [97; 98; 99]))))
   = S (S (dispatches "updateContextsRanges" (trace (tokenizer_of [97; 98; 99]))))) /\
  (fst (composeRUD [RUD_removeToken (NInt 0); RUD_replaceRange2 (NInt 0) (NInt 1)]
          (tokenizer_of [97; 98; 99]))
   = RThrown "TypeError: tokens.every is not a function" /\
   map char (tokens (snd (composeRUD [RUD_removeToken (NInt 0);
                                      RUD_replaceRange2 (NInt 0) (NInt 1)]
                            (tokenizer_of [97; 98; 99])))) = [[98]; [99]] /\
   trace (snd (composeRUD [RUD_removeToken (NInt 0); RUD_replaceRange2 (NInt 0) (NInt 1)]
                 (tokenizer_of [97; 98; 99])))
   = trace (tokenizer_of [97; 98; 99])).
Proof. vm_compute. repeat split. Qed.

Example composeRUD_scenario :
  map char (tokens (snd (composeRUD [RUD_removeToken (NInt 0);
                                     RUD_insertToken [ETok (Token_new [88])] (NInt 0)]
                           (tokenizer_of [97; 98; 99]))))
  = [[88]; [98]; [99]] /\
  fst (composeRUD [RUD_removeToken (NInt 9); RUD_replaceToken (NInt 0) (EOther VNull)]
         (tokenizer_of [97; 98; 99]))
  = RFailReport "composeRUD: one or more operations hasn't completed successfully"
      [RFail "removeToken: invalid token index.";
       RFail "replaceToken: invalid token or index."].
Proof. vm_compute. split; reflexivity. Qed.

(** ** Stored ranges and the ranges recomputed from scratch *)

Lemma no_open_range_reset t :
  no_open_range t = true ->
  registeredContexts (resetContextsRanges t) = fresh_checker <$> registeredContexts t.
Proof.
  unfold no_open_range. intros H. apply bool_decide_eq_true in H.
  simpl. apply map_fmap_ext. intros name c Hc.
  specialize (H name c Hc). simpl in H.
  destruct c as [n o rs cs ce]. simpl in H. subst o. reflexivity.
Qed.

(** After a dispatch that ran [updateContextsRanges] on a tokenizer without
    open range, the stored ranges are the ranges recomputed from scratch. *)
Lemma dispatch_consistent ev args t :
  well_formed t = true -> ev ∈ requiresContextUpdate -> plain args = true ->
  no_open_range t = true ->
  stored_ranges (dispatch ev args t) = recompute_from_scratch (dispatch ev args t).
Proof.
  intros Hwf Hev Hp Hopen.
  destruct (well_formed_event t ev Hwf Hev) as (e & He & Hauto).
  pose proof (dispatch_contexts_auto ev args t e He Hauto Hp) as [Hrc Hcc].
  unfold recompute_from_scratch, stored_ranges.
  rewrite tokens_dispatch by exact Hp.
  fold (scan (map char (tokens t))
          (set_registeredContexts
             (fresh_checker <$> registeredContexts (dispatch ev args t))
             (dispatch ev args t))).
  rewrite Hrc. f_equal.
  apply same_contexts_scan. split; simpl.
  - pose proof (no_open_range_reset t Hopen) as Hreset.
    rewrite (kept_static _ _ (kept_scan (map char (tokens t)) (resetContextsRanges t))).
    simpl in *. rewrite Hreset.
    rewrite <- map_fmap_compose. apply map_fmap_ext. reflexivity.
  - rewrite Hcc. symmetry.
    apply (framed_checkers _ _ _ (frame_scan (map char (tokens t)) (resetContextsRanges t))).
Qed.

(** An edit called with [silent = false] that does not return a FAIL
    record ends with the dispatch of an event that updates the ranges. *)
Lemma call_edit_dispatch c t :
  hasFAILObject (fst (call_edit false c t)) = false ->
  exists ev args l,
    ev ∈ requiresContextUpdate /\ plain args = true /\
    snd (call_edit false c t) = dispatch ev args (set_tokens l t).
Proof.
  destruct c as [s o toks|i tok|s o|i|toks i]; cbn [call_edit].
  - unfold replaceRange. cbv beta zeta.
    destruct (negb (isNaN s) && inboundIndex s t && forallb instanceof_Token toks);
      [|simpl; discriminate].
    destruct_splice replaced rest. cbn [negb fst snd]. intros _.
    eexists _, _, _. split; [|split; [|reflexivity]]; [repeat constructor|reflexivity].
  - unfold replaceToken. destruct tok as [tok|v]; [|simpl; discriminate].
    destruct (negb (isNaN i) && inboundIndex i t); [|simpl; discriminate].
    destruct_splice replaced rest. cbn [negb fst snd]. intros _.
    eexists _, _, _. split; [|split; [|reflexivity]]; [repeat constructor|reflexivity].
  - unfold removeRange. cbv beta zeta.
    destruct_splice removed rest. cbn [negb fst snd]. intros _.
    eexists _, _, _. split; [|split; [|reflexivity]]; [repeat constructor|reflexivity].
  - unfold removeToken.
    destruct (negb (isNaN i) && inboundIndex i t); [|simpl; discriminate].
    destruct_splice removed rest. cbn [negb fst snd]. intros _.
    eexists _, _, _. split; [|split; [|reflexivity]]; [repeat constructor|reflexivity].
  - unfold insertToken. cbv beta zeta.
    destruct (forallb instanceof_Token toks); [|simpl; discriminate].
    cbn [negb fst snd]. intros _.
    eexists _, _, _. split; [|split; [|reflexivity]]; [repeat constructor|reflexivity].
Qed.

(** C1, as the source has it.  Take a mutating operation invoked with
    [silent = false]: one of the five edits, or [composeRUD] on entries
    that hold the arguments their edits have before [silent], all of them
    and no more.  If it returns a FAIL record, nothing is dispatched and
    the tokenizer, its stored ranges included, is as it was.  If it does
    not, and none of the checkers holds an open range when the operation
    starts, then after the operation returns the ranges stored in every
    registered checker are exactly the ranges recomputed from scratch. *)
Theorem edit_ranges_consistent (t : Tokenizer) (e : Edit) :
  well_formed t = true ->
  (hasFAILObject (fst (run_edit e t)) = true ->
   snd (run_edit e t) = t) /\
  (no_open_range t = true ->
   hasFAILObject (fst (run_edit e t)) = false ->
   stored_ranges (snd (run_edit e t)) = recompute_from_scratch (snd (run_edit e t))).
Proof.
  intros Hwf. split.
  - destruct e as [c|calls]; cbn [run_edit]; [apply call_edit_fail|].
    rewrite composeRUD_entries.
    destruct (forallb hasFAILObject (fst (silent_calls calls t))) eqn:Hall;
      [|simpl; discriminate].
    intros _. cbn [snd]. apply silent_calls_all_fail, Hall.
  - intros Hopen.
    assert (Hd : forall ev args l,
              ev ∈ requiresContextUpdate -> plain args = true ->
              stored_ranges (dispatch ev args (set_tokens l t))
              = recompute_from_scratch (dispatch ev args (set_tokens l t))).
    { intros ev args l Hev Hp. apply dispatch_consistent; assumption. }
    destruct e as [c|calls]; cbn [run_edit].
    + intros Hok. destruct (call_edit_dispatch c t Hok) as (ev & args & l & Hev & Hp & ->).
      apply Hd; assumption.
    + rewrite composeRUD_entries.
      destruct (silent_calls_silent calls t) as [l Hl].
      destruct (silent_calls calls t) as [state batch]. simpl in Hl. subst batch.
      cbn [fst snd].
      destruct (forallb hasFAILObject state); [simpl; discriminate|].
      cbn [fst snd]. intros _.
      apply Hd; [repeat constructor|reflexivity].
Qed.

(** C1, three calls after which the stored ranges are not those recomputed
    from scratch.

    After "ab" is tokenized and X inserted silently at 0, [removeToken(99)]
    fails: nothing is dispatched, the stored range stays [0, 2) while the
    token vector X a b has the range [1, 3).

    After "aba" is tokenized the checker holds an open range started at 2;
    [replaceToken(0, a)] succeeds and [updateContextsRanges] runs, but
    [resetContextsRanges] has not cleared the open range: the stored range
    starts at 2 with end offset 0 while the vector a b a has the range
    [0, 2).

    After "bab" is tokenized no range is open.
    [composeRUD([["removeRange", 2]])] calls [removeRange(2, true)], which
    is not silent: its [updateContextsRanges] leaves a range open at the
    "a" of "ba", and the one of [composeRUD] starts from it.  No FAIL
    record is returned; the stored range starts at 1 with end offset 0
    while the vector b a has no range. *)
Lemma edit_ranges_inconsistent :
  (hasFAILObject
     (fst (run_edit (Edit_call (Direct_removeToken (NInt 99)))
             (snd (insertToken [ETok (Token_new [88])] (NInt 0) true
                     (ab_tokenizer [97; 98]))))) = true /\
   ab_ranges (stored_ranges
      (snd (run_edit (Edit_call (Direct_removeToken (NInt 99)))
              (snd (insertToken [ETok (Token_new [88])] (NInt 0) true
                      (ab_tokenizer [97; 98]))))))
     = [(0, Some 2)] /\
   ab_ranges (recompute_from_scratch
      (snd (run_edit (Edit_call (Direct_removeToken (NInt 99)))
              (snd (insertToken [ETok (Token_new [88])] (NInt 0) true
                      (ab_tokenizer [97; 98]))))))
     = [(1, Some 2)]) /\
  (hasFAILObject
     (fst (run_edit (Edit_call (Direct_replaceToken (NInt 0) (ETok (Token_new [97]))))
             (ab_tokenizer [97; 98; 97]))) = false /\
   ab_ranges (stored_ranges
      (snd (run_edit (Edit_call (Direct_replaceToken (NInt 0) (ETok (Token_new [97]))))
              (ab_tokenizer [97; 98; 97]))))
     = [(2, Some 0)] /\
   ab_ranges (recompute_from_scratch
      (snd (run_edit (Edit_call (Direct_replaceToken (NInt 0) (ETok (Token_new [97]))))
              (ab_tokenizer [97; 98; 97]))))
     = [(0, Some 2)]) /\
  (well_formed (ab_tokenizer [98; 97; 98]) = true /\
   no_open_range (ab_tokenizer [98; 97; 98]) = true /\
   hasFAILObject
     (fst (composeRUD [RUD_removeRange1 (NInt 2)] (ab_tokenizer [98; 97; 98]))) = false /\
   ab_ranges (stored_ranges
      (snd (composeRUD [RUD_removeRange1 (NInt 2)] (ab_tokenizer [98; 97; 98]))))
     = [(1, Some 0)] /\
   ab_ranges (recompute_from_scratch
      (snd (composeRUD [RUD_removeRange1 (NInt 2)] (ab_tokenizer [98; 97; 98]))))
     = []).
Proof. vm_compute. repeat split. Qed.

(** On the tokens of "ab", with no range open: [removeToken(0)], then the
    stored ranges (none: the run "a...b" is gone) are those recomputed;
    [removeToken(9)] fails and leaves the tokenizer as it was. *)
Lemma edit_ranges_consistent_witness :
  snd (run_edit (Edit_call (Direct_removeToken (NInt 9))) (ab_tokenizer [97; 98]))
  = ab_tokenizer [97; 98] /\
  stored_ranges (snd (run_edit (Edit_call (Direct_removeToken (NInt 0)))
                        (ab_tokenizer [97; 98])))
  = recompute_from_scratch (snd (run_edit (Edit_call (Direct_removeToken (NInt 0)))
                                   (ab_tokenizer [97; 98]))).
Proof.
  split.
  - apply (edit_ranges_consistent (ab_tokenizer [97; 98])
             (Edit_call (Direct_removeToken (NInt 9)))).
    + vm_compute. reflexivity.
    + vm_compute. reflexivity.
  - apply (edit_ranges_consistent (ab_tokenizer [97; 98])
             (Edit_call (Direct_removeToken (NInt 0)))).
    + vm_compute. reflexivity.
    + vm_compute. reflexivity.
    + vm_compute. reflexivity.
Defined.

(** ** tokenize *)

Lemma for_loop_S {S} n (body : Z -> S -> S) s :
  for_loop (Datatypes.S n) body s = body (Z.of_nat n) (for_loop n body s).
Proof.
  unfold for_loop. rewrite seq_S, fold_left_app. reflexivity.
Qed.

Lemma after_dispatch_quiet ev ev' e :
  ev' ∉ rangeEvents -> after_dispatch ev e -> is_dispatch_of ev' e = false.
Proof.
  intros Hev' [He|He].
  - eapply invocation_not_dispatch, He.
  - eapply named_not_dispatch; [exact Hev'|exact He].
Qed.

Lemma frame_invoke_dispatch ev args sub :
  frame (after_dispatch ev) (fun t => invoke updateContextsRanges ev args t sub).
Proof.
  apply frame_invoke.
  - apply (frame_weaken range_entry); [|apply frame_updateContextsRanges].
    intros x Hx. right. exact Hx.
  - intros h a. left. reflexivity.
Qed.

(** [dispatch] records the dispatch, then what the subscribers do. *)
Lemma dispatch_trace ev args t :
  exists d, trace (dispatch ev args t) = trace t ++ Dispatched ev args :: d /\
            Forall (after_dispatch ev) d.
Proof.
  unfold dispatch, dispatch_with. simpl.
  destruct (events t !! ev) as [e|].
  - destruct (framed_trace (after_dispatch ev) _ _
                (frame_fold (after_dispatch ev)
                   (invoke updateContextsRanges ev args) (subscribers e)
                   (frame_invoke_dispatch ev args)
                   (log (Dispatched ev args) t))) as (d & Hd & HP).
    exists d. rewrite Hd. simpl. rewrite <- app_assoc. auto.
  - exists []. auto.
Qed.

(** The number of dispatches of [ev'] another event's dispatch adds. *)
Lemma dispatch_count ev' ev args t :
  ev' ∉ rangeEvents ->
  exists d, trace (dispatch ev args t) = trace t ++ d /\
            dispatches ev' d = (if bool_decide (ev = ev') then 1 else 0)%nat.
Proof.
  intros Hev'. destruct (dispatch_trace ev args t) as (d & Hd & HP).
  exists (Dispatched ev args :: d). split; [exact Hd|].
  rewrite dispatches_cons, (dispatches_none ev' d).
  - simpl. destruct (bool_decide (ev = ev')); reflexivity.
  - eapply Forall_impl; [exact HP|]. intros x. apply after_dispatch_quiet, Hev'.
Qed.

Lemma quiet_refl ev t : quiet ev t t.
Proof. exists []. rewrite app_nil_r. auto. Qed.

Lemma quiet_trans ev t1 t2 t3 : quiet ev t1 t2 -> quiet ev t2 t3 -> quiet ev t1 t3.
Proof.
  intros (d1 & H1 & C1) (d2 & H2 & C2). exists (d1 ++ d2).
  rewrite H2, H1, app_assoc, dispatches_app, C1, C2. auto.
Qed.

Lemma quiet_dispatch ev' ev args t :
  ev' ∉ rangeEvents -> ev <> ev' -> quiet ev' t (dispatch ev args t).
Proof.
  intros Hr Hne. destruct (dispatch_count ev' ev args t Hr) as (d & Hd & Hc).
  exists d. rewrite bool_decide_eq_false_2 in Hc by exact Hne. auto.
Qed.

Lemma quiet_framed ev names t t' :
  ev ∉ names -> framed (named names) t t' -> quiet ev t t'.
Proof.
  intros Hev [_ _ _ _ (d & Hd & HP)]. exists d. split; [exact Hd|].
  eapply dispatches_named; eauto.
Qed.

Lemma start_not_range : "start"%string ∉ rangeEvents.
Proof.
  intros Hin. repeat (apply elem_of_cons in Hin as [Hin|Hin]; [discriminate|]).
  inversion Hin.
Qed.

Lemma quiet_tokenize_step chars i t :
  quiet "start" t (tokenize_step chars i t).
Proof.
  unfold tokenize_step. cbv zeta.
  set (p := ContextParams_new chars i).
  set (t1 := dispatch "next" (ANext p) t).
  set (t2 := runContextCheck p t1).
  apply (quiet_trans _ _ t1).
  { apply quiet_dispatch; [apply start_not_range|discriminate]. }
  apply (quiet_trans _ _ t2).
  { apply (quiet_framed "start" ["contextStart"; "contextEnd"]%string);
      [|apply frame_runContextCheck].
    intros Hin. repeat (apply elem_of_cons in Hin as [Hin|Hin]; [discriminate|]).
    inversion Hin. }
  refine (quiet_dispatch "start" "newToken" _ (set_tokens _ t2) start_not_range _).
  discriminate.
Qed.

(** One call of [tokenize] is one dispatch of [start]. *)
Lemma tokenize_one_start text t :
  exists d, trace (snd (tokenize text t)) = trace t ++ d /\
            dispatches "start" d = 1%nat.
Proof.
  unfold tokenize. cbv beta zeta. cbn [snd].
  set (t0 := resetContextsRanges (set_tokens [] t)).
  destruct (dispatch_count "start" "start" ANone t0 start_not_range) as (d1 & Hd1 & Hc1).
  rewrite bool_decide_eq_true_2 in Hc1 by reflexivity.
  assert (Hloop : quiet "start" (dispatch "start" ANone t0)
            (for_loop (length (array_from text)) (tokenize_step (array_from text))
               (dispatch "start" ANone t0))).
  { apply (for_loop_ind (quiet "start" (dispatch "start" ANone t0))); [|apply quiet_refl].
    intros i s Hs. eapply quiet_trans; [exact Hs|apply quiet_tokenize_step]. }
  destruct Hloop as (d2 & Hd2 & Hc2).
  match goal with
  | |- context [dispatch "end" ?a ?x] =>
      destruct (quiet_dispatch "start" "end" a x start_not_range ltac:(discriminate))
        as (d3 & Hd3 & Hc3)
  end.
  exists (d1 ++ d2 ++ d3). rewrite Hd3, Hd2, Hd1.
  split; [rewrite <- !app_assoc; reflexivity|].
  rewrite !dispatches_app, Hc1, Hc2, Hc3. reflexivity.
Qed.

Lemma chars_tokenize_step chars i t c :
  js_index chars i = Some c ->
  map char (tokens (tokenize_step chars i t)) = map char (tokens t) ++ [c].
Proof.
  intros Hc. unfold tokenize_step. rewrite Hc. simpl.
  rewrite (framed_chars _ _ _ (frame_dispatch "newToken" _ _)). simpl.
  rewrite map_app. simpl.
  rewrite (kept_tokens _ _ (kept_runContextCheck _ _)).
  rewrite (framed_chars _ _ _ (frame_dispatch "next" _ _)). reflexivity.
Qed.

Lemma chars_tokenize_loop chars n t :
  (n <= length chars)%nat ->
  map char (tokens (for_loop n (tokenize_step chars) t))
  = map char (tokens t) ++ take n chars.
Proof.
  induction n as [|n IH]; intros Hn.
  - unfold for_loop. simpl. rewrite take_0, app_nil_r. reflexivity.
  - rewrite for_loop_S.
    destruct (lookup_lt_is_Some_2 chars n) as [c Hc]; [lia|].
    rewrite (chars_tokenize_step chars (Z.of_nat n) _ c).
    + rewrite IH by lia. rewrite (take_S_r _ _ _ Hc), app_assoc. reflexivity.
    + rewrite js_index_lookup by lia. rewrite Nat2Z.id. exact Hc.
Qed.

(** [tokenize] makes one token per code point of the text, in order. *)
Lemma chars_tokenize text t :
  map char (tokens (snd (tokenize text t))) = array_from text.
Proof.
  unfold tokenize. cbv beta zeta. cbn [snd].
  rewrite (framed_chars _ _ _ (frame_dispatch "end" _ _)).
  rewrite chars_tokenize_loop by lia.
  rewrite (framed_chars _ _ _ (frame_dispatch "start" _ _)). simpl.
  apply firstn_all.
Qed.

(** ** Code points *)

Lemma array_from_single u rest :
  is_high_surrogate u = false -> array_from (u :: rest) = [u] :: array_from rest.
Proof. intros Hu. destruct rest as [|v rest]; simpl; [reflexivity|]. rewrite Hu. reflexivity. Qed.

Lemma array_from_pair u v rest :
  is_high_surrogate u = true -> is_low_surrogate v = true ->
  array_from (u :: v :: rest) = [u; v] :: array_from rest.
Proof. intros Hu Hv. simpl. rewrite Hu, Hv. reflexivity. Qed.

Lemma utf16_unit_cases cp :
  is_scalar cp = true ->
  (utf16_unit cp = [cp] /\ is_high_surrogate cp = false) \/
  (exists hi lo, utf16_unit cp = [hi; lo] /\
                 is_high_surrogate hi = true /\ is_low_surrogate lo = true).
Proof.
  unfold is_scalar, utf16_unit, is_high_surrogate, is_low_surrogate. intros H.
  apply andb_prop in H as [H Hs]. apply andb_prop in H as [H0 H1].
  apply Z.leb_le in H0, H1. apply negb_true_iff, andb_false_iff in Hs.
  destruct (Z.ltb_spec cp 65536) as [Hlt|Hge].
  - left. split; [reflexivity|].
    destruct Hs as [Hs|Hs]; [apply Z.leb_gt in Hs|apply Z.leb_gt in Hs].
    + apply andb_false_iff. left. apply Z.leb_gt. exact Hs.
    + apply andb_false_iff. right. apply Z.leb_gt. lia.
  - right. eexists _, _. split; [reflexivity|].
    assert (Hhi : 0 <= Z.shiftr (cp - 65536) 10 <= 1023).
    { rewrite Z.shiftr_div_pow2 by lia. change (2 ^ 10) with 1024.
      split; [apply Z.div_pos; lia|].
      apply Z.lt_succ_r. apply Z.div_lt_upper_bound; lia. }
    assert (Hlo : 0 <= Z.land (cp - 65536) 1023 <= 1023).
    { assert (Hland : Z.land (cp - 65536) 1023 = (cp - 65536) mod 1024).
      { change 1023 with (Z.ones 10). rewrite Z.land_ones by lia. reflexivity. }
      rewrite Hland.
      pose proof (Z.mod_pos_bound (cp - 65536) 1024 ltac:(lia)). lia. }
    split; apply andb_true_iff; split; apply Z.leb_le; lia.
Qed.

(** A string made of scalar values splits back into them: a surrogate pair
    is one element. *)
Lemma array_from_concat (l : list jsstring) :
  Forall scalar_char l -> array_from (concat l) = l.
Proof.
  induction 1 as [|s l (cp & Hcp & ->) _ IH]; [reflexivity|]. cbn [concat].
  destruct (utf16_unit_cases cp Hcp) as [[-> Hu]|(hi & lo & -> & Hhi & Hlo)]; cbn [app].
  - rewrite array_from_single by exact Hu. rewrite IH. reflexivity.
  - rewrite array_from_pair by assumption. rewrite IH. reflexivity.
Qed.

Lemma scalar_chars cps :
  Forall (fun cp => is_scalar cp = true) cps -> Forall scalar_char (utf16_unit <$> cps).
Proof.
  induction 1 as [|cp cps Hcp _ IH]; simpl; constructor; [|exact IH].
  exists cp. auto.
Qed.

Lemma array_from_utf16 cps :
  Forall (fun cp => is_scalar cp = true) cps ->
  array_from (utf16 cps) = utf16_unit <$> cps.
Proof. intros H. apply array_from_concat, scalar_chars, H. Qed.

(** ** The Bidi driver *)

Lemma retoken_refl b : retoken b b.
Proof.
  exists (tokens (Bidi.tokenizer b)). rewrite set_tokens_same.
  destruct b. reflexivity.
Qed.

Lemma retoken_trans b1 b2 b3 : retoken b1 b2 -> retoken b2 b3 -> retoken b1 b3.
Proof. intros [l1 ->] [l2 ->]. exists l2. reflexivity. Qed.

Lemma settled_refl b : settled b b.
Proof. split; try reflexivity. apply quiet_refl. Qed.

Lemma settled_trans b1 b2 b3 : settled b1 b2 -> settled b2 b3 -> settled b1 b3.
Proof.
  intros [T1 F1 Q1] [T2 F2 Q2]. split.
  - rewrite T2. exact T1.
  - rewrite F2. exact F1.
  - eapply quiet_trans; eauto.
Qed.

Lemma retoken_settled b b' : retoken b b' -> settled b b'.
Proof.
  intros [l ->]. split; try reflexivity.
  exists []. simpl. rewrite app_nil_r. auto.
Qed.

Lemma settled_calls b b' : settled b b' -> tokenize_calls b' = tokenize_calls b.
Proof.
  intros [_ _ (d & Hd & Hc)]. unfold tokenize_calls.
  rewrite Hd, dispatches_app, Hc. lia.
Qed.

Lemma keeps_bind (R : Bidi.Bidi -> Bidi.Bidi -> Prop) (c1 c2 : Bidi.M unit) :
  (forall b1 b2 b3, R b1 b2 -> R b2 b3 -> R b1 b3) ->
  step_keeps R c1 -> step_keeps R c2 ->
  step_keeps R (Bidi.bind c1 (fun _ => c2)).
Proof.
  intros Htrans H1 H2 b. unfold Bidi.bind. specialize (H1 b).
  destruct (c1 b) as [[[]|msg] b1]; simpl in *.
  - eapply Htrans; [exact H1|apply H2].
  - exact H1.
Qed.

Lemma keeps_when (R : Bidi.Bidi -> Bidi.Bidi -> Prop) cond (c : Bidi.M unit) :
  (forall b, R b b) -> step_keeps R c -> step_keeps R (Bidi.when cond c).
Proof.
  intros Hrefl Hc b. unfold Bidi.when. destruct (cond b); [apply Hc|apply Hrefl].
Qed.

Lemma keeps_checkGlyphIndexStatus (R : Bidi.Bidi -> Bidi.Bidi -> Prop) :
  (forall b, R b b) -> step_keeps R Bidi.checkGlyphIndexStatus.
Proof.
  intros Hrefl b. unfold Bidi.checkGlyphIndexStatus.
  destruct (bool_decide _); apply Hrefl.
Qed.

Lemma retoken_shapes f tags name :
  step_keeps retoken (Bidi.for_each_range name (Bidi.shape f tags)).
Proof.
  intros b. unfold Bidi.for_each_range.
  destruct (getContextRanges name (Bidi.tokenizer b)) as [rs| |msg]; simpl;
    [|apply retoken_refl..].
  assert (H : forall t, exists l,
            fold_left (Bidi.shape f tags) rs t = set_tokens l t).
  { induction rs as [|r rs IH]; intros t; simpl.
    - exists (tokens t). symmetry. apply set_tokens_same.
    - destruct (IH (Bidi.shape f tags t r)) as [l Hl]. exists l. exact Hl. }
  destruct (H (Bidi.tokenizer b)) as [l Hl]. exists l. rewrite Hl. reflexivity.
Qed.

Section BidiFacts.
Variable contextChecks : Bidi.ContextChecks.
Variable shapers : Bidi.Shapers.

Lemma applyFeaturesToContexts_steps b :
  Bidi.applyFeaturesToContexts shapers b =
  Bidi.bind (shaping_steps shapers)
    (fun _ => Bidi.when (Bidi.checkContextReady "arabicSentence")
                Bidi.reverseArabicSentences) b.
Proof.
  unfold Bidi.applyFeaturesToContexts, shaping_steps, Bidi.bind.
  destruct (Bidi.when _ _ b) as [[[]|msg] b1]; reflexivity.
Qed.

Lemma retoken_shaping_steps : step_keeps retoken (shaping_steps shapers).
Proof.
  unfold shaping_steps.
  apply keeps_bind; [apply retoken_trans| |].
  - apply keeps_when; [apply retoken_refl|].
    apply keeps_bind; [apply retoken_trans| |].
    + intros b. unfold Bidi.applyArabicPresentationForms.
      destruct (Bidi.featuresTags b !! "arab"%string); [|apply retoken_refl].
      apply (keeps_bind retoken _ _ retoken_trans
               (keeps_checkGlyphIndexStatus retoken retoken_refl)
               (retoken_shapes _ _ _)).
    + intros b. unfold Bidi.applyArabicRequireLigatures.
      destruct (Bidi.featuresTags b !! "arab"%string) as [tags|]; [|apply retoken_refl].
      destruct (bool_decide _); [|apply retoken_refl].
      apply (keeps_bind retoken _ _ retoken_trans
               (keeps_checkGlyphIndexStatus retoken retoken_refl)
               (retoken_shapes _ _ _)).
  - apply keeps_when; [apply retoken_refl|].
    intros b. unfold Bidi.applyLatinLigatures.
    destruct (Bidi.featuresTags b !! "latn"%string) as [tags|]; [|apply retoken_refl].
    destruct (bool_decide _); [|apply retoken_refl].
    apply (keeps_bind retoken _ _ retoken_trans
             (keeps_checkGlyphIndexStatus retoken retoken_refl)
             (retoken_shapes _ _ _)).
Qed.

(** With no feature tag requested the shapers do not run. *)
Lemma shaping_steps_no_tags b :
  Bidi.featuresTags b = ∅ -> shaping_steps shapers b = (Bidi.Returned tt, b).
Proof.
  intros Htags.
  assert (H1 : Bidi.applyArabicPresentationForms shapers b = (Bidi.Returned tt, b)).
  { unfold Bidi.applyArabicPresentationForms. rewrite Htags, lookup_empty. reflexivity. }
  assert (H2 : Bidi.applyArabicRequireLigatures shapers b = (Bidi.Returned tt, b)).
  { unfold Bidi.applyArabicRequireLigatures. rewrite Htags, lookup_empty. reflexivity. }
  assert (H3 : Bidi.applyLatinLigatures shapers b = (Bidi.Returned tt, b)).
  { unfold Bidi.applyLatinLigatures. rewrite Htags, lookup_empty. reflexivity. }
  unfold shaping_steps, Bidi.bind, Bidi.when.
  destruct (Bidi.checkContextReady "arabicWord" b); rewrite ?H1, ?H2;
    destruct (Bidi.checkContextReady "latinWord" b); rewrite ?H3; reflexivity.
Qed.

Lemma quiet_replaceRange ev s o toks silent t :
  ev ∉ rangeEvents -> ev <> "replaceToken"%string ->
  quiet ev t (snd (replaceRange s o toks silent t)).
Proof.
  intros Hr Hne. unfold replaceRange. cbv beta zeta.
  destruct (negb (isNaN s) && inboundIndex s t && forallb instanceof_Token toks);
    [|apply quiet_refl].
  destruct_splice replaced rest. destruct silent; cbn [negb snd].
  - exists []. simpl. rewrite app_nil_r. auto.
  - refine (quiet_dispatch ev "replaceToken" _ (set_tokens rest t) Hr _).
    intros Heq. apply Hne. symmetry. exact Heq.
Qed.

Lemma settled_reverseArabicSentences : step_keeps settled Bidi.reverseArabicSentences.
Proof.
  intros b. unfold Bidi.reverseArabicSentences, Bidi.for_each_range.
  destruct (getContextRanges "arabicSentence" (Bidi.tokenizer b)) as [rs| |msg]; simpl;
    [|apply settled_refl..].
  split; try reflexivity. simpl.
  generalize (Bidi.tokenizer b). induction rs as [|r rs IH]; intros t; simpl.
  - apply quiet_refl.
  - eapply quiet_trans; [|apply IH].
    apply quiet_replaceRange; [apply start_not_range|discriminate].
Qed.

Lemma settled_applyFeaturesToContexts :
  step_keeps settled (Bidi.applyFeaturesToContexts shapers).
Proof.
  intros b. rewrite applyFeaturesToContexts_steps.
  apply (keeps_bind settled _ _ settled_trans).
  - intros b'. apply retoken_settled, retoken_shaping_steps.
  - apply keeps_when; [apply settled_refl|apply settled_reverseArabicSentences].
Qed.
End BidiFacts.

(** ** processText *)

Lemma trace_registerContextChecker name cs ce t :
  trace (snd (registerContextChecker name cs ce t)) = trace t.
Proof.
  unfold registerContextChecker.
  destruct (getContext name t); [reflexivity..|].
  destruct cs; [|reflexivity]. destruct ce; reflexivity.
Qed.

Section ProcessText.
Variable contextChecks : Bidi.ContextChecks.
Variable shapers : Bidi.Shapers.

Lemma tokenizeText_calls b :
  Bidi.text (Bidi.tokenizeText contextChecks b) = Bidi.text b /\
  Bidi.featuresTags (Bidi.tokenizeText contextChecks b) = Bidi.featuresTags b /\
  tokenize_calls (Bidi.tokenizeText contextChecks b) = S (tokenize_calls b).
Proof.
  unfold Bidi.tokenizeText. cbv zeta. split; [reflexivity|]. split; [reflexivity|].
  unfold tokenize_calls. cbn [Bidi.tokenizer Bidi.set_tokenizer].
  match goal with
  | |- context [tokenize ?x ?t] =>
      destruct (tokenize_one_start x t) as (d & Hd & Hc); rewrite Hd
  end.
  unfold Bidi.registerContextChecker. cbn [Bidi.tokenizer Bidi.set_tokenizer].
  rewrite !trace_registerContextChecker.
  rewrite dispatches_app, Hc. lia.
Qed.

(** What a call of [processText] that finds a new text does. *)
Lemma processText_changed b txt :
  Bidi.text_changed txt b = true ->
  Bidi.processText contextChecks shapers txt b =
  Bidi.applyFeaturesToContexts shapers
    (Bidi.tokenizeText contextChecks (Bidi.setText txt b)).
Proof.
  intros Hc. unfold Bidi.processText, Bidi.when. rewrite Hc. reflexivity.
Qed.

Lemma processText_unchanged b txt :
  Bidi.text_changed txt b = false ->
  Bidi.processText contextChecks shapers txt b = (Bidi.Returned tt, b).
Proof.
  intros Hc. unfold Bidi.processText, Bidi.when. rewrite Hc. reflexivity.
Qed.

Lemma text_changed_false b txt :
  Bidi.text_changed txt b = false <-> Bidi.text b = Some txt /\ txt <> [].
Proof.
  unfold Bidi.text_changed. destruct (Bidi.text b) as [old|].
  - rewrite orb_false_iff, negb_false_iff, bool_decide_eq_false, bool_decide_eq_true.
    split.
    + intros [Hne ->]. auto.
    + intros [[= ->] Hne]. auto.
  - split; [discriminate|]. intros [[=] _].
Qed.

Lemma text_after_processText b txt :
  txt <> [] -> Bidi.text (snd (Bidi.processText contextChecks shapers txt b)) = Some txt.
Proof.
  intros Hne. destruct (Bidi.text_changed txt b) eqn:Hc.
  - rewrite processText_changed by exact Hc.
    rewrite (settled_text _ _ (settled_applyFeaturesToContexts shapers _)).
    reflexivity.
  - rewrite processText_unchanged by exact Hc. simpl.
    apply text_changed_false in Hc as [Ht _]. exact Ht.
Qed.

(** C6, as the source has it.  For every non-empty text, a second call
    [processText(t)] right after the first finds the text equal to the
    stored one and does nothing: [tokenize] is not invoked again and the
    object is left as it was.  The first call, when the text is new,
    invokes [tokenize] exactly once. *)
Theorem processText_twice (b : Bidi.Bidi) (txt : jsstring) :
  txt <> [] ->
  Bidi.processText contextChecks shapers txt
    (snd (Bidi.processText contextChecks shapers txt b))
  = (Bidi.Returned tt, snd (Bidi.processText contextChecks shapers txt b)) /\
  (Bidi.text_changed txt b = true ->
   tokenize_calls (snd (Bidi.processText contextChecks shapers txt b))
   = S (tokenize_calls b) /\
   tokenize_calls
     (snd (Bidi.processText contextChecks shapers txt
             (snd (Bidi.processText contextChecks shapers txt b))))
   = S (tokenize_calls b)).
Proof.
  intros Hne.
  assert (Hsecond :
    Bidi.processText contextChecks shapers txt
      (snd (Bidi.processText contextChecks shapers txt b))
    = (Bidi.Returned tt, snd (Bidi.processText contextChecks shapers txt b))).
  { apply processText_unchanged, text_changed_false.
    split; [apply text_after_processText, Hne|exact Hne]. }
  split; [exact Hsecond|].
  intros Hc. rewrite Hsecond. cbn [snd].
  assert (tokenize_calls (snd (Bidi.processText contextChecks shapers txt b))
          = S (tokenize_calls b)) as Hfirst.
  { rewrite processText_changed by exact Hc.
    rewrite (settled_calls _ _ (settled_applyFeaturesToContexts shapers _)).
    destruct (tokenizeText_calls (Bidi.setText txt b)) as (_ & _ & H). exact H. }
  split; exact Hfirst.
Qed.
End ProcessText.

(** C6 at the empty text: [!this.text] holds for the stored empty string,
    so the second [processText("")] processes the text again: [tokenize]
    has run twice after two calls. *)
Lemma processText_empty_twice :
  tokenize_calls (snd (Bidi.processText no_checks no_shapers [] (Bidi.Bidi_new "ltr")))
  = 1%nat /\
  tokenize_calls
    (snd (Bidi.processText no_checks no_shapers []
            (snd (Bidi.processText no_checks no_shapers [] (Bidi.Bidi_new "ltr")))))
  = 2%nat.
Proof. vm_compute. split; reflexivity. Qed.

(** The text "ab", twice, on a new Bidi. *)
Lemma processText_twice_witness :
  tokenize_calls
    (snd (Bidi.processText no_checks no_shapers [97; 98]
            (snd (Bidi.processText no_checks no_shapers [97; 98] (Bidi.Bidi_new "ltr")))))
  = 1%nat.
Proof.
  destruct (processText_twice no_checks no_shapers (Bidi.Bidi_new "ltr") [97; 98])
    as [_ H].
  - discriminate.
  - destruct (H eq_refl) as [_ H2]. exact H2.
Defined.

(** ** Reversal of a range *)

Lemma reverse_segment_perm {A} s dc (l : list A) : reverse_segment s dc l ≡ₚ l.
Proof.
  unfold reverse_segment.
  transitivity (take s l ++ drop s l); [|rewrite take_drop; reflexivity].
  apply Permutation_app_head.
  transitivity (take dc (drop s l) ++ drop dc (drop s l));
    [|rewrite take_drop; reflexivity].
  rewrite drop_drop. apply Permutation_app_tail.
  symmetry. apply Permutation_rev.
Qed.

Lemma reverse_segment_length {A} s dc (l : list A) :
  length (reverse_segment s dc l) = length l.
Proof. apply Permutation_length, reverse_segment_perm. Qed.

(** [slice(s, s + off)] and [splice(s, off, ...)] work on the same tokens
    when [s] is an index of the array and the end index is not negative. *)
Lemma slice_splice_segment {A} (l : list A) s off :
  0 <= s < len l -> 0 <= s + off ->
  exists dc : nat,
    Z.of_nat dc = Z.min (Z.max off 0) (len l - s) /\
    js_slice l s (Some (s + off)) = take dc (drop (Z.to_nat s) l) /\
    forall items,
      js_splice l (NInt s) (NInt off) items =
        (take dc (drop (Z.to_nat s) l),
         take (Z.to_nat s) l ++ items ++ drop (Z.to_nat s + dc) l).
Proof.
  intros Hs Hend.
  exists (Z.to_nat (Z.min (Z.max off 0) (len l - s))).
  split; [lia|]. split.
  - unfold js_slice. rewrite (clamp_index_inside l s) by lia.
    f_equal. unfold clamp_index.
    destruct (Z.ltb_spec (s + off) 0); lia.
  - intros items. unfold js_splice. cbn [to_integer to_number].
    rewrite (clamp_index_inside l s) by lia.
    f_equal. f_equal. f_equal. f_equal. lia.
Qed.

Section ReverseRange.
Variable t : Tokenizer.
Variable r : ContextRange.

(** One range reversed: either the start index is no index of the token
    vector and nothing changes, or the tokens of the range are replaced by
    themselves in reverse order. *)
Lemma reverse_range_tokens off :
  endOffset r = Some off -> 0 <= startIndex r + off ->
  (inboundIndex (NInt (startIndex r)) t = false /\
   Bidi.reverse_range t r = t) \/
  (inboundIndex (NInt (startIndex r)) t = true /\
   exists dc : nat,
     Z.of_nat dc = Z.min (Z.max off 0) (len (tokens t) - startIndex r) /\
     getRangeTokens r t = take dc (drop (Z.to_nat (startIndex r)) (tokens t)) /\
     tokens (Bidi.reverse_range t r)
     = reverse_segment (Z.to_nat (startIndex r)) dc (tokens t)).
Proof.
  intros Hoff Hend. unfold Bidi.reverse_range, replaceRange. cbv beta zeta.
  rewrite Hoff. cbn [isNaN to_number negb andb].
  assert (Hall : forallb instanceof_Token (ETok <$> rev (getRangeTokens r t)) = true).
  { induction (rev (getRangeTokens r t)) as [|a l IH]; simpl; auto. }
  rewrite Hall, andb_true_r.
  destruct (inboundIndex (NInt (startIndex r)) t) eqn:Hin; [right|left; auto].
  split; [reflexivity|].
  assert (Hs : 0 <= startIndex r < len (tokens t)).
  { unfold inboundIndex, num_in_range in Hin. simpl in Hin.
    apply andb_prop in Hin as [H1 H2]. apply Z.leb_le in H1. apply Z.ltb_lt in H2. lia. }
  destruct (slice_splice_segment (tokens t) (startIndex r) off Hs Hend)
    as (dc & Hdc & Hslice & Hsplice).
  exists dc. split; [exact Hdc|].
  assert (Hget : getRangeTokens r t = take dc (drop (Z.to_nat (startIndex r)) (tokens t))).
  { unfold getRangeTokens. rewrite Hoff. exact Hslice. }
  split; [exact Hget|].
  rewrite Hsplice. cbn [snd].
  rewrite tokens_dispatch by reflexivity. cbn [tokens set_tokens].
  rewrite tokens_of_ETok, Hget. reflexivity.
Qed.

Lemma reverse_range_perm :
  range_ok r -> tokens (Bidi.reverse_range t r) ≡ₚ tokens t.
Proof.
  intros (off & Hoff & Hend).
  destruct (reverse_range_tokens off Hoff Hend) as [[_ ->]|(_ & dc & _ & _ & ->)].
  - reflexivity.
  - apply reverse_segment_perm.
Qed.
End ReverseRange.

Lemma reverse_ranges_perm rs t :
  Forall range_ok rs -> tokens (fold_left Bidi.reverse_range rs t) ≡ₚ tokens t.
Proof.
  intros Hrs. revert t. induction Hrs as [|r rs Hr _ IH]; intros t; simpl.
  - reflexivity.
  - rewrite IH. apply reverse_range_perm, Hr.
Qed.

(** ** The stored ranges are completed ranges *)

Lemma ranges_ok_notify ev args t : ranges_ok t -> ranges_ok (notify ev args t).
Proof. unfold ranges_ok. rewrite contexts_notify. auto. Qed.

Lemma ranges_ok_reset t : ranges_ok (resetContextsRanges t).
Proof.
  unfold ranges_ok. simpl. intros name c Hc.
  apply lookup_fmap_Some in Hc as (c0 & <- & _). constructor.
Qed.

Lemma ranges_ok_runContextCheck_checker p name t :
  0 <= index p -> ranges_ok t -> ranges_ok (runContextCheck_checker p t name).
Proof.
  intros Hi Hok. unfold runContextCheck_checker. rewrite own_getContext.
  destruct (registeredContexts t !! name) as [c|] eqn:Hc; [|exact Hok].
  assert (Hclose : forall t1 r,
            ranges_ok t1 ->
            (exists c1, registeredContexts t1 !! name = Some c1 /\ openRange c1 = Some r) ->
            ranges_ok
              (if checkEnd c p
               then match setEndOffset (index p - startIndex r + 1) name t1 with
                    | Some (range, t2) => notify "contextEnd" (AContextEnd name range) t2
                    | None => t1
                    end
               else t1)).
  { intros t1 r H1 (c1 & Hc1 & Ho1). destruct (checkEnd c p); [|exact H1].
    destruct (setEndOffset _ name t1) as [[range t2]|] eqn:Hset; [|exact H1].
    apply setEndOffset_Some in Hset as (c' & o' & Hc' & Ho' & Hrange & ->).
    rewrite Hc1 in Hc'. injection Hc' as <-.
    rewrite Ho1 in Ho'. injection Ho' as <-.
    apply ranges_ok_notify. unfold ranges_ok. simpl.
    apply map_Forall_insert_2; [|exact H1]. simpl.
    apply Forall_app. split; [apply (H1 name c1 Hc1)|].
    constructor; [|constructor].
    exists (index p - startIndex r + 1). rewrite Hrange. simpl. split; [reflexivity|lia]. }
  destruct (openRange c) as [r|] eqn:Ho.
  - apply Hclose; [exact Hok|]. exists c. auto.
  - destruct (checkStart c p); [|exact Hok].
    apply Hclose.
    + apply ranges_ok_notify. unfold ranges_ok. simpl.
      intros n c1 Hc1. apply lookup_alter_Some in Hc1 as [(-> & c0 & Hc0 & ->)|[_ Hc1]].
      * simpl. apply (Hok _ _ Hc0).
      * apply (Hok _ _ Hc1).
    + eexists. rewrite contexts_notify. simpl. rewrite lookup_alter_eq.
      rewrite Hc. simpl. split; reflexivity.
Qed.

Lemma ranges_ok_runContextCheck p t :
  0 <= index p -> ranges_ok t -> ranges_ok (runContextCheck p t).
Proof.
  intros Hi. unfold runContextCheck. generalize (contextCheckers t) at 1.
  intros names. revert t. induction names as [|name names IH]; intros t Hok; simpl.
  - exact Hok.
  - apply IH, ranges_ok_runContextCheck_checker; assumption.
Qed.

Lemma ranges_ok_updateContextsRanges t : ranges_ok (updateContextsRanges t).
Proof.
  rewrite updateContextsRanges_scan. simpl. apply ranges_ok_notify.
  unfold scan, for_loop. generalize (resetContextsRanges t), (ranges_ok_reset t).
  generalize (map char (tokens t)). intros chars.
  induction (seq 0 (length chars)) as [|i l IH]; intros s Hs; simpl; [exact Hs|].
  apply IH, ranges_ok_runContextCheck; [simpl; lia|exact Hs].
Qed.

Lemma ranges_ok_dispatch ev args t : ranges_ok t -> ranges_ok (dispatch ev args t).
Proof.
  unfold dispatch, dispatch_with. simpl. intros Hok.
  destruct (events t !! ev) as [e|]; [|exact Hok].
  assert (H0 : ranges_ok (log (Dispatched ev args) t)) by exact Hok.
  revert H0. generalize (log (Dispatched ev args) t).
  induction (subscribers e) as [|sub subs IH]; intros s Hs; simpl; [exact Hs|].
  apply IH. destruct sub as [|id condition modifier|h]; simpl.
  - apply ranges_ok_updateContextsRanges.
  - destruct args; exact Hs.
  - exact Hs.
Qed.

Lemma ranges_ok_tokenize text t : ranges_ok (snd (tokenize text t)).
Proof.
  unfold tokenize. cbv beta zeta. cbn [snd].
  apply ranges_ok_dispatch.
  unfold for_loop.
  generalize (dispatch "start" ANone (resetContextsRanges (set_tokens [] t))),
    (ranges_ok_dispatch "start" ANone _ (ranges_ok_reset (set_tokens [] t))).
  induction (seq 0 (length (array_from text))) as [|i l IH]; intros s Hs; simpl;
    [exact Hs|].
  apply IH. unfold tokenize_step. cbv zeta.
  apply ranges_ok_dispatch.
  change (ranges_ok (runContextCheck (ContextParams_new (array_from text) (Z.of_nat i))
                       (dispatch "next"
                          (ANext (ContextParams_new (array_from text) (Z.of_nat i))) s))).
  apply ranges_ok_runContextCheck; [simpl; lia|].
  apply ranges_ok_dispatch, Hs.
Qed.

Lemma getContextRanges_RangesOf name t rs :
  getContextRanges name t = RangesOf rs <->
  exists c, registeredContexts t !! name = Some c /\ ranges c = rs.
Proof.
  unfold getContextRanges, getContext, js_property.
  destruct (registeredContexts t !! name) as [c|].
  - split.
    + intros H. injection H as <-. eauto.
    + intros (c' & Hc & <-). injection Hc as <-. reflexivity.
  - destruct (bool_decide (name ∈ object_prototype)); split;
      try discriminate; intros (c & Hc & _); discriminate.
Qed.

Lemma ranges_ok_lookup name t rs :
  ranges_ok t -> getContextRanges name t = RangesOf rs -> Forall range_ok rs.
Proof.
  intros Hok H. apply getContextRanges_RangesOf in H as (c & Hc & <-).
  apply (Hok name c Hc).
Qed.

(** ** Arabic sentence reversal *)

Lemma retoken_contexts b b' name :
  retoken b b' ->
  getContextRanges name (Bidi.tokenizer b') = getContextRanges name (Bidi.tokenizer b) /\
  Bidi.checkContextReady name b' = Bidi.checkContextReady name b.
Proof. intros [l ->]. split; reflexivity. Qed.

Lemma arabicSentence_plain : "arabicSentence"%string ∉ object_prototype.
Proof.
  refine (bool_decide_unpack ("arabicSentence"%string ∉ object_prototype) _).
  vm_compute. exact I.
Qed.

Lemma checkContextReady_ranges name b :
  name ∉ object_prototype ->
  Bidi.checkContextReady name b = true <->
  exists rs, getContextRanges name (Bidi.tokenizer b) = RangesOf rs.
Proof.
  intros Hname. unfold Bidi.checkContextReady, getContextRanges, getContext, js_property.
  destruct (registeredContexts (Bidi.tokenizer b) !! name) as [c|].
  - split; intros _; eauto.
  - rewrite bool_decide_eq_false_2 by exact Hname.
    split; [discriminate|]. intros [rs Hrs]. discriminate.
Qed.

Section Reversal.
Variable shapers : Bidi.Shapers.

(** The context is not registered: step d does nothing. *)
Lemma applyFeaturesToContexts_unregistered b :
  Bidi.checkContextReady "arabicSentence" b = false ->
  Bidi.applyFeaturesToContexts shapers b = shaping_steps shapers b.
Proof.
  intros Hready.
  pose proof (retoken_shaping_steps shapers b) as Hre.
  rewrite applyFeaturesToContexts_steps. unfold Bidi.bind.
  destruct (shaping_steps shapers b) as [[[]|msg] b1]; [|reflexivity].
  simpl in Hre.
  destruct (retoken_contexts b b1 "arabicSentence" Hre) as [_ Hready1].
  unfold Bidi.when. rewrite Hready1, Hready. reflexivity.
Qed.

(** The context is registered and the shapers have returned: every range
    goes through [reverse_range], in order. *)
Lemma applyFeaturesToContexts_registered b rs b1 :
  getContextRanges "arabicSentence" (Bidi.tokenizer b) = RangesOf rs ->
  shaping_steps shapers b = (Bidi.Returned tt, b1) ->
  Bidi.applyFeaturesToContexts shapers b =
    (Bidi.Returned tt,
     Bidi.set_tokenizer (fold_left Bidi.reverse_range rs (Bidi.tokenizer b1)) b1).
Proof.
  intros Hrs Hsh.
  pose proof (retoken_shaping_steps shapers b) as Hre. rewrite Hsh in Hre. simpl in Hre.
  destruct (retoken_contexts b b1 "arabicSentence" Hre) as [Hrs1 Hready1].
  rewrite applyFeaturesToContexts_steps. unfold Bidi.bind. rewrite Hsh.
  unfold Bidi.when. rewrite Hready1.
  rewrite (proj2 (checkContextReady_ranges "arabicSentence" b arabicSentence_plain)) by eauto.
  unfold Bidi.reverseArabicSentences, Bidi.for_each_range.
  rewrite Hrs1, Hrs. reflexivity.
Qed.

Lemma applyFeaturesToContexts_no_tags b rs :
  getContextRanges "arabicSentence" (Bidi.tokenizer b) = RangesOf rs ->
  Bidi.featuresTags b = ∅ ->
  Bidi.applyFeaturesToContexts shapers b =
    (Bidi.Returned tt,
     Bidi.set_tokenizer (fold_left Bidi.reverse_range rs (Bidi.tokenizer b)) b).
Proof.
  intros Hrs Htags. apply applyFeaturesToContexts_registered; [exact Hrs|].
  apply shaping_steps_no_tags, Htags.
Qed.

(** A range inside the token vector: its tokens are reversed in place. *)
Lemma reverse_range_inside t r off :
  endOffset r = Some off ->
  0 <= startIndex r < len (tokens t) -> 0 <= off ->
  startIndex r + off <= len (tokens t) ->
  getRangeTokens r t = take (Z.to_nat off) (drop (Z.to_nat (startIndex r)) (tokens t)) /\
  tokens (Bidi.reverse_range t r) =
    reverse_segment (Z.to_nat (startIndex r)) (Z.to_nat off) (tokens t).
Proof.
  intros Hoff Hs Hoff0 Hend.
  destruct (reverse_range_tokens t r off Hoff ltac:(lia))
    as [[Hin _]|(_ & dc & Hdc & Hget & Htok)].
  - unfold inboundIndex, num_in_range in Hin. simpl in Hin.
    apply andb_false_iff in Hin as [Hin|Hin];
      [apply Z.leb_gt in Hin|apply Z.ltb_ge in Hin]; lia.
  - replace (Z.to_nat off) with dc by lia. auto.
Qed.

(** C2, as the source has it.  Step d has one gate, the registration of the
    [arabicSentence] context; the requested feature tags play no part in
    it.  When the context is not registered the step does nothing.  When it
    is registered and the shapers of steps a to c have returned, whatever
    tags were requested and also when none was, every [arabicSentence]
    range is handed to [replaceRange] with its own tokens in reverse order;
    for a range inside the token vector the vector afterwards has the
    tokens of the range reversed in place. *)
Theorem reverseArabicSentences_gate (b : Bidi.Bidi) :
  (Bidi.checkContextReady "arabicSentence" b = false ->
   Bidi.applyFeaturesToContexts shapers b = shaping_steps shapers b) /\
  (forall rs b1,
     getContextRanges "arabicSentence" (Bidi.tokenizer b) = RangesOf rs ->
     shaping_steps shapers b = (Bidi.Returned tt, b1) ->
     Bidi.applyFeaturesToContexts shapers b =
       (Bidi.Returned tt,
        Bidi.set_tokenizer (fold_left Bidi.reverse_range rs (Bidi.tokenizer b1)) b1)) /\
  (forall rs,
     getContextRanges "arabicSentence" (Bidi.tokenizer b) = RangesOf rs ->
     Bidi.featuresTags b = ∅ ->
     Bidi.applyFeaturesToContexts shapers b =
       (Bidi.Returned tt,
        Bidi.set_tokenizer (fold_left Bidi.reverse_range rs (Bidi.tokenizer b)) b)) /\
  (forall t r off,
     endOffset r = Some off ->
     0 <= startIndex r < len (tokens t) -> 0 <= off ->
     startIndex r + off <= len (tokens t) ->
     Bidi.reverse_range t r =
       snd (replaceRange (NInt (startIndex r)) (NInt off)
              (ETok <$> rev (getRangeTokens r t)) false t) /\
     getRangeTokens r t = take (Z.to_nat off) (drop (Z.to_nat (startIndex r)) (tokens t)) /\
     tokens (Bidi.reverse_range t r) =
       reverse_segment (Z.to_nat (startIndex r)) (Z.to_nat off) (tokens t)).
Proof.
  split; [apply applyFeaturesToContexts_unregistered|].
  split; [intros rs b1; apply applyFeaturesToContexts_registered|].
  split; [intros rs; apply applyFeaturesToContexts_no_tags|].
  intros t r off Hoff Hs Hoff0 Hend.
  split; [unfold Bidi.reverse_range; rewrite Hoff; reflexivity|].
  apply reverse_range_inside; assumption.
Qed.
End Reversal.

(** C2 with no feature tag requested: on a new Bidi, to which
    [applyFeatures] was never applied, [processText("ab")] reverses the
    range all the same. *)
Lemma reversal_without_feature_tag :
  Bidi.featuresTags (Bidi.Bidi_new "ltr") !! "arab"%string = None /\
  Bidi.featuresTags
    (snd (Bidi.processText ab_sentence_checks no_shapers [97; 98] (Bidi.Bidi_new "ltr")))
    = ∅ /\
  map char (tokens (Bidi.tokenizer
    (Bidi.tokenizeText ab_sentence_checks (Bidi.setText [97; 98] (Bidi.Bidi_new "ltr")))))
    = [[97]; [98]] /\
  map char (tokens (Bidi.tokenizer
    (snd (Bidi.processText ab_sentence_checks no_shapers [97; 98] (Bidi.Bidi_new "ltr")))))
    = [[98]; [97]].
Proof. vm_compute. repeat split. Qed.

(** The same Bidi after [tokenize]: from the theorem, with no tag
    requested, the one range "ab" is reversed. *)
Lemma reverseArabicSentences_gate_witness :
  map char (tokens (Bidi.tokenizer (snd
    (Bidi.applyFeaturesToContexts no_shapers
       (Bidi.tokenizeText ab_sentence_checks
          (Bidi.setText [97; 98] (Bidi.Bidi_new "ltr")))))))
  = [[98]; [97]].
Proof.
  destruct (reverseArabicSentences_gate no_shapers
              (Bidi.tokenizeText ab_sentence_checks
                 (Bidi.setText [97; 98] (Bidi.Bidi_new "ltr"))))
    as (_ & _ & H & _).
  rewrite (H [{| contextName := "arabicSentence"; startIndex := 0;
                 endOffset := Some 2; rangeId := Some "arabicSentence.0" |}]).
  - vm_compute. reflexivity.
  - vm_compute. reflexivity.
  - vm_compute. reflexivity.
Defined.

(** ** getBidiText with no shaping feature *)

Lemma cache_ok_new dir : cache_ok (Bidi.Bidi_new dir).
Proof. intros old H. discriminate. Qed.

Section GetBidiText.
Variable contextChecks : Bidi.ContextChecks.
Variable shapers : Bidi.Shapers.

Lemma tokenizeText_chars b txt :
  Bidi.text b = Some txt ->
  map char (tokens (Bidi.tokenizer (Bidi.tokenizeText contextChecks b))) = array_from txt /\
  ranges_ok (Bidi.tokenizer (Bidi.tokenizeText contextChecks b)).
Proof.
  intros Ht. unfold Bidi.tokenizeText. cbv zeta.
  cbn [Bidi.tokenizer Bidi.set_tokenizer]. split.
  - rewrite chars_tokenize.
    unfold Bidi.registerContextChecker. cbn [Bidi.text Bidi.set_tokenizer].
    rewrite Ht. reflexivity.
  - apply ranges_ok_tokenize.
Qed.

(** With no feature tag requested [processText] returns, and the tokens it
    leaves are those of the text, in some order. *)
Lemma processText_no_tags b txt :
  Bidi.featuresTags b = ∅ -> cache_ok b ->
  fst (Bidi.processText contextChecks shapers txt b) = Bidi.Returned tt /\
  Bidi.featuresTags (snd (Bidi.processText contextChecks shapers txt b)) = ∅ /\
  map char (tokens (Bidi.tokenizer (snd (Bidi.processText contextChecks shapers txt b))))
    ≡ₚ array_from txt /\
  cache_ok (snd (Bidi.processText contextChecks shapers txt b)).
Proof.
  intros Htags Hcache. destruct (Bidi.text_changed txt b) eqn:Hc.
  - rewrite processText_changed by exact Hc.
    set (b2 := Bidi.tokenizeText contextChecks (Bidi.setText txt b)).
    destruct (tokenizeText_chars (Bidi.setText txt b) txt eq_refl) as [Hchars Hok].
    fold b2 in Hchars, Hok.
    assert (Htags2 : Bidi.featuresTags b2 = ∅) by exact Htags.
    assert (Htext2 : Bidi.text b2 = Some txt) by reflexivity.
    destruct (Bidi.checkContextReady "arabicSentence" b2) eqn:Hready.
    + apply (checkContextReady_ranges _ _ arabicSentence_plain) in Hready as [rs Hrs].
      rewrite (applyFeaturesToContexts_no_tags shapers b2 rs Hrs Htags2). cbn [fst snd].
      assert (Hperm : map char (tokens (fold_left Bidi.reverse_range rs (Bidi.tokenizer b2)))
                      ≡ₚ array_from txt).
      { rewrite <- Hchars. apply Permutation_map, reverse_ranges_perm.
        eapply ranges_ok_lookup; eauto. }
      split; [reflexivity|]. split; [exact Htags2|]. split; [exact Hperm|].
      intros old Hold. change (Some txt = Some old) in Hold. injection Hold as <-.
      exact Hperm.
    + rewrite (applyFeaturesToContexts_unregistered shapers b2 Hready),
        (shaping_steps_no_tags shapers b2 Htags2). cbn [fst snd].
      split; [reflexivity|]. split; [exact Htags2|].
      split; [rewrite Hchars; reflexivity|].
      intros old Hold. change (Some txt = Some old) in Hold. injection Hold as <-.
      rewrite Hchars. reflexivity.
  - rewrite processText_unchanged by exact Hc. cbn [fst snd].
    apply text_changed_false in Hc as [Ht _].
    split; [reflexivity|]. split; [exact Htags|]. split; [apply Hcache, Ht|exact Hcache].
Qed.

(** C7, as the source has it.  With no shaping feature registered, for
    every well-formed text, given as the string of its scalar values:
    [tokenize] splits the string into those scalar values, a surrogate pair
    being one token; no step of the pipeline changes the number of tokens;
    and [getBidiText(text)] returns a string with as many code points as
    the text. *)
Theorem getBidiText_code_points (b : Bidi.Bidi) (cps : list Z) :
  Forall (fun cp => is_scalar cp = true) cps ->
  Bidi.featuresTags b = ∅ ->
  cache_ok b ->
  array_from (utf16 cps) = utf16_unit <$> cps /\
  length (tokens (Bidi.tokenizer (Bidi.tokenizeText contextChecks
                                    (Bidi.setText (utf16 cps) b)))) = length cps /\
  length (tokens (Bidi.tokenizer
                    (snd (Bidi.getBidiText contextChecks shapers (utf16 cps) b))))
    = length cps /\
  exists out,
    fst (Bidi.getBidiText contextChecks shapers (utf16 cps) b) = Bidi.Returned out /\
    length (array_from out) = length (array_from (utf16 cps)) /\
    length (array_from out) = length cps /\
    cache_ok (snd (Bidi.getBidiText contextChecks shapers (utf16 cps) b)).
Proof.
  intros Hcps Htags Hcache.
  pose proof (array_from_utf16 cps Hcps) as Hsplit.
  destruct (processText_no_tags b (utf16 cps) Htags Hcache)
    as (Hret & Htags' & Hperm & Hcache').
  assert (Hget : Bidi.getBidiText contextChecks shapers (utf16 cps) b =
                 (Bidi.Returned
                    (getText (Bidi.tokenizer
                       (snd (Bidi.processText contextChecks shapers (utf16 cps) b)))),
                  snd (Bidi.processText contextChecks shapers (utf16 cps) b))).
  { unfold Bidi.getBidiText, Bidi.bind.
    destruct (Bidi.processText contextChecks shapers (utf16 cps) b) as [[[]|msg] b']; 
      [reflexivity|discriminate]. }
  rewrite Hget. cbn [fst snd].
  set (b' := snd (Bidi.processText contextChecks shapers (utf16 cps) b)) in *.
  assert (Hlen : length (tokens (Bidi.tokenizer b')) = length cps).
  { rewrite <- (length_map char), Hperm, Hsplit, length_fmap. reflexivity. }
  assert (Hout : array_from (getText (Bidi.tokenizer b'))
                 = map char (tokens (Bidi.tokenizer b'))).
  { unfold getText. apply array_from_concat.
    rewrite Hperm, Hsplit. apply scalar_chars, Hcps. }
  split; [exact Hsplit|]. split.
  { destruct (tokenizeText_chars (Bidi.setText (utf16 cps) b) (utf16 cps) eq_refl)
      as [Hchars _].
    rewrite <- (length_map char), Hchars, Hsplit, length_fmap. reflexivity. }
  split; [exact Hlen|].
  eexists. split; [reflexivity|].
  rewrite Hout, length_map, Hlen, Hsplit, length_fmap. auto.
Qed.
End GetBidiText.

(** The text "a", U+1F600, "b" on a new Bidi whose sentence check takes
    "a...b" for a sentence: four code units, three code points, three
    tokens and a string of three code points. *)
Lemma getBidiText_code_points_witness :
  array_from (utf16 [97; 128512; 98]) = [[97]; [55357; 56832]; [98]] /\
  exists out,
    fst (Bidi.getBidiText ab_sentence_checks no_shapers (utf16 [97; 128512; 98])
           (Bidi.Bidi_new "ltr")) = Bidi.Returned out /\
    length (array_from out) = 3%nat.
Proof.
  destruct (getBidiText_code_points ab_sentence_checks no_shapers
              (Bidi.Bidi_new "ltr") [97; 128512; 98])
    as (Hsplit & _ & _ & out & Hout & _ & Hlen & _).
  - repeat constructor.
  - reflexivity.
  - intros old Hold. discriminate Hold.
  - split; [exact Hsplit|]. exists out. split; [exact Hout|exact Hlen].
Defined.

Example getBidiText_reversed :
  fst (Bidi.getBidiText ab_sentence_checks no_shapers (utf16 [97; 128512; 98])
         (Bidi.Bidi_new "ltr"))
  = Bidi.Returned [98; 55357; 56832; 97].
Proof. vm_compute. reflexivity. Qed.

(** C7, a text of which the sentence does not hold.  The text "a", a lone
    low surrogate U+DC80, a lone high surrogate U+D83D, "b" has four code
    points and is split into four tokens.  No feature is registered; the
    sentence "a...b" is reversed, which keeps the four tokens and puts the
    high surrogate before the low one: the string returned is "b", U+1F480,
    "a", of three code points. *)
Lemma getBidiText_joins_surrogates :
  Bidi.featuresTags (Bidi.Bidi_new "ltr") = ∅ /\
  length (array_from [97; 56448; 55357; 98]) = 4%nat /\
  length (tokens (Bidi.tokenizer
                    (snd (Bidi.getBidiText ab_sentence_checks no_shapers
                            [97; 56448; 55357; 98] (Bidi.Bidi_new "ltr"))))) = 4%nat /\
  fst (Bidi.getBidiText ab_sentence_checks no_shapers [97; 56448; 55357; 98]
         (Bidi.Bidi_new "ltr"))
  = Bidi.Returned [98; 55357; 56448; 97] /\
  array_from [98; 55357; 56448; 97] = [[98]; [55357; 56448]; [97]].
Proof. vm_compute. repeat split. Qed.

(** ** The events of a tokenizer built through its interface *)

Lemma well_formed_new : well_formed (Tokenizer_new ∅) = true.
Proof. vm_compute. reflexivity. Qed.

Lemma no_open_range_new handlers : no_open_range (Tokenizer_new handlers) = true.
Proof.
  unfold no_open_range. apply bool_decide_eq_true. simpl.
  apply map_Forall_empty.
Qed.

Lemma auto_subscribed_handler e h :
  auto_subscribed e = true -> auto_subscribed (fst (subscribe (SubHandler h) e)) = true.
Proof.
  unfold auto_subscribed. simpl. intros H. apply andb_prop in H as [Hall Hcount].
  rewrite forallb_app, Hall, List.filter_app, length_app. simpl.
  rewrite Nat.add_0_r. exact Hcount.
Qed.

Lemma observers_only_handler e h :
  observers_only e = true -> observers_only (fst (subscribe (SubHandler h) e)) = true.
Proof.
  unfold observers_only. simpl. intros H. rewrite forallb_app, H. reflexivity.
Qed.

(** [on] keeps the events well formed: a caller's handler goes after the
    subscribers already there. *)
Lemma well_formed_on ev h t :
  well_formed t = true -> well_formed (snd (on ev h t)) = true.
Proof.
  unfold on, js_property. destruct (events t !! ev) as [e|] eqn:He;
    [|destruct (bool_decide (ev ∈ object_prototype)); auto].
  destruct h as [h|]; [|auto].
  unfold well_formed. intros H. apply andb_prop in H as [H1 H2].
  rewrite forallb_forall in H1, H2.
  apply andb_true_intro. split; apply forallb_forall; intros x Hx; simpl.
  - specialize (H1 x Hx). destruct (decide (ev = x)) as [->|Hne].
    + rewrite lookup_insert_eq. rewrite He in H1. apply auto_subscribed_handler, H1.
    + rewrite lookup_insert_ne by exact Hne. exact H1.
  - specialize (H2 x Hx). destruct (decide (ev = x)) as [->|Hne].
    + rewrite lookup_insert_eq. rewrite He in H2. apply observers_only_handler, H2.
    + rewrite lookup_insert_ne by exact Hne. exact H2.
Qed.

(** [registerModifier] subscribes to [newToken] alone. *)
Lemma well_formed_registerModifier id condition modifier t :
  well_formed t = true ->
  well_formed (registerModifier id condition modifier t) = true.
Proof.
  unfold registerModifier, subscribe_to. simpl.
  destruct (events t !! "newToken"%string) as [e|]; [|auto].
  unfold well_formed. intros H. apply andb_prop in H as [H1 H2].
  rewrite forallb_forall in H1, H2.
  apply andb_true_intro. split; apply forallb_forall; intros x Hx; simpl.
  - rewrite lookup_insert_ne; [apply H1, Hx|].
    intros <-. repeat (destruct Hx as [Hx|Hx]; [discriminate|]). exact Hx.
  - rewrite lookup_insert_ne; [apply H2, Hx|].
    intros <-. repeat (destruct Hx as [Hx|Hx]; [discriminate|]). exact Hx.
Qed.

Lemma well_formed_registerContextChecker name cs ce t :
  well_formed t = true ->
  well_formed (snd (registerContextChecker name cs ce t)) = true.
Proof.
  unfold registerContextChecker.
  destruct (getContext name t); [auto..|].
  destruct cs; [|auto]. destruct ce; auto.
Qed.

(** The edits and [tokenize] leave the events as they are. *)
Lemma events_edits :
  (forall e t, events (snd (run_edit e t)) = events t) /\
  (forall silent c t, events (snd (call_edit silent c t)) = events t) /\
  (forall RUDs t, events (snd (composeRUD RUDs t)) = events t).
Proof.
  assert (Hrefl : forall t, events t = events t) by reflexivity.
  assert (Htrans : forall t1 t2 t3,
            events t2 = events t1 -> events t3 = events t2 -> events t3 = events t1).
  { intros t1 t2 t3 H1 H2. congruence. }
  assert (Hset : forall l t, events (set_tokens l t) = events t) by reflexivity.
  assert (Hd : forall ev args t, events (dispatch ev args t) = events t).
  { intros ev args t. apply (framed_events _ _ _ (frame_dispatch ev args t)). }
  split; [|split].
  - intros e t.
    apply (run_edit_keeps (fun t t' => events t' = events t) Hrefl Htrans Hset Hd).
  - intros silent c t.
    apply (call_edit_keeps (fun t t' => events t' = events t) Htrans Hset Hd).
  - intros RUDs t.
    apply (composeRUD_keeps (fun t t' => events t' = events t) Hrefl Htrans Hset Hd).
Qed.

Lemma events_run_edit e t : events (snd (run_edit e t)) = events t.
Proof. apply events_edits. Qed.

Lemma well_formed_run_edit e t :
  well_formed t = true -> well_formed (snd (run_edit e t)) = true.
Proof. unfold well_formed. rewrite events_run_edit. auto. Qed.

Lemma events_tokenize text t : events (snd (tokenize text t)) = events t.
Proof.
  unfold tokenize. cbv beta zeta. cbn [snd].
  rewrite (framed_events _ _ _ (frame_dispatch "end" _ _)).
  assert (Hloop : forall n s, events (for_loop n (tokenize_step (array_from text)) s)
                              = events s).
  { intros n s. apply (for_loop_ind (fun s' => events s' = events s)); [|reflexivity].
    intros i s' Hs'. unfold tokenize_step. cbv zeta.
    rewrite (framed_events _ _ _ (frame_dispatch "newToken" _ _)). simpl.
    rewrite (framed_events _ _ _ (frame_runContextCheck _ _)).
    rewrite (framed_events _ _ _ (frame_dispatch "next" _ _)). exact Hs'. }
  rewrite Hloop.
  rewrite (framed_events _ _ _ (frame_dispatch "start" _ _)). reflexivity.
Qed.

(** * Further properties of the tokenizer and the driver *)

(** ** Token: what setState writes *)

(** X1. [setState(k, v)] keeps the character.  For a key other than
    [__proto__] it makes [{k, v}] the active state and [v] the value of
    [state[k]]; a truthy [v] is what [getState(k)] then returns, and the
    other keys read as before.  For the key [__proto__], on a token whose
    state object has the prototype of [{}] and no such own property, a
    value that is neither [null] nor an array is not stored: every key
    reads as before and the active state holds [Object.prototype]. *)
Theorem setState_then_getState (tok : Token) (k k' : string) (v : JsVal) :
  char (setState k v tok) = char tok /\
  (k <> "__proto__"%string ->
   activeState (setState k v tok) = Some (k, Value v) /\
   state_get (setState k v tok) k = Value v /\
   (truthy v = true -> getState k (setState k v tok) = Value v) /\
   (k' <> k -> getState k' (setState k v tok) = getState k' tok)) /\
  (state tok !! "__proto__"%string = None -> statePrototype tok = ProtoObject ->
   v <> VNull -> (forall l, v <> VArr l) ->
   activeState (setState "__proto__" v tok)
   = Some ("__proto__"%string, Runtime "Object.prototype") /\
   forall key, getState key (setState "__proto__" v tok) = getState key tok).
Proof.
  split; [apply char_setState|]. split.
  - intros Hk. split; [apply activeState_setState, Hk|].
    split; [apply state_get_setState, Hk|]. split.
    + intros Hv. unfold getState. rewrite state_get_setState by exact Hk.
      cbn [truthy_read]. rewrite Hv. reflexivity.
    + intros Hne. unfold getState. rewrite state_get_setState_other by assumption.
      reflexivity.
  - intros Hown Hproto Hnull Harr.
    assert (Hset : state_set "__proto__" v tok = tok).
    { unfold state_set. rewrite decide_True by reflexivity. rewrite Hown, Hproto.
      destruct v; try reflexivity; [contradiction|exfalso; eapply Harr; reflexivity]. }
    unfold setState. rewrite Hset. cbn [activeState]. split.
    + unfold state_get. rewrite Hown, Hproto. reflexivity.
    + intros key. reflexivity.
Qed.

(** A glyph index of 7 written after a form: the form is still read. *)
Lemma setState_then_getState_witness :
  getState "glyphIndex"
    (setState "glyphIndex" (VNum 7) (setState "form" (VStr "init") (Token_new [97])))
    = Value (VNum 7) /\
  getState "form"
    (setState "glyphIndex" (VNum 7) (setState "form" (VStr "init") (Token_new [97])))
    = Value (VStr "init") /\
  activeState (setState "__proto__" (VNum 7) (Token_new [97]))
    = Some ("__proto__"%string, Runtime "Object.prototype").
Proof.
  destruct (setState_then_getState (setState "form" (VStr "init") (Token_new [97]))
              "glyphIndex" "form" (VNum 7)) as (_ & H & _).
  destruct H as (_ & _ & H1 & H2); [discriminate|].
  destruct (setState_then_getState (Token_new [97]) "__proto__" "form" (VNum 7))
    as (_ & _ & H3).
  destruct H3 as [H3 _]; [reflexivity|reflexivity|discriminate|discriminate|].
  split; [apply H1; reflexivity|]. split; [|exact H3].
  rewrite H2 by discriminate. reflexivity.
Defined.

(** ** ContextParams: the three parts of the context *)

Section ContextParamsParts.
Context {A : Type}.
Implicit Types ctx : list A.

(** X2. At an index of the context the backtrack, the current item and the
    lookahead are the context cut in three: the backtrack has [i] items and
    the lookahead the rest.  At an index beyond the end there is no current
    item, the backtrack is the whole context and the lookahead is empty. *)
Theorem ContextParams_parts ctx i :
  (0 <= i < len ctx ->
   exists c, current (ContextParams_new ctx i) = Some c /\
             ctx = backtrack (ContextParams_new ctx i) ++ c
                     :: lookahead (ContextParams_new ctx i) /\
             len (backtrack (ContextParams_new ctx i)) = i /\
             len (lookahead (ContextParams_new ctx i)) = len ctx - 1 - i) /\
  (len ctx <= i ->
   current (ContextParams_new ctx i) = None /\
   backtrack (ContextParams_new ctx i) = ctx /\
   lookahead (ContextParams_new ctx i) = []).
Proof.
  split.
  - intros Hi. rewrite backtrack_new, lookahead_new by lia.
    cbn [current ContextParams_new]. rewrite js_index_lookup by lia.
    destruct (lookup_lt_is_Some_2 ctx (Z.to_nat i)) as [c Hc];
      [unfold len in Hi; lia|].
    exists c. split; [exact Hc|]. split.
    + replace (Z.to_nat (i + 1)) with (S (Z.to_nat i)) by lia.
      rewrite <- (take_drop_middle _ _ _ Hc) at 1. reflexivity.
    + rewrite len_take by (unfold len in Hi; lia). rewrite len_drop.
      unfold len in *. lia.
  - intros Hi. pose proof (len_nonneg ctx) as Hlen. cbn [current backtrack lookahead ContextParams_new].
    split; [|split].
    + rewrite js_index_lookup by lia. apply lookup_ge_None. unfold len in *. lia.
    + unfold js_slice, clamp_index.
      destruct (Z.ltb_spec 0 0); [lia|]. destruct (Z.ltb_spec i 0); [lia|].
      replace (Z.min 0 (len ctx)) with 0 by lia.
      replace (Z.min i (len ctx)) with (len ctx) by lia.
      rewrite Z.sub_0_r. unfold len. rewrite Nat2Z.id. simpl. apply firstn_all.
    + unfold js_slice, clamp_index.
      destruct (Z.ltb_spec (i + 1) 0); [lia|].
      replace (Z.min (i + 1) (len ctx)) with (len ctx) by lia.
      rewrite Z.sub_diag. reflexivity.
Qed.
End ContextParamsParts.

Lemma ContextParams_parts_witness :
  current (ContextParams_new [1; 2; 3; 4; 5] 2) = Some 3 /\
  backtrack (ContextParams_new [1; 2; 3; 4; 5] 2) = [1; 2] /\
  lookahead (ContextParams_new [1; 2; 3; 4; 5] 2) = [4; 5] /\
  backtrack (ContextParams_new [1; 2; 3; 4; 5] 9) = [1; 2; 3; 4; 5].
Proof.
  destruct (ContextParams_parts [1; 2; 3; 4; 5] 2) as [H _].
  destruct H as (c & Hc & _ & _ & _); [vm_compute; split; congruence|].
  destruct (ContextParams_parts [1; 2; 3; 4; 5] 9) as [_ H].
  destruct H as (_ & Hb & _); [vm_compute; congruence|].
  split; [reflexivity|]. split; [reflexivity|]. split; [reflexivity|exact Hb].
Defined.

(** ** Event: subscription handles *)

Lemma js_splice_one {A} (l : list A) (i : nat) :
  (i < length l)%nat ->
  snd (js_splice l (NInt (Z.of_nat i)) (NInt 1) []) = take i l ++ drop (S i) l.
Proof.
  intros Hi. unfold js_splice. cbn [snd to_integer to_number].
  rewrite clamp_index_inside by (unfold len; lia).
  replace (Z.min (Z.max 1 0) (len l - Z.of_nat i)) with 1 by (unfold len; lia).
  rewrite Nat2Z.id. simpl. f_equal. f_equal. lia.
Qed.

(** X3. [subscribe] returns the index the handler is stored at, the number
    of subscribers before it, and [unsubscribe] of that index right away
    gives the event back. *)
Theorem unsubscribe_subscribe (h : Subscriber) (e : Event) :
  snd (subscribe h e) = len (subscribers e) /\
  subscribers (fst (subscribe h e)) !! length (subscribers e) = Some h /\
  unsubscribe (NInt (snd (subscribe h e))) (fst (subscribe h e)) = e.
Proof.
  split; [reflexivity|]. split.
  - simpl. rewrite lookup_app_r by lia. rewrite Nat.sub_diag. reflexivity.
  - unfold unsubscribe, subscribe. cbn [fst snd eventId subscribers]. unfold len.
    rewrite js_splice_one by (rewrite length_app; simpl; lia).
    rewrite take_app_length.
    rewrite drop_ge by (rewrite length_app; simpl; lia).
    rewrite app_nil_r. destruct e. reflexivity.
Qed.

(** X4. [unsubscribe(i)] at an index of the list removes that subscriber
    alone: the ones before it keep their index and the ones after it move
    down by one, so that the index [subscribe] returned for them is stale.
    An index at or beyond the end removes nothing, and a negative index
    counts from the end: [unsubscribe(-1)] removes the last subscriber. *)
Theorem unsubscribe_shifts (e : Event) (i : nat) :
  ((i < length (subscribers e))%nat ->
   length (subscribers (unsubscribe (NInt (Z.of_nat i)) e))
     = (length (subscribers e) - 1)%nat /\
   (forall j, (j < i)%nat ->
      subscribers (unsubscribe (NInt (Z.of_nat i)) e) !! j = subscribers e !! j) /\
   (forall j, (i <= j)%nat ->
      subscribers (unsubscribe (NInt (Z.of_nat i)) e) !! j = subscribers e !! S j)) /\
  ((length (subscribers e) <= i)%nat ->
   unsubscribe (NInt (Z.of_nat i)) e = e) /\
  (subscribers e <> [] ->
   subscribers (unsubscribe (NInt (-1)) e)
     = take (length (subscribers e) - 1) (subscribers e)).
Proof.
  split; [|split].
  - intros Hi. unfold unsubscribe. cbn [subscribers].
    rewrite js_splice_one by exact Hi. split; [|split].
    + rewrite length_app, length_take, length_drop. lia.
    + intros j Hj. rewrite lookup_app_l by (rewrite length_take; lia).
      apply lookup_take_lt. exact Hj.
    + intros j Hj. rewrite lookup_app_r by (rewrite length_take; lia).
      rewrite length_take, lookup_drop. f_equal. lia.
  - intros Hi. unfold unsubscribe, js_splice. cbn [snd to_integer to_number].
    unfold clamp_index. destruct (Z.ltb_spec (Z.of_nat i) 0); [lia|].
    replace (Z.min (Z.of_nat i) (len (subscribers e))) with (len (subscribers e))
      by (unfold len; lia).
    rewrite Z.sub_diag. unfold len. simpl. rewrite Z.add_0_r, Nat2Z.id.
    rewrite firstn_all, drop_all, app_nil_r. destruct e. reflexivity.
  - intros Hne. unfold unsubscribe, js_splice. cbn [snd to_integer to_number subscribers].
    assert (Hlen : (0 < length (subscribers e))%nat).
    { destruct (subscribers e); [contradiction|simpl; lia]. }
    unfold clamp_index. destruct (Z.ltb_spec (-1) 0); [|lia].
    replace (Z.max (len (subscribers e) + -1) 0) with (len (subscribers e) - 1)
      by (unfold len; lia).
    replace (Z.min (Z.max 1 0) (len (subscribers e) - (len (subscribers e) - 1)))
      with 1 by lia.
    replace (len (subscribers e) - 1 + 1) with (len (subscribers e)) by lia.
    unfold len. rewrite Nat2Z.id, drop_all. simpl. rewrite app_nil_r.
    f_equal. lia.
Qed.

(** Three handlers; the first unsubscribed, the third answers at index 1;
    [unsubscribe(-1)] drops the third. *)
Lemma unsubscribe_shifts_witness :
  subscribers (unsubscribe (NInt 0)
     {| eventId := "next"; subscribers := [SubHandler 1; SubHandler 2; SubHandler 3] |})
    !! 1%nat = Some (SubHandler 3) /\
  subscribers (unsubscribe (NInt (-1))
     {| eventId := "next"; subscribers := [SubHandler 1; SubHandler 2; SubHandler 3] |})
    = [SubHandler 1; SubHandler 2].
Proof.
  destruct (unsubscribe_shifts
              {| eventId := "next";
                 subscribers := [SubHandler 1; SubHandler 2; SubHandler 3] |} 0)
    as (H1 & _ & H3).
  split.
  - destruct H1 as (_ & _ & H); [simpl; lia|].
    exact (H 1%nat ltac:(lia)).
  - apply H3. discriminate.
Defined.

(** ** The events of a new tokenizer *)

Lemma fold_left_ext {S X} (f g : S -> X -> S) (l : list X) (s : S) :
  (forall s x, f s x = g s x) -> fold_left f l s = fold_left g l s.
Proof.
  intros Hfg. revert s. induction l as [|x l IH]; intros s; simpl; [reflexivity|].
  rewrite Hfg. apply IH.
Qed.

Lemma subscribe_to_alter id h (evs : gmap string Event) :
  subscribe_to id h evs = alter (fun e => fst (subscribe h e)) id evs.
Proof.
  unfold subscribe_to. apply map_eq. intros j.
  destruct (evs !! id) as [e|] eqn:He.
  - destruct (decide (id = j)) as [<-|Hne].
    + rewrite lookup_insert_eq, lookup_alter_eq, He. reflexivity.
    + rewrite lookup_insert_ne, lookup_alter_ne by exact Hne. reflexivity.
  - rewrite alter_id'; [reflexivity|exact He].
Qed.

Lemma lookup_fold_new (l : list string) (m : gmap string Event) n :
  fold_left (fun m id => <[id := Event_new id]> m) l m !! n
  = if decide (n ∈ l) then Some (Event_new n) else m !! n.
Proof.
  revert m. induction l as [|id l IH]; intros m; simpl.
  - destruct (decide (n ∈ [])) as [Hin|_]; [inversion Hin|reflexivity].
  - rewrite IH. destruct (decide (n ∈ l)) as [Hin|Hnin].
    + rewrite decide_True by (right; exact Hin). reflexivity.
    + destruct (decide (id = n)) as [->|Hne].
      * rewrite lookup_insert_eq, decide_True by left. reflexivity.
      * rewrite lookup_insert_ne by exact Hne. rewrite decide_False; [reflexivity|].
        intros Hin. apply elem_of_cons in Hin as [Heq|Hin]; [|contradiction].
        apply Hne. symmetry. exact Heq.
Qed.

Lemma lookup_fold_alter {V} (g : string -> V -> V) (l : list string)
    (m : gmap string V) n :
  NoDup l ->
  fold_left (fun m id => alter (g id) id m) l m !! n
  = if decide (n ∈ l) then g n <$> m !! n else m !! n.
Proof.
  intros Hnd. revert m. induction Hnd as [|id l Hid _ IH]; intros m; simpl.
  - destruct (decide (n ∈ [])) as [Hin|_]; [inversion Hin|reflexivity].
  - rewrite IH. destruct (decide (id = n)) as [->|Hne].
    + rewrite decide_False by exact Hid. rewrite decide_True by left.
      apply lookup_alter_eq.
    + rewrite lookup_alter_ne by exact Hne.
      destruct (decide (n ∈ l)) as [Hin|Hnin].
      * rewrite decide_True by (right; exact Hin). reflexivity.
      * rewrite decide_False; [reflexivity|].
        intros Hin. apply elem_of_cons in Hin as [Heq|Hin]; [|contradiction].
        apply Hne. symmetry. exact Heq.
Qed.

Lemma requiresContextUpdate_core n : n ∈ requiresContextUpdate -> n ∈ coreEvents.
Proof.
  unfold requiresContextUpdate, coreEvents. intros H.
  repeat (apply elem_of_cons in H as [->|H]; [repeat constructor|]).
  inversion H.
Qed.

Lemma NoDup_coreEvents : NoDup coreEvents.
Proof. refine (bool_decide_unpack (NoDup coreEvents) _). vm_compute. exact I. Qed.

Lemma NoDup_requiresContextUpdate : NoDup requiresContextUpdate.
Proof. refine (bool_decide_unpack (NoDup requiresContextUpdate) _). vm_compute. exact I. Qed.

(** The events [new Tokenizer(handlers)] has: the thirteen core events and
    no other, each with the subscribers of [constructor_subscribers]. *)
Lemma Tokenizer_new_lookup handlers n :
  events (Tokenizer_new handlers) !! n =
  if bool_decide (n ∈ coreEvents)
  then Some {| eventId := n; subscribers := constructor_subscribers handlers n |}
  else None.
Proof.
  unfold Tokenizer_new, initializeCoreEvents. cbn [events].
  rewrite (fold_left_ext
             (fun m id => subscribe_to id SubUpdateContextsRanges m)
             (fun m id => alter ((fun _ e => fst (subscribe SubUpdateContextsRanges e)) id) id m))
    by (intros; apply subscribe_to_alter).
  rewrite lookup_fold_alter by exact NoDup_requiresContextUpdate.
  rewrite (fold_left_ext
             (fun m id => match handlers !! id with
                          | Some h => subscribe_to id (SubHandler h) m
                          | None => m
                          end)
             (fun m id => alter ((fun id e => match handlers !! id with
                                              | Some h => fst (subscribe (SubHandler h) e)
                                              | None => e
                                              end) id) id m)).
  2:{ intros m id. destruct (handlers !! id) as [h|].
      - apply subscribe_to_alter.
      - symmetry. apply alter_id. reflexivity. }
  rewrite lookup_fold_alter by exact NoDup_coreEvents.
  rewrite lookup_fold_new, lookup_empty.
  unfold constructor_subscribers.
  destruct (decide (n ∈ coreEvents)) as [Hcore|Hcore].
  - rewrite bool_decide_eq_true_2 by exact Hcore.
    destruct (decide (n ∈ requiresContextUpdate)) as [Hreq|Hreq].
    + rewrite bool_decide_eq_true_2 by exact Hreq.
      destruct (handlers !! n); reflexivity.
    + rewrite bool_decide_eq_false_2 by exact Hreq.
      destruct (handlers !! n); simpl; rewrite ?app_nil_r; reflexivity.
  - rewrite bool_decide_eq_false_2 by exact Hcore.
    destruct (decide (n ∈ requiresContextUpdate)) as [Hreq|Hreq]; [|reflexivity].
    exfalso. apply Hcore, requiresContextUpdate_core, Hreq.
Qed.

Lemma well_formed_Tokenizer_new handlers : well_formed (Tokenizer_new handlers) = true.
Proof.
  unfold well_formed. apply andb_true_intro. split; apply forallb_forall; intros n Hn;
    apply list_elem_of_In in Hn; rewrite Tokenizer_new_lookup.
  - rewrite bool_decide_eq_true_2 by (apply requiresContextUpdate_core, Hn).
    unfold auto_subscribed, constructor_subscribers. cbn [subscribers].
    rewrite bool_decide_eq_true_2 by exact Hn.
    destruct (handlers !! n); reflexivity.
  - assert (Hcore : n ∈ coreEvents).
    { unfold rangeEvents, coreEvents in *.
      repeat (apply elem_of_cons in Hn as [->|Hn]; [repeat constructor|]).
      inversion Hn. }
    rewrite bool_decide_eq_true_2 by exact Hcore.
    unfold observers_only, constructor_subscribers. cbn [subscribers].
    rewrite bool_decide_eq_false_2.
    + destruct (handlers !! n); reflexivity.
    + intros Hreq. exact (mutating_not_range n Hreq Hn).
Qed.

(** X5. Whatever handlers the constructor is given, the new tokenizer has
    the thirteen core events and no other; each mutating event holds the
    caller's handler, if any, and after it the one [updateContextsRanges];
    the other events hold the caller's handler alone.  The events are those
    [well_formed] asks for. *)
Theorem Tokenizer_new_events (handlers : gmap string nat) :
  (forall n, n ∉ coreEvents -> events (Tokenizer_new handlers) !! n = None) /\
  (forall n, n ∈ coreEvents ->
     events (Tokenizer_new handlers) !! n =
       Some {| eventId := n; subscribers := constructor_subscribers handlers n |}) /\
  (forall n h, handlers !! n = Some h -> n ∈ requiresContextUpdate ->
     constructor_subscribers handlers n = [SubHandler h; SubUpdateContextsRanges]) /\
  well_formed (Tokenizer_new handlers) = true.
Proof.
  split; [|split; [|split]].
  - intros n Hn. rewrite Tokenizer_new_lookup, bool_decide_eq_false_2 by exact Hn.
    reflexivity.
  - intros n Hn. rewrite Tokenizer_new_lookup, bool_decide_eq_true_2 by exact Hn.
    reflexivity.
  - intros n h Hh Hn. unfold constructor_subscribers.
    rewrite Hh, bool_decide_eq_true_2 by exact Hn. reflexivity.
  - apply well_formed_Tokenizer_new.
Qed.

Lemma Tokenizer_new_events_witness :
  constructor_subscribers {["removeToken"%string := 4%nat]} "removeToken"
  = [SubHandler 4; SubUpdateContextsRanges].
Proof.
  destruct (Tokenizer_new_events {["removeToken"%string := 4%nat]}) as (_ & _ & H & _).
  apply H; [reflexivity|repeat constructor].
Defined.

(** ** Order of the handlers *)

Lemma fold_invoke_trace upd ev args (P : TraceEntry -> Prop) subs t :
  frame P upd -> (forall h a, P (Invoked ev h a)) ->
  exists d, trace (fold_left (invoke upd ev args) subs t) = trace t ++ d /\ Forall P d.
Proof.
  intros Hupd HP.
  apply (framed_trace P t _
           (frame_fold P (invoke upd ev args) subs
              (fun sub => frame_invoke P upd ev args sub Hupd HP) t)).
Qed.

(** X6. [on(name, fn)] on a name that is not an event returns [null],
    unless the name is one the events object inherits from
    [Object.prototype] ([toString], [constructor], [__proto__], ...): then
    it throws a TypeError, the member found having no [subscribe].  On an
    event with something that is not a function it returns a FAIL record.
    In these three cases nothing changes.  With a function it returns the
    number of subscribers the event had, and at the next dispatch of the
    event the handler is invoked last: after the handlers subscribed
    before it and, for a mutating event of a well-formed tokenizer, after
    the one [updateContextsRanges]. *)
Theorem on_handler_runs_last (t : Tokenizer) (ev : string) (h : nat) (args : EventArgs) :
  (events t !! ev = None -> forall fn,
     on ev fn t =
       (if bool_decide (ev ∈ object_prototype)
        then OnTypeError "event.subscribe is not a function"
        else OnNull, t)) /\
  (forall e, events t !! ev = Some e ->
     on ev None t = (OnFail ("invalid '" +:+ eventId e +:+ "' event handler"), t) /\
     fst (on ev (Some h) t) = OnIndex (len (subscribers e)) /\
     (plain args = true ->
      exists d,
        trace (dispatch ev args (snd (on ev (Some h) t)))
        = trace t ++ Dispatched ev args :: d ++ [Invoked ev h args] /\
        (well_formed t = true -> ev ∈ requiresContextUpdate ->
         dispatches "updateContextsRanges" d = 1%nat))).
Proof.
  split.
  - intros He fn. unfold on, js_property. rewrite He.
    destruct (bool_decide (ev ∈ object_prototype)); reflexivity.
  - intros e He. unfold on, js_property. rewrite He. cbn [subscribe fst snd].
    split; [reflexivity|]. split; [reflexivity|].
    intros Hp.
    set (t' := set_events _ t).
    assert (He' : events t' !! ev
                  = Some {| eventId := eventId e;
                            subscribers := subscribers e ++ [SubHandler h] |}).
    { subst t'. simpl. apply lookup_insert_eq. }
    assert (Hdisp : dispatch ev args t'
                    = log (Invoked ev h args)
                        (fold_left (invoke updateContextsRanges ev args) (subscribers e)
                           (log (Dispatched ev args) t'))).
    { unfold dispatch, dispatch_with. cbn [events log]. rewrite He'. cbn [subscribers].
      rewrite fold_left_app. simpl. rewrite live_args_plain by exact Hp. reflexivity. }
    destruct (fold_invoke_trace updateContextsRanges ev args (dispatch_entry ev)
                (subscribers e) (log (Dispatched ev args) t')) as (d & Hd & HP).
    { apply (frame_weaken range_entry); [|apply frame_updateContextsRanges].
      intros x Hx. right. exact Hx. }
    { intros h' a. left. apply list_elem_of_here. }
    exists d. split.
    + rewrite Hdisp. simpl. rewrite Hd. simpl. rewrite <- !app_assoc. reflexivity.
    + intros Hwf Hev.
      assert (Hwf' : well_formed t' = true) by (apply (well_formed_on ev (Some h) t) in Hwf;
        unfold on, js_property in Hwf; rewrite He in Hwf; exact Hwf).
      destruct (well_formed_event t' ev Hwf' Hev) as (e2 & He2 & Hauto).
      destruct (dispatch_trace_auto ev args t' e2 He2 Hauto Hp (mutating_not_range _ Hev))
        as (d0 & Hd0 & Hone).
      assert (Heq : d0 = Dispatched ev args :: d ++ [Invoked ev h args]).
      { apply (app_inv_head (trace t')). rewrite <- Hd0, Hdisp. simpl. rewrite Hd. simpl.
        rewrite <- !app_assoc. reflexivity. }
      pose proof (one_update_count _ _ _ Hone) as Hcount.
      rewrite Heq, dispatches_cons, dispatches_app in Hcount.
      unfold dispatches at 2 in Hcount. simpl in Hcount.
      assert (Hne : ev <> "updateContextsRanges"%string).
      { intros ->. apply (mutating_not_range _ Hev). repeat constructor. }
      rewrite bool_decide_eq_false_2 in Hcount by exact Hne. lia.
Qed.

Lemma on_handler_runs_last_witness :
  exists d,
    trace (dispatch "removeToken" (ARemoveToken [] (NInt 0))
             (snd (on "removeToken" (Some 5%nat) (Tokenizer_new ∅))))
    = trace (Tokenizer_new ∅) ++
      Dispatched "removeToken" (ARemoveToken [] (NInt 0)) :: d
        ++ [Invoked "removeToken" 5 (ARemoveToken [] (NInt 0))] /\
    dispatches "updateContextsRanges" d = 1%nat.
Proof.
  destruct (on_handler_runs_last (Tokenizer_new ∅) "removeToken" 5
              (ARemoveToken [] (NInt 0))) as [_ H].
  destruct (H {| eventId := "removeToken"; subscribers := [SubUpdateContextsRanges] |})
    as (_ & _ & H3); [vm_compute; reflexivity|].
  destruct (H3 eq_refl) as (d & Hd & Hcount).
  exists d. split; [exact Hd|]. apply Hcount; [reflexivity|repeat constructor].
Defined.

(** X7. A handler handed to the constructor for a mutating event is the
    first subscriber of the event: at a dispatch it is invoked before
    [updateContextsRanges] runs, that is, on the ranges of before the
    edit. *)
Theorem constructor_handler_runs_first (handlers : gmap string nat) (t : Tokenizer)
    (ev : string) (h : nat) (args : EventArgs) :
  events t = events (Tokenizer_new handlers) ->
  handlers !! ev = Some h -> ev ∈ requiresContextUpdate -> plain args = true ->
  exists d,
    trace (dispatch ev args t)
    = trace t ++ Dispatched ev args :: Invoked ev h args :: d /\
    dispatches "updateContextsRanges" d = 1%nat /\
    Forall range_entry d.
Proof.
  intros Hev Hh Hreq Hp.
  assert (He : events t !! ev
               = Some {| eventId := ev;
                         subscribers := [SubHandler h; SubUpdateContextsRanges] |}).
  { rewrite Hev, Tokenizer_new_lookup.
    rewrite bool_decide_eq_true_2 by (apply requiresContextUpdate_core, Hreq).
    unfold constructor_subscribers.
    rewrite Hh, bool_decide_eq_true_2 by exact Hreq. reflexivity. }
  unfold dispatch, dispatch_with. cbn [events log]. rewrite He. cbn [subscribers fold_left invoke].
  rewrite live_args_plain by exact Hp.
  destruct (updateContextsRanges_trace
              (log (Invoked ev h args) (log (Dispatched ev args) t)))
    as (d & a & hs & Htr & Hctx & Hhs).
  exists (d ++ Dispatched "updateContextsRanges" a :: hs).
  split; [rewrite Htr; simpl; rewrite <- !app_assoc; reflexivity|]. split.
  - rewrite dispatches_app, dispatches_cons.
    rewrite (dispatches_invocations _ _ hs Hhs).
    rewrite (dispatches_named "updateContextsRanges" ["contextStart"; "contextEnd"]%string d);
      [reflexivity| |exact Hctx].
    intros Hin. repeat (apply elem_of_cons in Hin as [Hin|Hin]; [discriminate|]).
    inversion Hin.
  - apply Forall_app. split.
    + eapply Forall_impl; [exact Hctx|]. intros x. apply context_entry_range.
    + constructor; [repeat constructor|].
      eapply Forall_impl; [exact Hhs|]. intros x Hx.
      apply invocation_named in Hx. unfold range_entry, named in *.
      apply list_elem_of_singleton in Hx. rewrite Hx. repeat constructor.
Qed.

Lemma constructor_handler_runs_first_witness :
  exists d,
    trace (dispatch "removeToken" (ARemoveToken [] (NInt 0))
             (Tokenizer_new {["removeToken"%string := 4%nat]}))
    = trace (Tokenizer_new {["removeToken"%string := 4%nat]}) ++
      Dispatched "removeToken" (ARemoveToken [] (NInt 0))
        :: Invoked "removeToken" 4 (ARemoveToken [] (NInt 0)) :: d /\
    dispatches "updateContextsRanges" d = 1%nat.
Proof.
  destruct (constructor_handler_runs_first {["removeToken"%string := 4%nat]}
              (Tokenizer_new {["removeToken"%string := 4%nat]}) "removeToken" 4
              (ARemoveToken [] (NInt 0)) eq_refl) as (d & Hd & Hc & _).
  - vm_compute. reflexivity.
  - repeat constructor.
  - reflexivity.
  - exists d. split; [exact Hd|exact Hc].
Defined.

(** ** The five edits, one by one *)

Lemma js_splice_at {A} (l : list A) (i : nat) (items : list A) :
  (i < length l)%nat ->
  js_splice l (NInt (Z.of_nat i)) (NInt 1) items =
    (take 1 (drop i l), take i l ++ items ++ drop (S i) l).
Proof.
  intros Hi. unfold js_splice. cbn [to_integer to_number].
  rewrite clamp_index_inside by (unfold len; lia).
  replace (Z.min (Z.max 1 0) (len l - Z.of_nat i)) with 1 by (unfold len; lia).
  rewrite Nat2Z.id. simpl. f_equal. f_equal. f_equal. f_equal. lia.
Qed.

Lemma take_1_drop {A} (l : list A) (i : nat) (a : A) :
  l !! i = Some a -> take 1 (drop i l) = [a].
Proof.
  intros Ha. rewrite (drop_S l a i Ha). reflexivity.
Qed.

Lemma num_in_range_spec (n : JsNum) (k : Z) :
  negb (isNaN n) && num_in_range n k = true <->
  exists z, to_number n = Some z /\ 0 <= z < k.
Proof.
  unfold isNaN, num_in_range. destruct (to_number n) as [z|]; simpl.
  - split.
    + intros H. apply andb_prop in H as [H1 H2]. exists z. split; [reflexivity|]. lia.
    + intros (z' & Hz & Hr). injection Hz as <-. apply andb_true_intro. split; lia.
  - split; [discriminate|]. intros (z & Hz & _). discriminate.
Qed.

Lemma silent_or_dispatched_tokens silent ev args t :
  plain args = true ->
  tokens (if negb silent then dispatch ev args t else t) = tokens t.
Proof.
  intros Hp. destruct silent; simpl; [reflexivity|]. apply tokens_dispatch, Hp.
Qed.

(** X8. [removeToken(index)] returns a FAIL record, and changes nothing,
    exactly when the index is not a number of [0 .. length-1] ([null]
    counting as 0).  Otherwise it returns the one token at the index in an
    array, and the token vector is the old one without that position. *)
Theorem removeToken_removes_one (t : Tokenizer) (i : JsNum) (silent : bool) :
  let r := removeToken i silent t in
  (hasFAILObject (fst r) = true <->
   ~ exists z, to_number i = Some z /\ 0 <= z < len (tokens t)) /\
  (hasFAILObject (fst r) = true -> snd r = t) /\
  (forall z, to_number i = Some z -> 0 <= z < len (tokens t) ->
     exists tok, tokens t !! Z.to_nat z = Some tok /\
       fst r = RTokens [tok] /\
       tokens (snd r) = take (Z.to_nat z) (tokens t) ++ drop (S (Z.to_nat z)) (tokens t) /\
       len (tokens (snd r)) = len (tokens t) - 1).
Proof.
  intros r. subst r. unfold removeToken, inboundIndex.
  destruct (negb (isNaN i) && num_in_range i (len (tokens t))) eqn:Hok.
  - apply num_in_range_spec in Hok as Hz. destruct Hz as (z & Hz & Hr).
    assert (Hi : to_integer i = to_integer (NInt z))
      by (unfold to_integer; rewrite Hz; reflexivity).
    assert (Hlt : (Z.to_nat z < length (tokens t))%nat) by (unfold len in Hr; lia).
    destruct (lookup_lt_is_Some_2 _ _ Hlt) as [tok Htok].
    assert (Hsp : js_splice (tokens t) i (NInt 1) []
                  = ([tok], take (Z.to_nat z) (tokens t) ++ drop (S (Z.to_nat z)) (tokens t))).
    { transitivity (js_splice (tokens t) (NInt (Z.of_nat (Z.to_nat z))) (NInt 1) []).
      - rewrite Z2Nat.id by lia. unfold js_splice. rewrite Hi. reflexivity.
      - rewrite js_splice_at by exact Hlt. rewrite (take_1_drop _ _ _ Htok). reflexivity. }
    rewrite Hsp. cbn [fst snd]. split; [|split].
    + split; [discriminate|]. intros Hno. exfalso. apply Hno. exists z. auto.
    + discriminate.
    + intros z' Hz' _. rewrite Hz in Hz'. injection Hz' as <-.
      exists tok. split; [exact Htok|]. split; [reflexivity|].
      rewrite silent_or_dispatched_tokens by reflexivity. cbn [set_tokens tokens].
      split; [reflexivity|].
      unfold len. rewrite length_app, length_take, length_drop. lia.
  - cbn [fst snd hasFAILObject]. split; [|split].
    + split; [|reflexivity]. intros _ Hz. apply num_in_range_spec in Hz. congruence.
    + reflexivity.
    + intros z Hz Hr. exfalso.
      assert (H : negb (isNaN i) && num_in_range i (len (tokens t)) = true)
        by (apply num_in_range_spec; exists z; auto).
      congruence.
Qed.

Lemma removeToken_removes_one_witness :
  exists tok, tokens (tokenizer_of [97; 98; 99]) !! Z.to_nat 1 = Some tok /\
    fst (removeToken (NInt 1) false (tokenizer_of [97; 98; 99])) = RTokens [tok] /\
    len (tokens (snd (removeToken (NInt 1) false (tokenizer_of [97; 98; 99])))) = 3 - 1.
Proof.
  destruct (removeToken_removes_one (tokenizer_of [97; 98; 99]) (NInt 1) false)
    as (_ & _ & H).
  assert (Hb : 0 <= 1 < len (tokens (tokenizer_of [97; 98; 99])))
    by (vm_compute; split; [discriminate|reflexivity]).
  destruct (H 1 eq_refl Hb) as (tok & Htok & Hr & _ & Hlen).
  exists tok. split; [exact Htok|]. split; [exact Hr|exact Hlen].
Defined.

(** X9. [replaceToken(index, token)] with a Token and an index in bounds
    writes the token at the index and nowhere else: the token vector is the
    old one updated at that position, as long as before, and the call
    returns the token that was there together with the new one.  With an
    index that is not a number in bounds, or something that is not a Token,
    it returns a FAIL record and changes nothing. *)
Theorem replaceToken_updates_one (t : Tokenizer) (i : JsNum) (token : Elem)
    (silent : bool) :
  let r := replaceToken i token silent t in
  (hasFAILObject (fst r) = true <->
   ~ ((exists z, to_number i = Some z /\ 0 <= z < len (tokens t)) /\
      instanceof_Token token = true)) /\
  (hasFAILObject (fst r) = true -> snd r = t) /\
  (forall z tok, to_number i = Some z -> 0 <= z < len (tokens t) -> token = ETok tok ->
     fst r = RReplaced (tokens t !! Z.to_nat z) tok /\
     tokens (snd r) = <[Z.to_nat z := tok]> (tokens t) /\
     len (tokens (snd r)) = len (tokens t)).
Proof.
  intros r. subst r. unfold replaceToken, inboundIndex.
  destruct token as [tok|x].
  2:{ cbn [fst snd hasFAILObject instanceof_Token]. split; [|split].
      - split; [|reflexivity]. intros _ [_ H]. discriminate.
      - reflexivity.
      - intros z tok _ _ H. discriminate. }
  destruct (negb (isNaN i) && num_in_range i (len (tokens t))) eqn:Hok.
  - apply num_in_range_spec in Hok as Hz. destruct Hz as (z & Hz & Hr).
    assert (Hi : to_integer i = to_integer (NInt z))
      by (unfold to_integer; rewrite Hz; reflexivity).
    assert (Hlt : (Z.to_nat z < length (tokens t))%nat) by (unfold len in Hr; lia).
    destruct (lookup_lt_is_Some_2 _ _ Hlt) as [old Hold].
    assert (Hsp : js_splice (tokens t) i (NInt 1) [tok]
                  = ([old], <[Z.to_nat z := tok]> (tokens t))).
    { transitivity (js_splice (tokens t) (NInt (Z.of_nat (Z.to_nat z))) (NInt 1) [tok]).
      - rewrite Z2Nat.id by lia. unfold js_splice. rewrite Hi. reflexivity.
      - rewrite js_splice_at by exact Hlt. rewrite (take_1_drop _ _ _ Hold).
        f_equal. symmetry.
        rewrite <- (take_drop_middle _ _ _ Hold) at 1.
        rewrite insert_app_r_alt by (rewrite length_take; lia).
        rewrite length_take. replace (Z.to_nat z - Z.to_nat z `min` length (tokens t))%nat
          with 0%nat by lia.
        reflexivity. }
    rewrite Hsp. cbn [fst snd]. split; [|split].
    + split; [discriminate|]. intros Hno. exfalso. apply Hno. split; [|reflexivity].
      exists z. auto.
    + discriminate.
    + intros z' tok' Hz' _ Htok. rewrite Hz in Hz'. injection Hz' as <-.
      injection Htok as <-.
      rewrite silent_or_dispatched_tokens by reflexivity. cbn [set_tokens tokens].
      split; [|split; [reflexivity|]].
      * unfold js_index. simpl. rewrite Hold. reflexivity.
      * unfold len. rewrite length_insert. reflexivity.
  - cbn [fst snd hasFAILObject]. split; [|split].
    + split; [|reflexivity]. intros _ [Hz _]. apply num_in_range_spec in Hz. congruence.
    + reflexivity.
    + intros z tok' Hz Hr _. exfalso.
      assert (H : negb (isNaN i) && num_in_range i (len (tokens t)) = true)
        by (apply num_in_range_spec; exists z; auto).
      congruence.
Qed.

Lemma replaceToken_updates_one_witness :
  map char (tokens (snd (replaceToken (NInt 1) (ETok (Token_new [88])) false
                           (tokenizer_of [97; 98; 99]))))
  = [[97]; [88]; [99]].
Proof.
  destruct (replaceToken_updates_one (tokenizer_of [97; 98; 99]) (NInt 1)
              (ETok (Token_new [88])) false) as (_ & _ & H).
  assert (Hb : 0 <= 1 < len (tokens (tokenizer_of [97; 98; 99])))
    by (vm_compute; split; [discriminate|reflexivity]).
  destruct (H 1 (Token_new [88]) eq_refl Hb eq_refl) as (_ & Htok & _).
  rewrite Htok. vm_compute. reflexivity.
Defined.

(** X10. Tokens inserted at an index of [0 .. length] are the ones
    [removeRange] takes out again at the same index: the second call
    returns the inserted tokens and the token vector is the one of before
    the insertion. *)
Theorem insertToken_then_removeRange (t : Tokenizer) (toks : list Token) (i : Z)
    (silent silent' : bool) :
  0 <= i <= len (tokens t) ->
  let t1 := snd (insertToken (ETok <$> toks) (NInt i) silent t) in
  let r := removeRange (NInt i) (NInt (len toks)) silent' t1 in
  fst r = RTokens toks /\ tokens (snd r) = tokens t.
Proof.
  intros Hi t1 r.
  assert (Hk : forall l : list Token, i <= len l -> clamp_index l i = i).
  { intros l Hl. unfold clamp_index. destruct (i <? 0) eqn:E; [lia|]. lia. }
  assert (Ht1 : tokens t1 = take (Z.to_nat i) (tokens t) ++ toks ++ drop (Z.to_nat i) (tokens t)).
  { subst t1. unfold insertToken.
    replace (forallb instanceof_Token (ETok <$> toks)) with true.
    2:{ symmetry. apply forallb_forall. intros x Hx.
        apply in_map_iff in Hx as (tok & <- & _). reflexivity. }
    cbn [snd]. rewrite silent_or_dispatched_tokens by reflexivity. cbn [set_tokens tokens].
    rewrite js_splice_insert by (unfold to_integer, to_number; lia). cbn [snd].
    rewrite tokens_of_ETok. unfold splice_start. cbn [to_integer to_number].
    rewrite Hk by lia. reflexivity. }
  assert (Hlen1 : len (tokens t1) = len (tokens t) + len toks).
  { rewrite Ht1. unfold len in *. rewrite !length_app, length_take, length_drop. lia. }
  subst r. unfold removeRange. cbv beta iota zeta delta [isNaN to_number negb].
  assert (Hsp : js_splice (tokens t1) (NInt i) (NInt (len toks)) []
                = (toks, tokens t)).
  { unfold js_splice. cbn [to_integer to_number].
    rewrite Hk by (unfold len in *; lia).
    replace (Z.min (Z.max (len toks) 0) (len (tokens t1) - i)) with (len toks)
      by (unfold len in *; lia).
    assert (Hti : Z.to_nat i = length (take (Z.to_nat i) (tokens t)))
      by (rewrite length_take; unfold len in *; lia).
    rewrite Ht1. f_equal.
    - rewrite drop_app_length' by exact Hti.
      unfold len. rewrite Nat2Z.id. apply take_app_length.
    - rewrite take_app_length' by exact Hti.
      replace (Z.to_nat (i + len toks)) with (Z.to_nat i + length toks)%nat
        by (unfold len; lia).
      rewrite <- drop_drop. rewrite drop_app_length' by exact Hti.
      rewrite drop_app_length. simpl. apply take_drop. }
  rewrite Hsp. cbn [fst snd]. split; [reflexivity|].
  destruct silent'; [reflexivity|]. rewrite tokens_dispatch by reflexivity. reflexivity.
Qed.

Lemma insertToken_then_removeRange_witness :
  fst (removeRange (NInt 1) (NInt (len [Token_new [88]; Token_new [89]])) false
         (snd (insertToken (ETok <$> [Token_new [88]; Token_new [89]]) (NInt 1) false
                 (tokenizer_of [97; 98; 99]))))
  = RTokens [Token_new [88]; Token_new [89]].
Proof.
  apply (insertToken_then_removeRange (tokenizer_of [97; 98; 99])
           [Token_new [88]; Token_new [89]] 1 false false).
  vm_compute. split; discriminate.
Defined.

(** X11. [replaceRange] cannot append: at a start index that is the length
    of the token vector, or beyond it, it returns a FAIL record and changes
    nothing, whatever the tokens; on an empty token vector it fails at
    every index.  [insertToken] at the same index appends the tokens. *)
Theorem replaceRange_cannot_append (t : Tokenizer) (s : Z) (offset : JsNum)
    (toks : list Token) (silent : bool) :
  len (tokens t) <= s ->
  replaceRange (NInt s) offset (ETok <$> toks) silent t
    = (RFail "replaceRange: invalid tokens or startIndex.", t) /\
  tokens (snd (insertToken (ETok <$> toks) (NInt s) silent t)) = tokens t ++ toks.
Proof.
  intros Hs. split.
  - unfold replaceRange, inboundIndex, num_in_range. cbv beta zeta.
    cbn [to_number isNaN negb andb].
    replace (s <? len (tokens t)) with false by lia.
    rewrite andb_false_r. reflexivity.
  - unfold insertToken.
    replace (forallb instanceof_Token (ETok <$> toks)) with true.
    2:{ symmetry. apply forallb_forall. intros x Hx.
        apply in_map_iff in Hx as (tok & <- & _). reflexivity. }
    cbn [snd]. rewrite silent_or_dispatched_tokens by reflexivity. cbn [set_tokens tokens].
    rewrite js_splice_insert by (unfold to_integer, to_number; lia). cbn [snd].
    rewrite tokens_of_ETok. unfold splice_start, clamp_index. cbn [to_integer to_number].
    pose proof (len_nonneg (tokens t)) as Hl.
    replace (s <? 0) with false by lia.
    rewrite Z.min_r by lia. unfold len. rewrite Nat2Z.id.
    rewrite firstn_all, drop_all, app_nil_r. reflexivity.
Qed.

Lemma replaceRange_cannot_append_witness :
  hasFAILObject
    (fst (replaceRange (NInt 3) (NInt 0) (ETok <$> [Token_new [88]]) false
            (tokenizer_of [97; 98; 99]))) = true /\
  map char (tokens (snd (insertToken (ETok <$> [Token_new [88]]) (NInt 3) false
                           (tokenizer_of [97; 98; 99]))))
  = [[97]; [98]; [99]; [88]].
Proof.
  destruct (replaceRange_cannot_append (tokenizer_of [97; 98; 99]) 3 (NInt 0)
              [Token_new [88]] false) as [Hr Hi].
  - vm_compute. discriminate.
  - rewrite Hr, Hi. split; reflexivity.
Defined.

(** X12. [removeRange] has no guard and never reports a failure.  At a
    start index at or beyond the end it removes nothing and returns an
    empty array, and unless silent it still dispatches [removeRange], once,
    which on a well-formed tokenizer recomputes the ranges once. *)
Theorem removeRange_never_fails (t : Tokenizer) (start offset : JsNum) (silent : bool) :
  hasFAILObject (fst (removeRange start offset silent t)) = false /\
  (len (tokens t) <= to_integer start ->
   fst (removeRange start offset silent t) = RTokens [] /\
   tokens (snd (removeRange start offset silent t)) = tokens t /\
   (well_formed t = true ->
    exists d, trace (snd (removeRange start offset false t)) = trace t ++ d /\
              dispatches "removeRange" d = 1%nat /\
              dispatches "updateContextsRanges" d = 1%nat)).
Proof.
  split.
  - unfold removeRange. cbv zeta. destruct_splice removed rest. reflexivity.
  - intros Hs.
    assert (Hsp : forall o, js_splice (tokens t) start o [] = ([], tokens t)).
    { intros o. unfold js_splice, clamp_index.
      pose proof (len_nonneg (tokens t)) as Hl.
      replace (to_integer start <? 0) with false by lia.
      replace (Z.min (to_integer start) (len (tokens t))) with (len (tokens t)) by lia.
      replace (Z.min (Z.max (to_integer o) 0) (len (tokens t) - len (tokens t)))
        with 0 by lia.
      rewrite Z.add_0_r. unfold len. rewrite Nat2Z.id.
      rewrite firstn_all, drop_all. simpl. rewrite app_nil_r. reflexivity. }
    unfold removeRange. cbv zeta. rewrite Hsp. cbn [fst snd].
    split; [reflexivity|]. split.
    + rewrite silent_or_dispatched_tokens by reflexivity. reflexivity.
    + intros Hwf. cbn [negb].
      set (o := if negb (isNaN offset) then offset else NInt (len (tokens t))).
      assert (Hin : "removeRange"%string ∈ requiresContextUpdate) by repeat constructor.
      assert (Hwf' : well_formed (set_tokens (tokens t) t) = true)
        by (rewrite set_tokens_same; exact Hwf).
      destruct (well_formed_event _ _ Hwf' Hin) as (e & He & Hauto).
      destruct (dispatch_trace_auto "removeRange" (ARemoveRange [] start o)
                  (set_tokens (tokens t) t) e He Hauto eq_refl (mutating_not_range _ Hin))
        as (d & Hd & Hone).
      exists d. split; [exact Hd|]. split.
      * apply (one_update_own _ _ _ Hone).
      * apply (one_update_count _ _ _ Hone).
Qed.

Lemma removeRange_never_fails_witness :
  fst (removeRange (NInt 7) NUndefined false (tokenizer_of [97; 98; 99])) = RTokens [] /\
  exists d,
    trace (snd (removeRange (NInt 7) NUndefined false (tokenizer_of [97; 98; 99])))
    = trace (tokenizer_of [97; 98; 99]) ++ d /\
    dispatches "removeRange" d = 1%nat /\
    dispatches "updateContextsRanges" d = 1%nat.
Proof.
  destruct (removeRange_never_fails (tokenizer_of [97; 98; 99]) (NInt 7) NUndefined false)
    as [_ H].
  destruct H as (Hr & _ & Ht); [vm_compute; discriminate|].
  split; [exact Hr|]. apply Ht. reflexivity.
Defined.

(** ** tokenize: the text and the tokens *)

Lemma concat_array_from (text : jsstring) : concat (array_from text) = text.
Proof.
  assert (H : forall n (s : jsstring), (length s <= n)%nat -> concat (array_from s) = s).
  { induction n as [|n IH]; intros s Hs.
    - destruct s; [reflexivity|simpl in Hs; lia].
    - destruct s as [|u rest]; [reflexivity|].
      destruct rest as [|v rest']; [reflexivity|].
      destruct (is_high_surrogate u) eqn:Hu.
      + destruct (is_low_surrogate v) eqn:Hv.
        * rewrite array_from_pair by assumption. cbn [concat app].
          rewrite IH by (simpl in Hs; lia). reflexivity.
        * change (array_from (u :: v :: rest'))
            with (if is_high_surrogate u && is_low_surrogate v
                  then [u; v] :: array_from rest'
                  else [u] :: array_from (v :: rest')).
          rewrite Hu, Hv. cbn [andb concat app].
          rewrite IH by (simpl in Hs; simpl; lia). reflexivity.
      + rewrite array_from_single by exact Hu. cbn [concat app].
        rewrite IH by (simpl in Hs; simpl; lia). reflexivity. }
  apply (H (length text)). lia.
Qed.

(** X13. [getText] after [tokenize(text)] is the text, unit for unit,
    whatever the text (lone surrogates included) and whatever modifiers,
    handlers and context checkers the tokenizer has; there is one token
    per code point. *)
Theorem getText_tokenize (text : jsstring) (t : Tokenizer) :
  getText (snd (tokenize text t)) = text /\
  length (tokens (snd (tokenize text t))) = length (array_from text).
Proof.
  split.
  - unfold getText. rewrite chars_tokenize. apply concat_array_from.
  - rewrite <- (chars_tokenize text t). rewrite length_map. reflexivity.
Qed.

Lemma update_last_snoc {A} (f : A -> A) (l : list A) (x : A) :
  update_last f (l ++ [x]) = l ++ [f x].
Proof.
  unfold update_last. rewrite last_snoc, length_app. simpl.
  replace (length l + 1 - 1)%nat with (length l) by lia.
  rewrite take_app_length. reflexivity.
Qed.

Lemma tokens_invoke_newToken tok0 p subs :
  forall t l x, tokens t = l ++ [x] ->
    tokens (fold_left (invoke updateContextsRanges "newToken" (ANewToken tok0 p)) subs t)
    = l ++ [modify_token subs p x].
Proof.
  induction subs as [|sub subs IH]; intros t l x Ht; [exact Ht|].
  cbn [fold_left]. unfold modify_token. cbn [fold_left].
  destruct sub as [|id condition modifier|h].
  - apply IH. unfold invoke. rewrite tokens_updateContextsRanges. exact Ht.
  - apply IH. unfold invoke. cbn [set_tokens tokens]. rewrite Ht. apply update_last_snoc.
  - apply IH. exact Ht.
Qed.

Lemma tokens_tokenize_step chars i t c :
  js_index chars i = Some c ->
  tokens (tokenize_step chars i t)
  = tokens t ++ [modify_token (newToken_subscribers t) (ContextParams_new chars i)
                   (Token_new c)] /\
  events (tokenize_step chars i t) = events t.
Proof.
  intros Hc. unfold tokenize_step. rewrite Hc. cbv zeta. cbn [default].
  set (p := ContextParams_new chars i).
  set (t1 := dispatch "next" (ANext p) t).
  set (t2 := runContextCheck p t1).
  assert (Hev2 : events t2 = events t).
  { subst t2 t1. rewrite (framed_events _ _ _ (frame_runContextCheck _ _)).
    apply (framed_events _ _ _ (frame_dispatch "next" _ _)). }
  assert (Htok2 : tokens t2 = tokens t).
  { subst t2 t1. rewrite (kept_tokens _ _ (kept_runContextCheck _ _)).
    apply tokens_dispatch. reflexivity. }
  split.
  - unfold dispatch, dispatch_with. cbv zeta. cbn [log events set_tokens]. rewrite Hev2.
    unfold newToken_subscribers.
    destruct (events t !! "newToken"%string) as [e|].
    + apply tokens_invoke_newToken. cbn [tokens]. rewrite Htok2. reflexivity.
    + cbn [tokens]. rewrite Htok2. reflexivity.
  - rewrite (framed_events _ _ _ (frame_dispatch "newToken" _ _)). exact Hev2.
Qed.

Lemma tokens_tokenize_loop chars n t :
  (n <= length chars)%nat ->
  tokens (for_loop n (tokenize_step chars) t)
  = tokens t ++ imap (fun i c => modify_token (newToken_subscribers t)
                                   (ContextParams_new chars (Z.of_nat i)) (Token_new c))
                 (take n chars) /\
  events (for_loop n (tokenize_step chars) t) = events t.
Proof.
  induction n as [|n IH]; intros Hn.
  - unfold for_loop. simpl. rewrite app_nil_r. auto.
  - rewrite for_loop_S.
    destruct (lookup_lt_is_Some_2 chars n) as [c Hc]; [lia|].
    destruct IH as [IHt IHe]; [lia|].
    destruct (tokens_tokenize_step chars (Z.of_nat n)
                (for_loop n (tokenize_step chars) t) c) as [Ht He].
    { rewrite js_index_lookup by lia. rewrite Nat2Z.id. exact Hc. }
    split; [|rewrite He; exact IHe].
    rewrite Ht, IHt. rewrite (take_S_r _ _ _ Hc), imap_app, <- app_assoc.
    f_equal. f_equal. cbn [imap]. rewrite length_take, Nat.min_l by lia.
    rewrite Nat.add_0_r. unfold newToken_subscribers. rewrite IHe. reflexivity.
Qed.

Lemma tokens_tokenize text t :
  tokens (snd (tokenize text t)) = imap (token_at t text) (array_from text).
Proof.
  unfold tokenize. cbv beta zeta. cbn [snd].
  rewrite tokens_dispatch by reflexivity.
  destruct (tokens_tokenize_loop (array_from text) (length (array_from text))
              (dispatch "start" ANone (resetContextsRanges (set_tokens [] t))))
    as [Ht _]; [lia|].
  rewrite Ht, firstn_all. rewrite tokens_dispatch by reflexivity. cbn [tokens app].
  apply imap_ext. intros i c _. unfold token_at, newToken_subscribers.
  rewrite (framed_events _ _ _ (frame_dispatch "start" _ _)). reflexivity.
Qed.

Lemma newToken_subscribers_registerModifier id condition modifier t e :
  events t !! "newToken"%string = Some e ->
  newToken_subscribers (registerModifier id condition modifier t)
  = newToken_subscribers t ++ [SubModifier id condition modifier].
Proof.
  intros He. unfold newToken_subscribers, registerModifier, subscribe_to.
  cbn [events set_events set_registeredModifiers]. rewrite He.
  rewrite lookup_insert_eq. reflexivity.
Qed.

Lemma modify_token_snoc subs sub p tok :
  modify_token (subs ++ [sub]) p tok = modify_token [sub] p (modify_token subs p tok).
Proof. unfold modify_token. rewrite fold_left_app. reflexivity. Qed.

(** X14. The tokens [tokenize(text)] returns, in closed form: one token per
    code point, in order, and the token of position [i] is the new token
    of that code point after the modifiers registered on [newToken], in
    the order of their registration, each run on
    [ContextParams(chars, i)].  Nothing else of the run (the handlers, the
    context checks, the other events) reaches the tokens. *)
Theorem tokenize_applies_modifiers (text : jsstring) (t : Tokenizer) :
  fst (tokenize text t) = tokens (snd (tokenize text t)) /\
  tokens (snd (tokenize text t)) = imap (token_at t text) (array_from text) /\
  (newToken_subscribers t = [] ->
   tokens (snd (tokenize text t)) = Token_new <$> array_from text).
Proof.
  split; [reflexivity|]. split; [apply tokens_tokenize|].
  intros Hnone. rewrite tokens_tokenize.
  rewrite <- (imap_const Token_new). apply imap_ext.
  intros i c _. unfold token_at. rewrite Hnone. reflexivity.
Qed.

Lemma tokenize_applies_modifiers_witness :
  tokens (snd (tokenize [104; 105] (Tokenizer_new ∅)))
  = Token_new <$> array_from [104; 105].
Proof.
  destruct (tokenize_applies_modifiers [104; 105] (Tokenizer_new ∅)) as (_ & _ & H).
  apply H. vm_compute. reflexivity.
Defined.

(** X15. The modifier registered last decides the active state.  After
    [registerModifier(id, null, modifier)], for an id other than
    [__proto__], every token of a tokenized text has [id] for the key of
    its active state and, for its value, what [state[id]] holds: the value
    the modifier returned on the token as the earlier modifiers left it.
    A modifier whose condition never returns [true] changes no token,
    whatever its id. *)
Theorem registerModifier_last_wins (t : Tokenizer) (e : Event) (id : string)
    (modifier : Token -> ContextParams jsstring -> JsVal) (text : jsstring) :
  events t !! "newToken"%string = Some e ->
  (id <> "__proto__"%string ->
   forall i tok,
     tokens (snd (tokenize text (registerModifier id None modifier t))) !! i = Some tok ->
     exists c, array_from text !! i = Some c /\
       activeState tok
       = Some (id, Value (modifier (token_at t text i c)
                            (ContextParams_new (array_from text) (Z.of_nat i)))) /\
       state_get tok id
       = Value (modifier (token_at t text i c)
                  (ContextParams_new (array_from text) (Z.of_nat i)))) /\
  (forall condition, (forall tok p, condition tok p = false) ->
     tokens (snd (tokenize text (registerModifier id (Some condition) modifier t)))
     = tokens (snd (tokenize text t))).
Proof.
  intros He. split.
  - intros Hid i tok Htok. rewrite tokens_tokenize in Htok.
    rewrite list_lookup_imap in Htok.
    destruct (array_from text !! i) as [c|] eqn:Hc; [|discriminate].
    simpl in Htok. injection Htok as <-. exists c. split; [reflexivity|].
    unfold token_at at 1 3.
    rewrite (newToken_subscribers_registerModifier _ _ _ _ _ He), modify_token_snoc.
    fold (token_at t text i c). unfold modify_token, run_modifier. cbn [fold_left].
    split.
    + apply activeState_setState, Hid.
    + apply state_get_setState, Hid.
  - intros condition Hcond. rewrite !tokens_tokenize. apply imap_ext.
    intros i c _. unfold token_at.
    rewrite (newToken_subscribers_registerModifier _ _ _ _ _ He), modify_token_snoc.
    unfold modify_token at 1. cbn [fold_left]. unfold run_modifier.
    rewrite Hcond. reflexivity.
Qed.

Lemma registerModifier_last_wins_witness :
  exists tok,
    tokens (snd (tokenize [104; 105]
                   (registerModifier "glyphIndex" None (fun _ _ => VNum 7)
                      (Tokenizer_new ∅)))) !! 1%nat = Some tok /\
    state_get tok "glyphIndex" = Value (VNum 7).
Proof.
  destruct (registerModifier_last_wins (Tokenizer_new ∅)
              {| eventId := "newToken"; subscribers := [] |}
              "glyphIndex" (fun _ _ => VNum 7) [104; 105]) as [H _];
    [vm_compute; reflexivity|].
  destruct (tokens (snd (tokenize [104; 105]
                           (registerModifier "glyphIndex" None (fun _ _ => VNum 7)
                              (Tokenizer_new ∅)))) !! 1%nat) as [tok|] eqn:Htok.
  - exists tok. split; [reflexivity|].
    destruct (H ltac:(discriminate) 1%nat tok Htok) as (c & _ & _ & Hs). exact Hs.
  - vm_compute in Htok. discriminate.
Defined.

(** ** The ranges of one context *)

Lemma alter_lookup_insert {V} (f : V -> V) (name : string) (c : V) (m : gmap string V) :
  m !! name = Some c -> alter f name m = <[name := f c]> m.
Proof.
  intros Hc. apply map_eq. intros j. destruct (decide (name = j)) as [<-|Hne].
  - rewrite lookup_alter_eq, lookup_insert_eq, Hc. reflexivity.
  - rewrite lookup_alter_ne, lookup_insert_ne by exact Hne. reflexivity.
Qed.

Lemma insert_over_alter {V} (f : V -> V) (name : string) (x : V) (m : gmap string V) :
  <[name := x]> (alter f name m) = <[name := x]> m.
Proof.
  apply map_eq. intros j. destruct (decide (name = j)) as [<-|Hne].
  - rewrite !lookup_insert_eq. reflexivity.
  - rewrite !lookup_insert_ne, lookup_alter_ne by exact Hne. reflexivity.
Qed.

Lemma contexts_close i name t c r :
  registeredContexts t !! name = Some c -> openRange c = Some r ->
  registeredContexts
    match setEndOffset (i - startIndex r + 1) name t with
    | Some (range, t') => notify "contextEnd" (AContextEnd name range) t'
    | None => t
    end
  = <[name := close_range i name r c]> (registeredContexts t).
Proof.
  intros Hc Ho. unfold setEndOffset. rewrite !own_getContext. rewrite Hc. cbn [mbind option_bind].
  rewrite Ho. cbn [mbind option_bind]. rewrite contexts_notify. reflexivity.
Qed.

(** One context check of one checker, on the registry: the checker itself
    goes through [step_checker], and no other checker is touched. *)
Lemma contexts_runContextCheck_checker p t name :
  registeredContexts (runContextCheck_checker p t name)
  = alter (step_checker name p) name (registeredContexts t).
Proof.
  unfold runContextCheck_checker. rewrite !own_getContext.
  destruct (registeredContexts t !! name) as [c|] eqn:Hc.
  2:{ symmetry. apply alter_id'. exact Hc. }
  rewrite (alter_lookup_insert _ _ _ _ Hc). unfold step_checker.
  destruct (openRange c) as [r|] eqn:Ho.
  - destruct (checkEnd c p).
    + apply contexts_close; assumption.
    + symmetry. apply insert_id, Hc.
  - destruct (checkStart c p).
    + set (r := ContextRange_new (index p) None name).
      set (t1 := notify "contextStart" (AContextStart name (index p))
                   (set_openRange name (Some r) t)).
      assert (Hm1 : registeredContexts t1
                    = alter (with_openRange (Some r)) name (registeredContexts t)).
      { subst t1. rewrite contexts_notify. reflexivity. }
      destruct (checkEnd c p).
      * rewrite (contexts_close (index p) name t1 (with_openRange (Some r) c) r).
        -- rewrite Hm1. apply insert_over_alter.
        -- rewrite Hm1, lookup_alter_eq, Hc. reflexivity.
        -- reflexivity.
      * rewrite Hm1. apply alter_lookup_insert, Hc.
    + symmetry. apply insert_id, Hc.
Qed.

Lemma contexts_runContextCheck p t :
  registeredContexts (runContextCheck p t)
  = fold_left (fun m name => alter ((fun name => step_checker name p) name) name m)
      (contextCheckers t) (registeredContexts t).
Proof.
  unfold runContextCheck. generalize (contextCheckers t). intros names. revert t.
  induction names as [|name names IH]; intros t; [reflexivity|].
  cbn [fold_left]. rewrite IH, contexts_runContextCheck_checker. reflexivity.
Qed.

Lemma lookup_runContextCheck p t name :
  NoDup (contextCheckers t) -> name ∈ contextCheckers t ->
  registeredContexts (runContextCheck p t) !! name
  = step_checker name p <$> registeredContexts t !! name.
Proof.
  intros Hnd Hin. rewrite contexts_runContextCheck, lookup_fold_alter by exact Hnd.
  rewrite decide_True by exact Hin. reflexivity.
Qed.

Lemma lookup_scan chars t name :
  NoDup (contextCheckers t) -> name ∈ contextCheckers t ->
  registeredContexts (scan chars t) !! name
  = scan_checker name chars <$> registeredContexts t !! name.
Proof.
  intros Hnd Hin. unfold scan, scan_checker.
  generalize (length chars). intros n.
  induction n as [|n IH].
  - unfold for_loop. simpl. destruct (registeredContexts t !! name); reflexivity.
  - rewrite for_loop_S.
    assert (Hck : contextCheckers
                    (for_loop n (fun i t => runContextCheck (ContextParams_new chars i) t) t)
                  = contextCheckers t).
    { apply (for_loop_ind (fun s => contextCheckers s = contextCheckers t)); [|reflexivity].
      intros i s Hs. rewrite (framed_checkers _ _ _ (frame_runContextCheck _ _)). exact Hs. }
    rewrite lookup_runContextCheck by (rewrite Hck; assumption).
    rewrite IH. destruct (registeredContexts t !! name) as [c|]; [|reflexivity].
    simpl. rewrite for_loop_S. reflexivity.
Qed.

Lemma lookup_updateContextsRanges t name :
  NoDup (contextCheckers t) -> name ∈ contextCheckers t ->
  registeredContexts (updateContextsRanges t) !! name
  = (fun c => scan_checker name (map char (tokens t)) (with_ranges [] c))
      <$> registeredContexts t !! name.
Proof.
  intros Hnd Hin. rewrite contexts_updateContextsRanges.
  rewrite lookup_scan by assumption.
  cbn [resetContextsRanges registeredContexts set_registeredContexts].
  rewrite lookup_fmap. destruct (registeredContexts t !! name); reflexivity.
Qed.

Lemma ranges_chain_mono lo rs hi hi' :
  ranges_chain lo rs hi -> hi <= hi' -> ranges_chain lo rs hi'.
Proof.
  revert lo. induction rs as [|r rs IH]; intros lo; simpl.
  - lia.
  - intros (off & Ho & Hlo & Hoff & Hch) Hhi. exists off. eauto.
Qed.

Lemma ranges_chain_snoc lo rs hi r off :
  ranges_chain lo rs hi -> hi <= startIndex r -> endOffset r = Some off -> 1 <= off ->
  ranges_chain lo (rs ++ [r]) (startIndex r + off).
Proof.
  revert lo. induction rs as [|r0 rs IH]; intros lo; simpl.
  - intros Hlo Hhi Ho Hoff. exists off. repeat split; try assumption; lia.
  - intros (off0 & Ho0 & Hlo & Hoff0 & Hch) Hhi Ho Hoff. exists off0.
    repeat split; try assumption. apply IH; assumption.
Qed.

Lemma ranges_named_snoc name rs r :
  ranges_named name rs ->
  rangeId r = Some (name +:+ "." +:+ pretty (length rs)) -> contextName r = name ->
  ranges_named name (rs ++ [r]).
Proof.
  intros Hrs Hid Hname k r' Hk.
  apply lookup_app_Some in Hk as [Hk|[Hlen Hk]].
  - apply Hrs, Hk.
  - apply list_lookup_singleton_Some in Hk as [Hk <-].
    replace k with (length rs) by lia. auto.
Qed.

Lemma checker_scanned_close n name r c hi :
  ranges_chain 0 (ranges c) hi -> hi <= startIndex r <= n ->
  ranges_named name (ranges c) ->
  checker_scanned (n + 1) name (close_range n name r c).
Proof.
  intros Hch Hr Hnamed. exists (n + 1). unfold close_range. cbn [ranges openRange with_openRange with_ranges].
  split; [|split; [lia|split; [discriminate|]]].
  - replace (n + 1) with (startIndex r + (n - startIndex r + 1)) by lia.
    apply (ranges_chain_snoc 0 (ranges c) hi
             {| contextName := name; startIndex := startIndex r;
                endOffset := Some (n - startIndex r + 1);
                rangeId := Some (name +:+ "." +:+ pretty (length (ranges c))) |});
      [exact Hch|simpl; lia|reflexivity|lia].
  - apply ranges_named_snoc; [exact Hnamed|reflexivity|reflexivity].
Qed.

Lemma checker_scanned_step n name p c :
  index p = n -> 0 <= n ->
  checker_scanned n name c -> checker_scanned (n + 1) name (step_checker name p c).
Proof.
  intros Hp Hn (hi & Hch & Hhi & Hopen & Hnamed). unfold step_checker. rewrite Hp.
  assert (Hkeep : checker_scanned (n + 1) name c).
  { exists hi. split; [exact Hch|]. split; [lia|]. split; [|exact Hnamed].
    intros o Ho. specialize (Hopen o Ho). lia. }
  destruct (openRange c) as [r|] eqn:Ho.
  - destruct (checkEnd c p); [|exact Hkeep].
    specialize (Hopen r eq_refl).
    apply (checker_scanned_close n name r c hi); [exact Hch|lia|exact Hnamed].
  - destruct (checkStart c p); [|exact Hkeep].
    destruct (checkEnd c p).
    + apply (checker_scanned_close n name (ContextRange_new n None name)
               (with_openRange (Some (ContextRange_new n None name)) c) hi);
        [exact Hch|simpl; lia|exact Hnamed].
    + exists hi. cbn [ranges openRange with_openRange].
      split; [exact Hch|]. split; [lia|]. split; [|exact Hnamed].
      intros o Heq. injection Heq as <-. simpl. lia.
Qed.

Lemma checker_scanned_scan name chars c :
  openRange c = None ->
  checker_scanned (len chars) name (scan_checker name chars (with_ranges [] c)).
Proof.
  intros Ho. unfold scan_checker, len.
  generalize (length chars). intros n.
  induction n as [|n IH].
  - unfold for_loop. simpl. exists 0. simpl.
    split; [lia|]. split; [lia|]. split.
    + intros o Heq. rewrite Ho in Heq. discriminate.
    + intros k r Hk. rewrite lookup_nil in Hk. discriminate.
  - rewrite for_loop_S. rewrite Nat2Z.inj_succ. unfold Z.succ.
    apply checker_scanned_step; [reflexivity|lia|exact IH].
Qed.

(** X16. The contexts do not interfere.  After a recomputation the ranges
    of a registered context are those of its own checker run alone over
    the characters of the tokens: the other checkers, the modifiers and
    the callers' handlers have no part in them. *)
Theorem updateContextsRanges_per_checker (t : Tokenizer) (name : string)
    (c : ContextChecker) :
  NoDup (contextCheckers t) -> name ∈ contextCheckers t ->
  registeredContexts t !! name = Some c ->
  getContextRanges name (updateContextsRanges t)
  = RangesOf (ranges (scan_checker name (map char (tokens t)) (with_ranges [] c))) /\
  (forall name', name' ∉ contextCheckers t ->
     getContextRanges name' (updateContextsRanges t)
     = match registeredContexts t !! name' with
       | Some _ => RangesOf []
       | None => getContextRanges name' t
       end).
Proof.
  intros Hnd Hin Hc. split.
  - unfold getContextRanges, getContext, js_property.
    rewrite lookup_updateContextsRanges by assumption. rewrite Hc. reflexivity.
  - intros name' Hnot. unfold getContextRanges, getContext, js_property.
    rewrite contexts_updateContextsRanges.
    assert (H : registeredContexts
                  (scan (map char (tokens t)) (resetContextsRanges t)) !! name'
                = registeredContexts (resetContextsRanges t) !! name').
    { unfold scan.
      apply (for_loop_ind
               (fun s => registeredContexts s !! name'
                         = registeredContexts (resetContextsRanges t) !! name'
                         /\ contextCheckers s = contextCheckers t)); [|auto].
      intros i s [Hs Hck]. split.
      - rewrite contexts_runContextCheck, lookup_fold_alter by (rewrite Hck; exact Hnd).
        rewrite decide_False by (rewrite Hck; exact Hnot). exact Hs.
      - rewrite (framed_checkers _ _ _ (frame_runContextCheck _ _)). exact Hck. }
    rewrite H. cbn [resetContextsRanges registeredContexts set_registeredContexts].
    rewrite lookup_fmap. destruct (registeredContexts t !! name'); reflexivity.
Qed.

Lemma updateContextsRanges_per_checker_witness :
  getContextRanges "ab" (updateContextsRanges (ab_tokenizer [97; 98; 120; 97; 98]))
  = RangesOf (ranges (scan_checker "ab" [[97]; [98]; [120]; [97]; [98]]
                    (ContextChecker_new "ab" starts_on_a ends_on_b))).
Proof.
  destruct (updateContextsRanges_per_checker (ab_tokenizer [97; 98; 120; 97; 98]) "ab"
              (scan_checker "ab" [[97]; [98]; [120]; [97]; [98]]
                 (ContextChecker_new "ab" starts_on_a ends_on_b))) as [H _].
  - vm_compute. repeat constructor. intros H. inversion H.
  - vm_compute. repeat constructor.
  - vm_compute. reflexivity.
  - rewrite H. vm_compute. reflexivity.
Defined.

(** X17. The ranges a recomputation stores for a context that had no range
    open are in order and apart: each has at least one token, starts at or
    after the end of the one before it, and ends within the token vector;
    the range at position [k] has the id [name.k]; a range left open at
    the end starts after the last completed one. *)
Theorem updateContextsRanges_ranges_in_order (t : Tokenizer) (name : string)
    (c c' : ContextChecker) :
  NoDup (contextCheckers t) -> name ∈ contextCheckers t ->
  registeredContexts t !! name = Some c -> openRange c = None ->
  registeredContexts (updateContextsRanges t) !! name = Some c' ->
  ranges_chain 0 (ranges c') (len (tokens t)) /\
  ranges_named name (ranges c') /\
  (forall o, openRange c' = Some o ->
     0 <= startIndex o < len (tokens t) /\
     Forall (fun r => forall off, endOffset r = Some off ->
                        startIndex r + off <= startIndex o) (ranges c')).
Proof.
  intros Hnd Hin Hc Ho Hc'.
  rewrite lookup_updateContextsRanges in Hc' by assumption.
  rewrite Hc in Hc'. simpl in Hc'. injection Hc' as <-.
  destruct (checker_scanned_scan name (map char (tokens t)) c Ho)
    as (hi & Hch & Hhi & Hopen & Hnamed).
  assert (Hlen : len (map char (tokens t)) = len (tokens t))
    by (unfold len; rewrite length_map; reflexivity).
  rewrite Hlen in *.
  split; [apply (ranges_chain_mono _ _ hi); assumption|]. split; [exact Hnamed|].
  intros o Hoo. specialize (Hopen o Hoo).
  assert (Hge : forall lo rs, ranges_chain lo rs hi -> 0 <= lo ->
                  lo <= hi /\
                  Forall (fun r => forall off, endOffset r = Some off ->
                                     startIndex r + off <= hi) rs).
  { intros lo rs. revert lo. induction rs as [|r rs IH]; intros lo; simpl.
    - intros Hlo _. split; [exact Hlo|constructor].
    - intros (off & Hoff & Hlo & Hone & Hrest) H0.
      destruct (IH _ Hrest ltac:(lia)) as [Hle Hall].
      split; [lia|]. constructor; [|exact Hall].
      intros off' Hoff'. rewrite Hoff in Hoff'. injection Hoff' as <-. exact Hle. }
  destruct (Hge 0 _ Hch ltac:(lia)) as [H0 Hall].
  split; [lia|].
  eapply Forall_impl; [exact Hall|]. intros r Hr off Hoff. specialize (Hr off Hoff). lia.
Qed.

Lemma updateContextsRanges_ranges_in_order_witness :
  exists c',
    registeredContexts (updateContextsRanges (ab_tokenizer [97; 98; 120; 97; 98])) !! "ab"%string
    = Some c' /\
    ranges_chain 0 (ranges c') (len (tokens (ab_tokenizer [97; 98; 120; 97; 98]))).
Proof.
  destruct (registeredContexts
              (updateContextsRanges (ab_tokenizer [97; 98; 120; 97; 98])) !! "ab"%string)
    as [c'|] eqn:Hc'.
  - exists c'. split; [reflexivity|].
    destruct (updateContextsRanges_ranges_in_order (ab_tokenizer [97; 98; 120; 97; 98]) "ab"
                (scan_checker "ab" [[97]; [98]; [120]; [97]; [98]]
                   (ContextChecker_new "ab" starts_on_a ends_on_b)) c') as [H _].
    + vm_compute. repeat constructor. intros H. inversion H.
    + vm_compute. repeat constructor.
    + vm_compute. reflexivity.
    + vm_compute. reflexivity.
    + exact Hc'.
    + exact H.
  - vm_compute in Hc'. discriminate.
Defined.

(** ** Registration of a context checker *)

(** X18. [registerContextChecker] returns a FAIL record, and changes
    nothing, when [getContext] finds something under the name (a checker
    registered before, or a member the registry inherits from
    [Object.prototype], such as [constructor]: such a name can never be
    registered) or when one of the checks is not a function.  Otherwise it
    returns the new checker, registered last, with no range: whatever
    tokens the tokenizer holds, [getContextRanges] of the new name is empty
    until the ranges are next recomputed; the other names, the tokens and
    the trace are as before, and a second registration under the name
    fails. *)
Theorem registerContextChecker_registers (t : Tokenizer) (name : string)
    (cs ce : option (ContextParams jsstring -> bool)) :
  let r := registerContextChecker name cs ce t in
  (getContext name t <> Missing \/ cs = None \/ ce = None ->
   (exists msg, fst r = RegFail msg) /\ snd r = t) /\
  (name ∈ object_prototype ->
   r = (RegFail ("context name '" +:+ name +:+ "' is already registered."), t)) /\
  (forall s e, registeredContexts t !! name = None -> name ∉ object_prototype ->
     cs = Some s -> ce = Some e ->
     fst r = RegChecker (ContextChecker_new name s e) /\
     contextCheckers (snd r) = contextCheckers t ++ [name] /\
     getContext name (snd r) = Own (ContextChecker_new name s e) /\
     getContextRanges name (snd r) = RangesOf [] /\
     (forall name', name' <> name -> getContext name' (snd r) = getContext name' t) /\
     tokens (snd r) = tokens t /\ trace (snd r) = trace t /\
     forall cs' ce',
       registerContextChecker name cs' ce' (snd r)
       = (RegFail ("context name '" +:+ name +:+ "' is already registered."), snd r)).
Proof.
  intros r. subst r. unfold registerContextChecker. split; [|split].
  - intros H. destruct (getContext name t) as [c|n|] eqn:Hc.
    + split; [eexists; reflexivity|reflexivity].
    + split; [eexists; reflexivity|reflexivity].
    + destruct H as [H|[->| ->]]; [contradiction| |].
      * split; [eexists; reflexivity|reflexivity].
      * destruct cs; (split; [eexists; reflexivity|reflexivity]).
  - intros Hin. unfold getContext, js_property.
    destruct (registeredContexts t !! name); [reflexivity|].
    rewrite bool_decide_eq_true_2 by exact Hin. reflexivity.
  - intros s e Hc Hname -> ->.
    assert (Hmiss : getContext name t = Missing).
    { unfold getContext, js_property. rewrite Hc.
      rewrite bool_decide_eq_false_2 by exact Hname. reflexivity. }
    rewrite Hmiss. cbn [fst snd].
    assert (Hnew : getContext name
                     (set_contextCheckers (contextCheckers t ++ [name])
                        (set_registeredContexts
                           (<[name := ContextChecker_new name s e]> (registeredContexts t)) t))
                   = Own (ContextChecker_new name s e)).
    { apply js_property_Own. simpl. apply lookup_insert_eq. }
    split; [reflexivity|]. split; [reflexivity|]. split; [exact Hnew|].
    split; [unfold getContextRanges; rewrite Hnew; reflexivity|].
    split.
    { intros name' Hne. unfold getContext, js_property. simpl.
      rewrite lookup_insert_ne by (intros Heq; apply Hne; symmetry; exact Heq).
      reflexivity. }
    split; [reflexivity|]. split; [reflexivity|].
    intros cs' ce'. rewrite Hnew. reflexivity.
Qed.

Lemma registerContextChecker_registers_witness :
  getContextRanges "ab"
    (snd (registerContextChecker "ab" (Some starts_on_a) (Some ends_on_b)
            (tokenizer_of [97; 98])))
  = RangesOf [] /\
  getContextRanges "ab"
    (updateContextsRanges
       (snd (registerContextChecker "ab" (Some starts_on_a) (Some ends_on_b)
               (tokenizer_of [97; 98]))))
  = RangesOf [{| contextName := "ab"; startIndex := 0; endOffset := Some 2;
                 rangeId := Some "ab.0" |}] /\
  fst (registerContextChecker "constructor" (Some starts_on_a) (Some ends_on_b)
         (Tokenizer_new ∅))
  = RegFail "context name 'constructor' is already registered.".
Proof.
  destruct (registerContextChecker_registers (tokenizer_of [97; 98]) "ab"
              (Some starts_on_a) (Some ends_on_b)) as (_ & _ & H).
  destruct (H starts_on_a ends_on_b) as (_ & _ & _ & Hr & _);
    [vm_compute; reflexivity| |reflexivity|reflexivity|].
  { refine (bool_decide_unpack ("ab"%string ∉ object_prototype) _). vm_compute. exact I. }
  destruct (registerContextChecker_registers (Tokenizer_new ∅) "constructor"
              (Some starts_on_a) (Some ends_on_b)) as (_ & Hc & _).
  split; [exact Hr|]. split; [vm_compute; reflexivity|].
  rewrite Hc; [reflexivity|]. unfold object_prototype. repeat constructor.
Defined.

(** ** What every reachable state has *)

Lemma same_names_refl t : same_names t t.
Proof. split; reflexivity. Qed.

Lemma same_names_trans t1 t2 t3 :
  same_names t1 t2 -> same_names t2 t3 -> same_names t1 t3.
Proof. intros [F1 F2] [G1 G2]. split; congruence. Qed.

Lemma same_names_kept P t t' : kept t t' -> framed P t t' -> same_names t t'.
Proof.
  intros [_ Hk] Hf. split; [apply (framed_checkers _ _ _ Hf)|].
  rewrite <- (dom_fmap_L fresh_checker (registeredContexts t')), Hk.
  apply dom_fmap_L.
Qed.

Lemma same_names_updateContextsRanges t : same_names t (updateContextsRanges t).
Proof.
  apply (same_names_kept range_entry);
    [apply kept_updateContextsRanges|apply frame_updateContextsRanges].
Qed.

Lemma same_names_runContextCheck p t : same_names t (runContextCheck p t).
Proof.
  apply (same_names_kept context_entry);
    [apply kept_runContextCheck|apply frame_runContextCheck].
Qed.

Lemma same_names_dispatch ev args t : same_names t (dispatch ev args t).
Proof.
  unfold dispatch, dispatch_with. cbv zeta.
  destruct (events (log (Dispatched ev args) t) !! ev) as [e|]; [|split; reflexivity].
  apply (same_names_trans _ (log (Dispatched ev args) t)); [split; reflexivity|].
  generalize (log (Dispatched ev args) t). clear t.
  induction (subscribers e) as [|sub subs IH]; intros t; [apply same_names_refl|].
  cbn [fold_left]. eapply same_names_trans; [|apply IH].
  destruct sub as [|id condition modifier|h]; unfold invoke.
  - apply same_names_updateContextsRanges.
  - destruct args; split; reflexivity.
  - split; reflexivity.
Qed.

Lemma same_names_set_tokens l t : same_names t (set_tokens l t).
Proof. split; reflexivity. Qed.

Lemma same_names_call_edit silent c t : same_names t (snd (call_edit silent c t)).
Proof.
  apply (call_edit_keeps same_names);
    [apply same_names_trans|intros; apply same_names_set_tokens|apply same_names_dispatch].
Qed.

Lemma same_names_composeRUD RUDs t : same_names t (snd (composeRUD RUDs t)).
Proof.
  apply (composeRUD_keeps same_names);
    [apply same_names_refl|apply same_names_trans|intros; apply same_names_set_tokens
    |apply same_names_dispatch].
Qed.

Lemma same_names_run_edit e t : same_names t (snd (run_edit e t)).
Proof. destruct e; [apply same_names_call_edit|apply same_names_composeRUD]. Qed.

Lemma same_names_tokenize text t : same_names t (snd (tokenize text t)).
Proof.
  unfold tokenize. cbv beta zeta. cbn [snd].
  eapply same_names_trans; [|apply same_names_dispatch].
  apply (for_loop_ind (fun s => same_names t s)).
  - intros i s Hs. unfold tokenize_step. cbv zeta.
    eapply same_names_trans; [exact Hs|].
    eapply same_names_trans; [apply same_names_dispatch|].
    eapply same_names_trans; [apply same_names_runContextCheck|].
    eapply same_names_trans; [apply same_names_set_tokens|apply same_names_dispatch].
  - eapply same_names_trans; [|apply same_names_dispatch].
    split; [reflexivity|]. cbn [resetContextsRanges registeredContexts set_registeredContexts
                                set_tokens].
    apply dom_fmap_L.
Qed.

Lemma checkers_registered_same t t' :
  same_names t t' -> checkers_registered t -> checkers_registered t'.
Proof.
  intros [H1 H2] (Hnd & Hdom & Hplain). split; [|split]; rewrite ?H1, ?H2; assumption.
Qed.

Lemma checkers_registered_register name cs ce t :
  checkers_registered t ->
  checkers_registered (snd (registerContextChecker name cs ce t)).
Proof.
  intros (Hnd & Hdom & Hplain). unfold registerContextChecker.
  destruct (getContext name t) as [c|n|] eqn:Hc; [repeat split; assumption..|].
  destruct cs as [s|]; [|repeat split; assumption].
  destruct ce as [e|]; [|repeat split; assumption].
  cbn [snd]. unfold checkers_registered.
  cbn [contextCheckers registeredContexts set_contextCheckers set_registeredContexts].
  apply getContext_Missing in Hc as [Hc Hname].
  assert (Hnot : name ∉ contextCheckers t).
  { intros Hin. apply (elem_of_list_to_set (C := gset string)) in Hin.
    rewrite <- Hdom in Hin. apply elem_of_dom in Hin as [c Hc'].
    congruence. }
  split; [|split].
  - apply NoDup_app. split; [exact Hnd|]. split; [|apply NoDup_singleton].
    intros x Hx Hx'. apply list_elem_of_singleton in Hx'. subst x. contradiction.
  - rewrite dom_insert_L, Hdom, list_to_set_app_L. simpl.
    rewrite union_empty_r_L. apply union_comm_L.
  - apply Forall_app. split; [exact Hplain|]. constructor; [exact Hname|constructor].
Qed.

Lemma checkers_registered_call t c :
  checkers_registered t -> checkers_registered (run_call t c).
Proof.
  intros Ht. destruct c as [ev h|id condition modifier|name cs ce|e|c|RUDs| |text];
    cbn [run_call].
  - unfold on. destruct (js_property (events t) ev) as [e|n|]; [|exact Ht..].
    destruct h as [h|]; exact Ht.
  - exact Ht.
  - apply checkers_registered_register, Ht.
  - apply (checkers_registered_same t); [apply same_names_run_edit|exact Ht].
  - apply (checkers_registered_same t); [apply same_names_call_edit|exact Ht].
  - apply (checkers_registered_same t); [apply same_names_composeRUD|exact Ht].
  - apply (checkers_registered_same t); [apply same_names_updateContextsRanges|exact Ht].
  - apply (checkers_registered_same t); [apply same_names_tokenize|exact Ht].
Qed.

Lemma well_formed_call t c : well_formed t = true -> well_formed (run_call t c) = true.
Proof.
  intros Ht. destruct c as [ev h|id condition modifier|name cs ce|e|c|RUDs| |text];
    cbn [run_call].
  - apply well_formed_on, Ht.
  - apply well_formed_registerModifier, Ht.
  - apply well_formed_registerContextChecker, Ht.
  - apply well_formed_run_edit, Ht.
  - destruct (call_edit_silent c t) as [l ->]. exact Ht.
  - unfold well_formed. rewrite (proj2 (proj2 events_edits)). exact Ht.
  - unfold well_formed.
    rewrite (framed_events _ _ _ (frame_updateContextsRanges t)). exact Ht.
  - unfold well_formed. rewrite events_tokenize. exact Ht.
Qed.

(** X19. Whatever handlers the constructor was given and whatever public
    methods were called since, in any order and with any arguments, the
    tokenizer is well formed (each mutating event has its one
    [updateContextsRanges], the events of the range computation have
    callers' handlers only), no checker name is listed twice, the listed
    names are those the registry has for own properties, and none of them
    is the name of a member of [Object.prototype]. *)
Theorem reachable_invariants (handlers : gmap string nat) (calls : list Call) :
  let t := fold_left run_call calls (Tokenizer_new handlers) in
  well_formed t = true /\
  NoDup (contextCheckers t) /\
  (forall name, name ∈ contextCheckers t <-> is_Some (registeredContexts t !! name)) /\
  (forall name, name ∈ contextCheckers t <-> exists c, getContext name t = Own c) /\
  (forall name, name ∈ contextCheckers t -> name ∉ object_prototype).
Proof.
  intros t.
  assert (H : forall t0, well_formed t0 = true -> checkers_registered t0 ->
                well_formed (fold_left run_call calls t0) = true /\
                checkers_registered (fold_left run_call calls t0)).
  { induction calls as [|c calls IH]; intros t0 Hwf Hreg; [auto|].
    cbn [fold_left]. apply IH; [apply well_formed_call|apply checkers_registered_call];
      assumption. }
  destruct (H (Tokenizer_new handlers)) as (Hwf & Hnd & Hdom & Hplain).
  - apply well_formed_Tokenizer_new.
  - split; [constructor|]. split; [simpl; apply dom_empty_L|constructor].
  - fold t in Hdom, Hplain.
    assert (Hown : forall name,
              name ∈ contextCheckers t <-> is_Some (registeredContexts t !! name)).
    { intros name. rewrite <- elem_of_dom, Hdom, elem_of_list_to_set. reflexivity. }
    split; [exact Hwf|]. split; [exact Hnd|]. split; [exact Hown|]. split.
    + intros name. rewrite Hown. unfold getContext. split.
      * intros [c Hc]. exists c. apply js_property_Own, Hc.
      * intros [c Hc]. exists c. apply js_property_Own, Hc.
    + intros name Hin. rewrite Forall_forall in Hplain. apply Hplain, Hin.
Qed.

(** ** The driver: tokens, glyphs and failures *)

Lemma events_registerContextChecker name cs ce t :
  events (snd (registerContextChecker name cs ce t)) = events t.
Proof.
  unfold registerContextChecker. destruct (getContext name t); [reflexivity..|].
  destruct cs; [|reflexivity]. destruct ce; reflexivity.
Qed.

Lemma modifiers_registerContextChecker name cs ce t :
  registeredModifiers (snd (registerContextChecker name cs ce t)) = registeredModifiers t.
Proof.
  unfold registerContextChecker. destruct (getContext name t); [reflexivity..|].
  destruct cs; [|reflexivity]. destruct ce; reflexivity.
Qed.

Lemma registered_registerContextChecker name s e name' t :
  name ∉ object_prototype ->
  name' = name \/ is_Some (registeredContexts t !! name') ->
  is_Some (registeredContexts
             (snd (registerContextChecker name (Some s) (Some e) t)) !! name').
Proof.
  intros Hname H. unfold registerContextChecker, getContext, js_property.
  destruct (registeredContexts t !! name) as [c|] eqn:Hc.
  - cbn [snd]. destruct H as [->|H]; [rewrite Hc; eauto|exact H].
  - rewrite bool_decide_eq_false_2 by exact Hname. cbn [snd]. simpl.
    destruct (decide (name = name')) as [<-|Hne].
    + rewrite lookup_insert_eq. eauto.
    + rewrite lookup_insert_ne by exact Hne.
      destruct H as [->|H]; [contradiction|exact H].
Qed.

Lemma modifiers_tokenize text t :
  registeredModifiers (snd (tokenize text t)) = registeredModifiers t.
Proof.
  unfold tokenize. cbv beta zeta. cbn [snd].
  rewrite (framed_modifiers _ _ _ (frame_dispatch "end" _ _)).
  assert (Hloop : forall n s,
            registeredModifiers (for_loop n (tokenize_step (array_from text)) s)
            = registeredModifiers s).
  { intros n s.
    apply (for_loop_ind (fun s' => registeredModifiers s' = registeredModifiers s));
      [|reflexivity].
    intros i s' Hs'. unfold tokenize_step. cbv zeta.
    rewrite (framed_modifiers _ _ _ (frame_dispatch "newToken" _ _)). simpl.
    rewrite (framed_modifiers _ _ _ (frame_runContextCheck _ _)).
    rewrite (framed_modifiers _ _ _ (frame_dispatch "next" _ _)). exact Hs'. }
  rewrite Hloop.
  rewrite (framed_modifiers _ _ _ (frame_dispatch "start" _ _)). reflexivity.
Qed.

Section DriverTokens.
Variable contextChecks : Bidi.ContextChecks.
Variable shapers : Bidi.Shapers.

Lemma tokenizeText_tokenizer b txt :
  Bidi.text b = Some txt ->
  Bidi.tokenizer (Bidi.tokenizeText contextChecks b)
  = snd (tokenize txt
           (snd (registerContextChecker "arabicSentence"
                   (Some (Bidi.startCheck (Bidi.arabicSentenceCheck contextChecks)))
                   (Some (Bidi.endCheck (Bidi.arabicSentenceCheck contextChecks)))
              (snd (registerContextChecker "arabicWord"
                      (Some (Bidi.startCheck (Bidi.arabicWordCheck contextChecks)))
                      (Some (Bidi.endCheck (Bidi.arabicWordCheck contextChecks)))
                 (snd (registerContextChecker "latinWord"
                         (Some (Bidi.startCheck (Bidi.latinWordCheck contextChecks)))
                         (Some (Bidi.endCheck (Bidi.latinWordCheck contextChecks)))
                         (Bidi.tokenizer b)))))))).
Proof.
  intros Ht. unfold Bidi.tokenizeText, Bidi.registerContextChecker. cbv zeta.
  cbn [Bidi.tokenizer Bidi.set_tokenizer Bidi.text]. rewrite Ht. reflexivity.
Qed.

(** [#tokenizeText]: the tokens are those [tokenize] makes of the stored
    text with the tokenizer's modifiers, the three contexts are registered,
    and the modifier ids are as before. *)
Lemma tokenizeText_tokens b txt :
  Bidi.text b = Some txt ->
  tokens (Bidi.tokenizer (Bidi.tokenizeText contextChecks b))
  = imap (token_at (Bidi.tokenizer b) txt) (array_from txt) /\
  registeredModifiers (Bidi.tokenizer (Bidi.tokenizeText contextChecks b))
  = registeredModifiers (Bidi.tokenizer b) /\
  Bidi.checkContextReady "arabicWord" (Bidi.tokenizeText contextChecks b) = true.
Proof.
  intros Ht. unfold Bidi.checkContextReady, getContext, js_property.
  rewrite (tokenizeText_tokenizer b txt Ht).
  split; [|split].
  - rewrite tokens_tokenize. apply imap_ext. intros i c _.
    unfold token_at, newToken_subscribers. rewrite !events_registerContextChecker.
    reflexivity.
  - rewrite modifiers_tokenize, !modifiers_registerContextChecker. reflexivity.
  - match goal with
    | |- context [registeredContexts (snd (tokenize _ ?t)) !! _] =>
        assert (H : is_Some (registeredContexts t !! "arabicWord"%string))
    end.
    { apply registered_registerContextChecker; [apply arabicSentence_plain|]. right.
      apply registered_registerContextChecker; [|left; reflexivity].
      refine (bool_decide_unpack ("arabicWord"%string ∉ object_prototype) _).
      vm_compute. exact I. }
    apply elem_of_dom in H. rewrite <- (proj2 (same_names_tokenize txt _)) in H.
    apply elem_of_dom in H as [c Hc]. rewrite Hc. reflexivity.
Qed.

(** With no feature tag requested [processText] of a new text returns, and
    leaves the tokens [tokenize] made, in some order. *)
Lemma processText_tokens b txt :
  Bidi.featuresTags b = ∅ -> Bidi.text_changed txt b = true ->
  fst (Bidi.processText contextChecks shapers txt b) = Bidi.Returned tt /\
  tokens (Bidi.tokenizer (snd (Bidi.processText contextChecks shapers txt b)))
    ≡ₚ imap (token_at (Bidi.tokenizer b) txt) (array_from txt) /\
  Bidi.text (snd (Bidi.processText contextChecks shapers txt b)) = Some txt.
Proof.
  intros Htags Hc. rewrite (processText_changed contextChecks shapers b txt Hc).
  set (b2 := Bidi.tokenizeText contextChecks (Bidi.setText txt b)).
  destruct (tokenizeText_tokens (Bidi.setText txt b) txt eq_refl) as (Htok & _ & _).
  fold b2 in Htok. cbn [Bidi.tokenizer Bidi.setText] in Htok.
  destruct (tokenizeText_chars contextChecks (Bidi.setText txt b) txt eq_refl) as [_ Hok].
  fold b2 in Hok.
  assert (Htags2 : Bidi.featuresTags b2 = ∅) by exact Htags.
  destruct (Bidi.checkContextReady "arabicSentence" b2) eqn:Hready.
  - apply (checkContextReady_ranges _ _ arabicSentence_plain) in Hready as [rs Hrs].
    rewrite (applyFeaturesToContexts_no_tags shapers b2 rs Hrs Htags2). cbn [fst snd].
    split; [reflexivity|]. split; [|reflexivity].
    cbn [Bidi.tokenizer Bidi.set_tokenizer]. rewrite <- Htok.
    apply reverse_ranges_perm. eapply ranges_ok_lookup; eauto.
  - rewrite (applyFeaturesToContexts_unregistered shapers b2 Hready),
      (shaping_steps_no_tags shapers b2 Htags2). cbn [fst snd].
    split; [reflexivity|]. split; [rewrite Htok; reflexivity|reflexivity].
Qed.

Lemma getTextGlyphs_collect b txt :
  fst (Bidi.processText contextChecks shapers txt b) = Bidi.Returned tt ->
  fst (Bidi.getTextGlyphs contextChecks shapers txt b)
  = Bidi.collect_glyphs
      (tokens (Bidi.tokenizer (snd (Bidi.processText contextChecks shapers txt b)))) [] /\
  snd (Bidi.getTextGlyphs contextChecks shapers txt b)
  = snd (Bidi.processText contextChecks shapers txt b).
Proof.
  unfold Bidi.getTextGlyphs, Bidi.bind.
  destruct (Bidi.processText contextChecks shapers txt b) as [[[]|msg] b'];
    [auto|discriminate].
Qed.


(** X20. On a Bidi whose tokenizer has no modifier registered and for which
    no feature was requested, [getTextGlyphs] of a non-empty text throws a
    TypeError: the tokens have no active state, and the loop reads
    [token.activeState.value] of the first one.  The text is stored all
    the same.  Of the empty text it returns an empty array. *)
Theorem getTextGlyphs_needs_modifier (b : Bidi.Bidi) (txt : jsstring) :
  Bidi.featuresTags b = ∅ -> Bidi.text_changed txt b = true ->
  newToken_subscribers (Bidi.tokenizer b) = [] ->
  (txt <> [] ->
   fst (Bidi.getTextGlyphs contextChecks shapers txt b)
   = Bidi.Thrown "TypeError: Cannot read properties of null (reading 'value')" /\
   Bidi.text (snd (Bidi.getTextGlyphs contextChecks shapers txt b)) = Some txt) /\
  (txt = [] ->
   fst (Bidi.getTextGlyphs contextChecks shapers txt b) = Bidi.Returned []).
Proof.
  intros Htags Hc Hsubs.
  destruct (processText_tokens b txt Htags Hc) as (Hret & Hperm & Htext).
  destruct (getTextGlyphs_collect b txt Hret) as [Hg Hs]. rewrite Hg, Hs.
  set (l := tokens (Bidi.tokenizer (snd (Bidi.processText contextChecks shapers txt b))))
    in *.
  assert (Himap : imap (token_at (Bidi.tokenizer b) txt) (array_from txt)
                  = Token_new <$> array_from txt).
  { rewrite <- (imap_const Token_new). apply imap_ext. intros i c _.
    unfold token_at. rewrite Hsubs. reflexivity. }
  rewrite Himap in Hperm. split.
  - intros Hne. split; [|exact Htext].
    assert (Hall : Forall (fun tok => state_get tok "deleted" = Value VUndefined /\
                                      activeState tok = None) l).
    { rewrite Hperm. apply Forall_fmap, Forall_true. intros c. split; reflexivity. }
    destruct l as [|tok l'].
    + apply Permutation_length in Hperm. rewrite length_fmap in Hperm.
      destruct txt as [|u rest]; [contradiction|].
      destruct rest as [|v rest']; [discriminate|].
      simpl in Hperm. destruct (is_high_surrogate u && is_low_surrogate v); discriminate.
    + apply Forall_cons in Hall as [[Hst Ha] _].
      cbn [Bidi.collect_glyphs]. rewrite Hst. cbn [truthy_read truthy].
      rewrite Ha. reflexivity.
  - intros ->. apply Permutation_nil_r in Hperm. rewrite Hperm. reflexivity.
Qed.


(** X22. The one failure the driver raises itself.  When a feature of the
    Arabic script was requested and no modifier named [glyphIndex] is
    registered, [processText] of a new text throws; by then the text is
    stored and tokenized, and no token was shaped or moved.  Since the text
    is stored, a second call for the same non-empty text returns without
    an error, and without doing anything. *)
Theorem processText_requires_glyphIndex (b : Bidi.Bidi) (txt : jsstring)
    (tags : list string) :
  Bidi.featuresTags b !! "arab"%string = Some tags ->
  "glyphIndex"%string ∉ registeredModifiers (Bidi.tokenizer b) ->
  Bidi.text_changed txt b = true ->
  let r := Bidi.processText contextChecks shapers txt b in
  fst r = Bidi.Thrown
            "glyphIndex modifier is required to apply arabic presentation features." /\
  Bidi.text (snd r) = Some txt /\
  tokens (Bidi.tokenizer (snd r))
  = imap (token_at (Bidi.tokenizer b) txt) (array_from txt) /\
  (txt <> [] ->
   Bidi.processText contextChecks shapers txt (snd r) = (Bidi.Returned tt, snd r)).
Proof.
  intros Harab Hglyph Hc r. subst r.
  rewrite (processText_changed contextChecks shapers b txt Hc).
  set (b2 := Bidi.tokenizeText contextChecks (Bidi.setText txt b)).
  destruct (tokenizeText_tokens (Bidi.setText txt b) txt eq_refl) as (Htok & Hmod & Hready).
  fold b2 in Htok, Hmod, Hready. cbn [Bidi.tokenizer Bidi.setText] in Htok, Hmod.
  assert (Hthrow : Bidi.applyFeaturesToContexts shapers b2
                   = (Bidi.Thrown
                        "glyphIndex modifier is required to apply arabic presentation features.",
                      b2)).
  { unfold Bidi.applyFeaturesToContexts, Bidi.bind, Bidi.when. rewrite Hready.
    unfold Bidi.applyArabicPresentationForms.
    change (Bidi.featuresTags b2) with (Bidi.featuresTags b). rewrite Harab.
    unfold Bidi.bind, Bidi.checkGlyphIndexStatus. rewrite Hmod.
    rewrite bool_decide_eq_false_2 by exact Hglyph. reflexivity. }
  rewrite Hthrow. cbn [fst snd].
  split; [reflexivity|]. split; [reflexivity|]. split; [exact Htok|].
  intros Hne. apply (processText_unchanged contextChecks shapers).
  apply text_changed_false. split; [reflexivity|exact Hne].
Qed.
End DriverTokens.

Lemma getTextGlyphs_needs_modifier_witness :
  fst (Bidi.getTextGlyphs no_checks no_shapers [104; 105] (Bidi.Bidi_new "ltr"))
  = Bidi.Thrown "TypeError: Cannot read properties of null (reading 'value')".
Proof.
  destruct (getTextGlyphs_needs_modifier no_checks no_shapers (Bidi.Bidi_new "ltr")
              [104; 105]) as [H _]; [reflexivity|reflexivity|vm_compute; reflexivity|].
  apply H. discriminate.
Defined.


Lemma processText_requires_glyphIndex_witness :
  fst (Bidi.processText no_checks no_shapers [104; 105]
         (Bidi.set_featuresTags {["arab"%string := ["init"%string]]} (Bidi.Bidi_new "ltr")))
  = Bidi.Thrown "glyphIndex modifier is required to apply arabic presentation features.".
Proof.
  destruct (processText_requires_glyphIndex no_checks no_shapers
              (Bidi.set_featuresTags {["arab"%string := ["init"%string]]}
                 (Bidi.Bidi_new "ltr"))
              [104; 105] ["init"%string]) as (H & _).
  - vm_compute. reflexivity.
  - vm_compute. intros H. inversion H.
  - reflexivity.
  - exact H.
Defined.

(** ** applyFeatures: the requested tags *)

Lemma tags_supported_registerFeatures q script tags b :
  Bidi.query b = Some q -> tags_supported q (Bidi.featuresTags b) ->
  tags_supported q (Bidi.featuresTags (Bidi.registerFeatures script tags b)).
Proof.
  intros Hq Hsup. unfold Bidi.registerFeatures. rewrite Hq.
  assert (Hnew : Forall (fun tag => Bidi.supports q script (Some tag) = true)
                   (filter (fun tag => Bidi.supports q script (Some tag) = true) tags)).
  { apply Forall_forall. intros tag Hin. apply list_elem_of_filter in Hin as [H _]. exact H. }
  destruct (Bidi.featuresTags b !! script) as [old|] eqn:Hold;
    cbn [Bidi.featuresTags Bidi.set_featuresTags];
    apply map_Forall_insert_2; try exact Hsup; try exact Hnew.
  apply Forall_app. split; [apply (Hsup script old Hold)|exact Hnew].
Qed.

Lemma registerFeatures_other script script' tags b :
  script' <> script ->
  Bidi.featuresTags (Bidi.registerFeatures script tags b) !! script'
  = Bidi.featuresTags b !! script'.
Proof.
  intros Hne. unfold Bidi.registerFeatures.
  destruct (Bidi.featuresTags b !! script);
    cbn [Bidi.featuresTags Bidi.set_featuresTags];
    apply lookup_insert_ne; intros Heq; apply Hne; symmetry; exact Heq.
Qed.

Lemma registerFeatures_rest script tags b :
  Bidi.query (Bidi.registerFeatures script tags b) = Bidi.query b /\
  Bidi.text (Bidi.registerFeatures script tags b) = Bidi.text b /\
  Bidi.tokenizer (Bidi.registerFeatures script tags b) = Bidi.tokenizer b.
Proof.
  unfold Bidi.registerFeatures. destruct (Bidi.featuresTags b !! script); auto.
Qed.

(** X23. [applyFeatures] without a font throws and changes nothing.  With
    a font it returns; the query is built from the first font the Bidi was
    given and a later font is not looked at; every tag it adds is one that
    query supports for the script; a script the query does not support, or
    that no feature names, keeps the tags it had; the text and the
    tokenizer are not touched. *)
Theorem applyFeatures_first_font_wins (b : Bidi.Bidi) (font : Bidi.FeatureQuery)
    (features : list (string * list string)) :
  Bidi.applyFeatures None features b
  = (Bidi.Thrown "No valid font was provided to apply features", b) /\
  let q := default font (Bidi.query b) in
  let b' := snd (Bidi.applyFeatures (Some font) features b) in
  fst (Bidi.applyFeatures (Some font) features b) = Bidi.Returned tt /\
  Bidi.query b' = Some q /\
  Bidi.text b' = Bidi.text b /\ Bidi.tokenizer b' = Bidi.tokenizer b /\
  (tags_supported q (Bidi.featuresTags b) -> tags_supported q (Bidi.featuresTags b')) /\
  (forall script,
     Bidi.supports q script None = false \/ script ∉ (fst <$> features) ->
     Bidi.featuresTags b' !! script = Bidi.featuresTags b !! script).
Proof.
  split; [reflexivity|]. intros q b'. split; [reflexivity|].
  subst b'. unfold Bidi.applyFeatures. cbn [snd].
  set (b0 := match Bidi.query b with
             | Some _ => b
             | None => Bidi.set_query (Some font) b
             end).
  assert (H0 : Bidi.query b0 = Some q /\ Bidi.text b0 = Bidi.text b /\
               Bidi.tokenizer b0 = Bidi.tokenizer b /\
               Bidi.featuresTags b0 = Bidi.featuresTags b).
  { subst b0 q. destruct (Bidi.query b) as [q0|] eqn:Hq; simpl; auto. }
  destruct H0 as (Hq0 & Ht0 & Hk0 & Hf0). rewrite <- Ht0, <- Hk0, <- Hf0.
  clearbody b0. clear Ht0 Hk0 Hf0. revert b0 Hq0.
  induction features as [|[script tags] features IH]; intros b0 Hq0.
  - cbn [fold_left]. auto.
  - cbn [fold_left fst snd]. rewrite Hq0.
    set (b1 := if Bidi.supports q script None
               then Bidi.registerFeatures script tags b0 else b0).
    assert (H1 : Bidi.query b1 = Some q /\ Bidi.text b1 = Bidi.text b0 /\
                 Bidi.tokenizer b1 = Bidi.tokenizer b0).
    { subst b1. destruct (Bidi.supports q script None); [|auto].
      destruct (registerFeatures_rest script tags b0) as (-> & -> & ->). auto. }
    destruct H1 as (Hq1 & Ht1 & Hk1).
    destruct (IH b1 Hq1) as (IHq & IHt & IHk & IHs & IHo).
    split; [exact IHq|]. split; [congruence|]. split; [congruence|]. split.
    + intros Hsup. apply IHs. subst b1.
      destruct (Bidi.supports q script None); [|exact Hsup].
      apply tags_supported_registerFeatures; assumption.
    + intros script' Hs'. rewrite IHo.
      * subst b1. destruct (Bidi.supports q script None) eqn:Hsc; [|reflexivity].
        apply registerFeatures_other. intros ->.
        destruct Hs' as [Hs'|Hs']; [congruence|].
        apply Hs'. cbn [fmap list_fmap fst]. left.
      * destruct Hs' as [Hs'|Hs']; [left; exact Hs'|].
        right. intros Hin. apply Hs'. cbn [fmap list_fmap]. right. exact Hin.
Qed.

Lemma applyFeatures_first_font_wins_witness :
  tags_supported {| Bidi.supports := fun _ tag => bool_decide (tag <> Some "liga"%string) |}
    (Bidi.featuresTags
       (snd (Bidi.applyFeatures
               (Some {| Bidi.supports := fun _ tag => bool_decide (tag <> Some "liga"%string) |})
               [("arab"%string, ["init"; "liga"]%string)] (Bidi.Bidi_new "ltr")))).
Proof.
  destruct (applyFeatures_first_font_wins (Bidi.Bidi_new "ltr")
              {| Bidi.supports := fun _ tag => bool_decide (tag <> Some "liga"%string) |}
              [("arab"%string, ["init"; "liga"]%string)]) as (_ & _ & _ & _ & _ & H & _).
  apply H. apply map_Forall_empty.
Defined.

(** ** The text of a range *)

(** X24. For a completed range that lies within the token vector,
    [getRangeTokens] is the run of [endOffset] tokens from [startIndex],
    and [rangeToText] is the piece of [getText] those tokens account for.
    For a range still open, whose end offset is [null], both are empty. *)
Theorem rangeToText_substring (t : Tokenizer) (r : ContextRange) :
  (forall off, endOffset r = Some off ->
     0 <= startIndex r -> 0 <= off -> startIndex r + off <= len (tokens t) ->
     getRangeTokens r t
     = take (Z.to_nat off) (drop (Z.to_nat (startIndex r)) (tokens t)) /\
     len (getRangeTokens r t) = off /\
     getText t
     = concat (map char (take (Z.to_nat (startIndex r)) (tokens t)))
         ++ rangeToText r t
         ++ concat (map char (drop (Z.to_nat (startIndex r + off)) (tokens t)))) /\
  (endOffset r = None -> getRangeTokens r t = [] /\ rangeToText r t = []).
Proof.
  split.
  - intros off Hoff Hs Ho Hend.
    assert (Hget : getRangeTokens r t
                   = take (Z.to_nat off) (drop (Z.to_nat (startIndex r)) (tokens t))).
    { unfold getRangeTokens, js_slice, clamp_index. rewrite Hoff.
      change (default 0 (Some off)) with off.
      destruct (Z.ltb_spec (startIndex r) 0); [lia|].
      destruct (Z.ltb_spec (startIndex r + off) 0); [lia|].
      rewrite !Z.min_l by lia. f_equal. lia. }
    split; [exact Hget|]. split.
    + rewrite Hget. unfold len in *. rewrite length_take, length_drop. lia.
    + unfold rangeToText, getText. rewrite Hget, <- !concat_app, <- !map_app.
      replace (Z.to_nat (startIndex r + off))
        with (Z.to_nat (startIndex r) + Z.to_nat off)%nat by lia.
      rewrite <- drop_drop, take_drop, take_drop. reflexivity.
  - intros Hnone.
    assert (Hget : getRangeTokens r t = []).
    { unfold getRangeTokens, js_slice. rewrite Hnone.
      change (default 0 None) with 0.
      rewrite Z.add_0_r, Z.sub_diag. reflexivity. }
    split; [exact Hget|]. unfold rangeToText. rewrite Hget. reflexivity.
Qed.

Lemma rangeToText_substring_witness :
  rangeToText {| contextName := "ab"; startIndex := 1; endOffset := Some 2;
                 rangeId := Some "ab.0" |} (tokenizer_of [120; 97; 98; 121])
  = [97; 98].
Proof.
  destruct (rangeToText_substring (tokenizer_of [120; 97; 98; 121])
              {| contextName := "ab"; startIndex := 1; endOffset := Some 2;
                 rangeId := Some "ab.0" |}) as [H _].
  destruct (H 2 eq_refl) as (Hget & _ & _);
    [vm_compute; discriminate|vm_compute; discriminate|vm_compute; discriminate|].
  unfold rangeToText. rewrite Hget. vm_compute. reflexivity.
Defined.

(** ** The events of a tokenize run *)

Lemma count_dispatch ev' ev args t :
  ev' ∉ rangeEvents ->
  exists d, trace (dispatch ev args t) = trace t ++ d /\
            dispatches ev' d = (if bool_decide (ev' = ev) then 1 else 0)%nat.
Proof.
  intros Hr. destruct (dispatch_count ev' ev args t Hr) as (d & Hd & Hc).
  exists d. split; [exact Hd|]. rewrite Hc.
  destruct (decide (ev = ev')) as [->|Hne].
  - rewrite !bool_decide_eq_true_2 by reflexivity. reflexivity.
  - rewrite !bool_decide_eq_false_2; [reflexivity|congruence|exact Hne].
Qed.

Lemma count_tokenize_step ev chars i t :
  ev ∉ rangeEvents ->
  exists d, trace (tokenize_step chars i t) = trace t ++ d /\
            dispatches ev d
            = ((if bool_decide (ev = "next"%string) then 1 else 0)
               + (if bool_decide (ev = "newToken"%string) then 1 else 0))%nat.
Proof.
  intros Hr. unfold tokenize_step. cbv zeta.
  set (p := ContextParams_new chars i).
  destruct (count_dispatch ev "next" (ANext p) t Hr) as (d1 & Hd1 & Hc1).
  set (t1 := dispatch "next" (ANext p) t) in *.
  destruct (framed_trace _ _ _ (frame_runContextCheck p t1)) as (d2 & Hd2 & HP2).
  set (t2 := runContextCheck p t1) in *.
  destruct (count_dispatch ev "newToken"
              (ANewToken (Token_new (default [] (js_index chars i))) p)
              (set_tokens (tokens t2 ++ [Token_new (default [] (js_index chars i))]) t2) Hr)
    as (d3 & Hd3 & Hc3).
  exists (d1 ++ d2 ++ d3). split.
  - rewrite Hd3. cbn [trace set_tokens]. rewrite Hd2, Hd1, <- !app_assoc. reflexivity.
  - rewrite !dispatches_app, Hc1, Hc3.
    rewrite (dispatches_named ev ["contextStart"; "contextEnd"]%string d2); [lia| |exact HP2].
    intros Hin. apply Hr. unfold rangeEvents.
    apply elem_of_cons in Hin as [->|Hin]; [repeat constructor|].
    apply list_elem_of_singleton in Hin as ->. repeat constructor.
Qed.

Lemma count_tokenize_loop ev chars n t :
  ev ∉ rangeEvents ->
  exists d, trace (for_loop n (tokenize_step chars) t) = trace t ++ d /\
            dispatches ev d
            = (n * ((if bool_decide (ev = "next"%string) then 1 else 0)
                    + (if bool_decide (ev = "newToken"%string) then 1 else 0)))%nat.
Proof.
  intros Hr. induction n as [|n (d & Hd & Hc)].
  - exists []. unfold for_loop. simpl. rewrite app_nil_r. auto.
  - rewrite for_loop_S.
    destruct (count_tokenize_step ev chars (Z.of_nat n)
                (for_loop n (tokenize_step chars) t) Hr) as (d1 & Hd1 & Hc1).
    exists (d ++ d1). split; [rewrite Hd1, Hd, app_assoc; reflexivity|].
    rewrite dispatches_app, Hc, Hc1. lia.
Qed.

(** X25. A [tokenize] run dispatches [start] once, then [next] and
    [newToken] once for each code point of the text, then [end] once, and
    none of the events of the edits. *)
Theorem tokenize_event_counts (text : jsstring) (t : Tokenizer) (ev : string) :
  ev ∉ rangeEvents ->
  exists d, trace (snd (tokenize text t)) = trace t ++ d /\
    dispatches ev d
    = (if bool_decide (ev ∈ ["start"; "end"]%string) then 1
       else if bool_decide (ev ∈ ["next"; "newToken"]%string)
            then length (array_from text)
            else 0)%nat.
Proof.
  intros Hr. unfold tokenize. cbv beta zeta. cbn [snd].
  set (t0 := resetContextsRanges (set_tokens [] t)).
  destruct (count_dispatch ev "start" ANone t0 Hr) as (d1 & Hd1 & Hc1).
  set (t1 := dispatch "start" ANone t0) in *.
  destruct (count_tokenize_loop ev (array_from text) (length (array_from text)) t1 Hr)
    as (d2 & Hd2 & Hc2).
  set (t2 := for_loop (length (array_from text)) (tokenize_step (array_from text)) t1) in *.
  destruct (count_dispatch ev "end" (AEnd (tokens t2)) t2 Hr) as (d3 & Hd3 & Hc3).
  exists (d1 ++ d2 ++ d3). split.
  - rewrite Hd3, Hd2, Hd1, <- !app_assoc. reflexivity.
  - rewrite !dispatches_app, Hc1, Hc2, Hc3.
    destruct (decide (ev = "start"%string)) as [->|H1]; [simpl; lia|].
    destruct (decide (ev = "end"%string)) as [->|H2]; [simpl; lia|].
    destruct (decide (ev = "next"%string)) as [->|H3]; [simpl; lia|].
    destruct (decide (ev = "newToken"%string)) as [->|H4]; [simpl; lia|].
    rewrite !(bool_decide_eq_false_2 (ev = _)) by assumption.
    rewrite !bool_decide_eq_false_2; [lia| |].
    + intros Hin. apply elem_of_cons in Hin as [?|Hin]; [contradiction|].
      apply list_elem_of_singleton in Hin. contradiction.
    + intros Hin. apply elem_of_cons in Hin as [?|Hin]; [contradiction|].
      apply list_elem_of_singleton in Hin. contradiction.
Qed.

Lemma tokenize_event_counts_witness :
  exists d, trace (snd (tokenize [104; 105] (Tokenizer_new ∅)))
            = trace (Tokenizer_new ∅) ++ d /\
            dispatches "newToken" d = 2%nat.
Proof.
  destruct (tokenize_event_counts [104; 105] (Tokenizer_new ∅) "newToken")
    as (d & Hd & Hc).
  - intros Hin. repeat (apply elem_of_cons in Hin as [Hin|Hin]; [discriminate|]).
    inversion Hin.
  - exists d. split; [exact Hd|exact Hc].
Defined.

(** ** replaceRange: the offset left out *)

(** X26. [replaceRange] with a [null] offset replaces everything from the
    start index to the end; with the offset left out ([undefined]) it
    removes nothing and inserts the tokens at the start index.  (The
    sibling [removeRange] has it the other way round.) *)
Theorem replaceRange_offset_defaults (t : Tokenizer) (s : Z) (toks : list Token)
    (silent : bool) :
  0 <= s < len (tokens t) ->
  fst (replaceRange (NInt s) NNull (ETok <$> toks) silent t)
  = RReplacedRange (drop (Z.to_nat s) (tokens t)) toks /\
  tokens (snd (replaceRange (NInt s) NNull (ETok <$> toks) silent t))
  = take (Z.to_nat s) (tokens t) ++ toks /\
  fst (replaceRange (NInt s) NUndefined (ETok <$> toks) silent t)
  = RReplacedRange [] toks /\
  tokens (snd (replaceRange (NInt s) NUndefined (ETok <$> toks) silent t))
  = take (Z.to_nat s) (tokens t) ++ toks ++ drop (Z.to_nat s) (tokens t).
Proof.
  intros Hs.
  assert (Hok : negb (isNaN (NInt s)) && inboundIndex (NInt s) t
                && forallb instanceof_Token (ETok <$> toks) = true).
  { apply andb_true_intro. split.
    - apply num_in_range_spec. exists s. auto.
    - apply forallb_forall. intros x Hx.
      apply in_map_iff in Hx as (tok & <- & _). reflexivity. }
  assert (Hstart : splice_start (tokens t) (NInt s) = Z.to_nat s).
  { unfold splice_start. cbn [to_integer to_number].
    rewrite clamp_index_inside by lia. reflexivity. }
  unfold replaceRange. cbv beta zeta. rewrite Hok, tokens_of_ETok.
  rewrite js_splice_to_end by (unfold to_integer, to_number; lia).
  rewrite js_splice_insert by (unfold to_integer, to_number; lia).
  rewrite Hstart. cbn [fst snd].
  rewrite !silent_or_dispatched_tokens by reflexivity. cbn [tokens set_tokens]. auto.
Qed.

Lemma replaceRange_offset_defaults_witness :
  map char (tokens (snd (replaceRange (NInt 1) NNull (ETok <$> [Token_new [88]]) false
                           (tokenizer_of [97; 98; 99]))))
  = [[97]; [88]] /\
  map char (tokens (snd (replaceRange (NInt 1) NUndefined (ETok <$> [Token_new [88]]) false
                           (tokenizer_of [97; 98; 99]))))
  = [[97]; [88]; [98]; [99]].
Proof.
  destruct (replaceRange_offset_defaults (tokenizer_of [97; 98; 99]) 1 [Token_new [88]]
              false) as (_ & H1 & _ & H2).
  - vm_compute. split; [discriminate|reflexivity].
  - rewrite H1, H2. vm_compute. split; reflexivity.
Defined.

(** ** ContextParams: moving the index *)

Section ContextParamsIndex.
Context {A : Type}.
Implicit Types ctx : list A.

(** X27. [setCurrentIndex(j)] leaves no field behind: the object is the one
    the constructor builds for the same context at [j], whatever index it
    was built for, so that moving the index and moving it back gives the
    object back; and on any object, [get] after [setCurrentIndex(j)] reads
    what it reads on a newly built one. *)
Theorem setCurrentIndex_rebuilds ctx (i j : Z) (p : ContextParams A) (o : Z) :
  setCurrentIndex j (ContextParams_new ctx i) = ContextParams_new ctx j /\
  setCurrentIndex i (setCurrentIndex j (ContextParams_new ctx i)) = ContextParams_new ctx i /\
  get (setCurrentIndex j p) o = get (ContextParams_new (context p) j) o.
Proof. split; [reflexivity|]. split; reflexivity. Qed.
End ContextParamsIndex.
